(** * JitsiLocalTrack: a model of modules/RTC/JitsiLocalTrack.js

    The local track wraps one native MediaStreamTrack, derives its muted and
    ended state from the native objects, and serialises mute/unmute requests
    with the [inMuteOrUnmuteProgress] guard.  The JavaScript object is a
    record, every method is a function in a small state/effect/exception
    monad over that record, and the promise chains the methods build are run
    by an explicit scheduler ([step]) that the environment drives: API
    calls, promise jobs and the answers of the collaborators (conference
    room, RTCUtils) are its events.

    The SSRC bookkeeping ([_setSSRC], [getSSRC]) and the audio output
    routing are outside the verified fragment. *)

From Stdlib Require Import String List Bool Arith Lia.
Import ListNotations.
Open Scope string_scope.
Open Scope list_scope.

(** ** Native objects and enumerations *)

(** service/RTC/MediaType *)
Inductive MediaType : Type := AUDIO | VIDEO.

(** service/RTC/VideoType *)
Inductive VideoType : Type := CAMERA | DESKTOP.

(** service/RTC/CameraFacingMode *)
Inductive CameraFacingMode : Type := USER | ENVIRONMENT.

(** MediaStreamTrack#readyState, where the browser has it. *)
Inductive ReadyState : Type := live | ended.

Definition MediaType_eqb (a b : MediaType) : bool :=
  match a, b with
  | AUDIO, AUDIO | VIDEO, VIDEO => true
  | _, _ => false
  end.

Definition VideoType_eqb (a b : VideoType) : bool :=
  match a, b with
  | CAMERA, CAMERA | DESKTOP, DESKTOP => true
  | _, _ => false
  end.

(** [o === v] for a property that may be undefined. *)
Definition strict_eq {A : Type} (eqb : A -> A -> bool) (o : option A) (v : A)
  : bool :=
  match o with
  | Some a => eqb a v
  | None => false
  end.

(** A JavaScript value that may be undefined or null. *)
Inductive Nullable (A : Type) : Type :=
| js_undefined
| js_null
| js_value (a : A).
Arguments js_undefined {A}.
Arguments js_null {A}.
Arguments js_value {A} a.

(** The native track.  [readyState] is [None] on browsers that do not
    implement the property; [getSettings] is [None] when the call throws (or
    the method is missing), [Some None] when it returns nothing or a settings
    object without a facingMode key, and [Some (Some v)] when the settings
    object has the key, with the value [v] stored under it. *)
Record MediaStreamTrack : Type := {
  kind : string;
  label : string;
  enabled : bool;
  readyState : option ReadyState;
  getSettings : option (option (Nullable CameraFacingMode))
}.

Definition set_enabled (b : bool) (t : MediaStreamTrack) : MediaStreamTrack :=
  {| kind := kind t; label := label t; enabled := b;
     readyState := readyState t; getSettings := getSettings t |}.

Definition set_readyState (r : option ReadyState) (t : MediaStreamTrack)
  : MediaStreamTrack :=
  {| kind := kind t; label := label t; enabled := enabled t;
     readyState := r; getSettings := getSettings t |}.

(** The native stream: an identity and its activity. *)
Record MediaStream : Type := {
  id : nat;
  active : bool
}.

Definition set_active (b : bool) (s : MediaStream) : MediaStream :=
  {| id := id s; active := b |}.

(** An entry of enumerateDevices(). *)
Record MediaDeviceInfo : Type := {
  device_deviceId : string;
  device_kind : string;
  device_label : string
}.

(** An entry of the array RTCUtils.obtainAudioAndVideoPermissions resolves
    with. *)
Record StreamInfo : Type := {
  info_mediaType : MediaType;
  info_stream : MediaStream;
  info_track : MediaStreamTrack;
  info_videoType : option VideoType
}.

Definition ChatRoom : Type := nat.

(** The conference a track is added to; [room] is absent until joined. *)
Record JitsiConference : Type := {
  room : option ChatRoom
}.

Definition Container : Type := nat.

(** What the code reads from its surroundings: window.location.protocol,
    RTCBrowserType.isFirefox() and RTCUtils.isDeviceChangeAvailable('output'). *)
Record Platform : Type := {
  protocol : string;
  isFirefox : bool;
  isDeviceChangeAvailable_output : bool
}.

(** ** The track object *)

Record JitsiLocalTrack : Type := {
  (* JitsiTrack *)
  stream : option MediaStream;
  track : option MediaStreamTrack;
  type : MediaType;
  videoType : option VideoType;
  containers : list Container;
  conference : option JitsiConference;
  (* JitsiLocalTrack *)
  dontFireRemoveEvent : bool;
  resolution : nat;
  deviceId : string;
  startMuted : bool;
  inMuteOrUnmuteProgress : bool;
  _facingMode : Nullable CameraFacingMode;
  _trackEnded : bool;
  _realDeviceId : option string;
  _onAudioOutputDeviceChanged : bool;
  (* the identity of the native stream that carries the inactive handler *)
  inactive_handler_on : option nat
}.

Definition set_stream (v : option MediaStream) (t : JitsiLocalTrack) :=
  {| stream := v; track := track t; type := type t; videoType := videoType t;
     containers := containers t; conference := conference t;
     dontFireRemoveEvent := dontFireRemoveEvent t;
     resolution := resolution t; deviceId := deviceId t;
     startMuted := startMuted t;
     inMuteOrUnmuteProgress := inMuteOrUnmuteProgress t;
     _facingMode := _facingMode t; _trackEnded := _trackEnded t;
     _realDeviceId := _realDeviceId t;
     _onAudioOutputDeviceChanged := _onAudioOutputDeviceChanged t;
     inactive_handler_on := inactive_handler_on t |}.

Definition set_track (v : option MediaStreamTrack) (t : JitsiLocalTrack) :=
  {| stream := stream t; track := v; type := type t; videoType := videoType t;
     containers := containers t; conference := conference t;
     dontFireRemoveEvent := dontFireRemoveEvent t;
     resolution := resolution t; deviceId := deviceId t;
     startMuted := startMuted t;
     inMuteOrUnmuteProgress := inMuteOrUnmuteProgress t;
     _facingMode := _facingMode t; _trackEnded := _trackEnded t;
     _realDeviceId := _realDeviceId t;
     _onAudioOutputDeviceChanged := _onAudioOutputDeviceChanged t;
     inactive_handler_on := inactive_handler_on t |}.

Definition set_videoType (v : option VideoType) (t : JitsiLocalTrack) :=
  {| stream := stream t; track := track t; type := type t; videoType := v;
     containers := containers t; conference := conference t;
     dontFireRemoveEvent := dontFireRemoveEvent t;
     resolution := resolution t; deviceId := deviceId t;
     startMuted := startMuted t;
     inMuteOrUnmuteProgress := inMuteOrUnmuteProgress t;
     _facingMode := _facingMode t; _trackEnded := _trackEnded t;
     _realDeviceId := _realDeviceId t;
     _onAudioOutputDeviceChanged := _onAudioOutputDeviceChanged t;
     inactive_handler_on := inactive_handler_on t |}.

Definition set_containers (v : list Container) (t : JitsiLocalTrack) :=
  {| stream := stream t; track := track t; type := type t;
     videoType := videoType t;
     containers := v; conference := conference t;
     dontFireRemoveEvent := dontFireRemoveEvent t;
     resolution := resolution t; deviceId := deviceId t;
     startMuted := startMuted t;
     inMuteOrUnmuteProgress := inMuteOrUnmuteProgress t;
     _facingMode := _facingMode t; _trackEnded := _trackEnded t;
     _realDeviceId := _realDeviceId t;
     _onAudioOutputDeviceChanged := _onAudioOutputDeviceChanged t;
     inactive_handler_on := inactive_handler_on t |}.

Definition set_conference (v : option JitsiConference) (t : JitsiLocalTrack) :=
  {| stream := stream t; track := track t; type := type t;
     videoType := videoType t;
     containers := containers t; conference := v;
     dontFireRemoveEvent := dontFireRemoveEvent t;
     resolution := resolution t; deviceId := deviceId t;
     startMuted := startMuted t;
     inMuteOrUnmuteProgress := inMuteOrUnmuteProgress t;
     _facingMode := _facingMode t; _trackEnded := _trackEnded t;
     _realDeviceId := _realDeviceId t;
     _onAudioOutputDeviceChanged := _onAudioOutputDeviceChanged t;
     inactive_handler_on := inactive_handler_on t |}.

Definition set_dontFireRemoveEvent (v : bool) (t : JitsiLocalTrack) :=
  {| stream := stream t; track := track t; type := type t;
     videoType := videoType t;
     containers := containers t; conference := conference t;
     dontFireRemoveEvent := v;
     resolution := resolution t; deviceId := deviceId t;
     startMuted := startMuted t;
     inMuteOrUnmuteProgress := inMuteOrUnmuteProgress t;
     _facingMode := _facingMode t; _trackEnded := _trackEnded t;
     _realDeviceId := _realDeviceId t;
     _onAudioOutputDeviceChanged := _onAudioOutputDeviceChanged t;
     inactive_handler_on := inactive_handler_on t |}.

Definition set_startMuted (v : bool) (t : JitsiLocalTrack) :=
  {| stream := stream t; track := track t; type := type t;
     videoType := videoType t;
     containers := containers t; conference := conference t;
     dontFireRemoveEvent := dontFireRemoveEvent t;
     resolution := resolution t; deviceId := deviceId t;
     startMuted := v;
     inMuteOrUnmuteProgress := inMuteOrUnmuteProgress t;
     _facingMode := _facingMode t; _trackEnded := _trackEnded t;
     _realDeviceId := _realDeviceId t;
     _onAudioOutputDeviceChanged := _onAudioOutputDeviceChanged t;
     inactive_handler_on := inactive_handler_on t |}.

Definition set_inMuteOrUnmuteProgress (v : bool) (t : JitsiLocalTrack) :=
  {| stream := stream t; track := track t; type := type t;
     videoType := videoType t;
     containers := containers t; conference := conference t;
     dontFireRemoveEvent := dontFireRemoveEvent t;
     resolution := resolution t; deviceId := deviceId t;
     startMuted := startMuted t;
     inMuteOrUnmuteProgress := v;
     _facingMode := _facingMode t; _trackEnded := _trackEnded t;
     _realDeviceId := _realDeviceId t;
     _onAudioOutputDeviceChanged := _onAudioOutputDeviceChanged t;
     inactive_handler_on := inactive_handler_on t |}.

Definition set_trackEnded (v : bool) (t : JitsiLocalTrack) :=
  {| stream := stream t; track := track t; type := type t;
     videoType := videoType t;
     containers := containers t; conference := conference t;
     dontFireRemoveEvent := dontFireRemoveEvent t;
     resolution := resolution t; deviceId := deviceId t;
     startMuted := startMuted t;
     inMuteOrUnmuteProgress := inMuteOrUnmuteProgress t;
     _facingMode := _facingMode t; _trackEnded := v;
     _realDeviceId := _realDeviceId t;
     _onAudioOutputDeviceChanged := _onAudioOutputDeviceChanged t;
     inactive_handler_on := inactive_handler_on t |}.

Definition set_realDeviceId (v : option string) (t : JitsiLocalTrack) :=
  {| stream := stream t; track := track t; type := type t;
     videoType := videoType t;
     containers := containers t; conference := conference t;
     dontFireRemoveEvent := dontFireRemoveEvent t;
     resolution := resolution t; deviceId := deviceId t;
     startMuted := startMuted t;
     inMuteOrUnmuteProgress := inMuteOrUnmuteProgress t;
     _facingMode := _facingMode t; _trackEnded := _trackEnded t;
     _realDeviceId := v;
     _onAudioOutputDeviceChanged := _onAudioOutputDeviceChanged t;
     inactive_handler_on := inactive_handler_on t |}.

(** ** The part of JitsiTrack the local track relies on *)

(** Modelled from the spec: JitsiTrack.js is not part of the sources.  The
    media type is one of AUDIO and VIDEO, and these accessors compare the
    stored type with it. *)
Definition getType (this : JitsiLocalTrack) : MediaType := type this.

(** Modelled from the spec: JitsiTrack#isAudioTrack, media kind AUDIO. *)
Definition isAudioTrack (this : JitsiLocalTrack) : bool :=
  MediaType_eqb (getType this) AUDIO.

(** Modelled from the spec: JitsiTrack#isVideoTrack, media kind VIDEO. *)
Definition isVideoTrack (this : JitsiLocalTrack) : bool :=
  MediaType_eqb (getType this) VIDEO.

(** Modelled from the spec: JitsiTrack#getTrack hands out the native track. *)
Definition getTrack (this : JitsiLocalTrack) : option MediaStreamTrack :=
  track this.

(** Modelled from the spec: JitsiTrack#isActive, the [isActive] input of the
    derived mute state, read off the native stream. *)
Definition isActive (s : MediaStream) : bool := active s.

(** ** Faults *)

(** JitsiTrackErrors used by this file. *)
Inductive JitsiTrackErrors : Type :=
| TRACK_MUTE_UNMUTE_IN_PROGRESS
| TRACK_NO_STREAM_FOUND.

(** What a throw or a rejection carries: a JitsiTrackError, the TypeError of
    a property read on null/undefined, or a fault a collaborator rejects
    with. *)
Inductive Fault : Type :=
| JitsiTrackError (name : JitsiTrackErrors)
| TypeError
| Foreign (code : nat).

Inductive Completion (A : Type) : Type :=
| Normal (a : A)
| Throw (e : Fault).
Arguments Normal {A} a.
Arguments Throw {A} e.

(** ** Derived state *)

(** JitsiLocalTrack.prototype.isMuted *)
Definition isMuted (this : JitsiLocalTrack) : bool :=
  match stream this with
  | None => true
  | Some s =>
      if isVideoTrack this && negb (isActive s) then true
      else
        match track this with
        | None => true
        | Some tr => negb (enabled tr)
        end
  end.

Definition ReadyState_is_ended (r : option ReadyState) : bool :=
  match r with
  | Some ended => true
  | _ => false
  end.

(** JitsiLocalTrack.prototype.isEnded; reading readyState of a missing native
    track is a TypeError. *)
Definition isEnded (this : JitsiLocalTrack) : Completion bool :=
  match getTrack this with
  | None => Throw TypeError
  | Some tr => Normal (ReadyState_is_ended (readyState tr) || _trackEnded this)
  end.

(** JitsiLocalTrack.prototype.isLocal *)
Definition isLocal (this : JitsiLocalTrack) : bool := true.

(** JitsiLocalTrack.prototype.getDeviceId: [_realDeviceId || deviceId]. *)
Definition getDeviceId (this : JitsiLocalTrack) : string :=
  match _realDeviceId this with
  | Some d => if String.eqb d "" then deviceId this else d
  | None => deviceId this
  end.

(** JitsiLocalTrack.prototype.getCameraFacingMode.  The call of getSettings
    on a missing native track throws inside the try block as well; a
    facingMode key of the settings is returned whatever is stored under it,
    and so is a [_facingMode] that is not undefined. *)
Definition getCameraFacingMode (this : JitsiLocalTrack)
  : Nullable CameraFacingMode :=
  if isVideoTrack this && strict_eq VideoType_eqb (videoType this) CAMERA then
    let trackSettings :=
      match track this with
      | Some tr => getSettings tr
      | None => None
      end in
    match trackSettings with
    | Some (Some facingMode) => facingMode
    | _ =>
        match _facingMode this with
        | js_undefined => js_value USER
        | facingMode => facingMode
        end
    end
  else js_undefined.

(** ** Effects on the collaborators *)

(** JitsiTrackEvents emitted by this file. *)
Inductive JitsiTrackEvents : Type :=
| TRACK_MUTE_CHANGED
| LOCAL_TRACK_STOPPED.

(** RTCEvents this file listens to. *)
Inductive RTCEvents : Type :=
| DEVICE_LIST_CHANGED
| AUDIO_OUTPUT_DEVICE_CHANGED.

(** The streamOptions object of the unmute path. *)
Record StreamOptions : Type := {
  cameraDeviceId : string;
  devices : list MediaType;
  facingMode : Nullable CameraFacingMode;
  options_resolution : nat
}.

(** Calls that leave the track object, in the order they are made.  The
    room's add/remove requests carry the stream and the [mtype] of their
    metadata; their [type] tag is fixed by the constructor ("mute" for
    removeStream, "unmute" for addStream). *)
Inductive Effect : Type :=
| eventEmitter_emit (e : JitsiTrackEvents)
| room_removeStream (s : option MediaStream) (mtype : MediaType)
| room_addStream (s : option MediaStream) (mtype : MediaType)
| room_setAudioMute (mute : bool)
| room_setVideoMute (mute : bool)
| conference_removeTrack
| RTCUtils_stopMediaStream (s : option MediaStream)
| RTCUtils_obtainAudioAndVideoPermissions (o : StreamOptions)
| RTCUtils_attachMediaStream (c : Container) (s : option MediaStream)
| RTCUtils_addListener (e : RTCEvents)
| RTCUtils_removeListener (e : RTCEvents)
| JitsiTrack_detach
| JitsiTrack_dispose
| JitsiTrack_maybeFireTrackAttached (c : Container)
| logger_warn.

(** ** The method monad: state of [this], effects made, normal or abrupt
    completion *)

Definition Action (A : Type) : Type :=
  JitsiLocalTrack -> Completion A * JitsiLocalTrack * list Effect.

Definition ret {A : Type} (a : A) : Action A :=
  fun this => (Normal a, this, []).

Definition bind {A B : Type} (m : Action A) (k : A -> Action B) : Action B :=
  fun this =>
    match m this with
    | (Normal a, this', out) =>
        match k a this' with
        | (r, this'', out') => (r, this'', out ++ out')
        end
    | (Throw e, this', out) => (Throw e, this', out)
    end.

Definition get : Action JitsiLocalTrack :=
  fun this => (Normal this, this, []).

Definition modify (f : JitsiLocalTrack -> JitsiLocalTrack) : Action unit :=
  fun this => (Normal tt, f this, []).

Definition perform (e : Effect) : Action unit :=
  fun this => (Normal tt, this, [e]).

Definition throw {A : Type} (e : Fault) : Action A :=
  fun this => (Throw e, this, []).

Declare Scope action_scope.
Delimit Scope action_scope with action.
Notation "x <- m ;; k" := (bind m (fun x => k))
  (at level 61, m at next level, right associativity) : action_scope.
Notation "m ;; k" := (bind m (fun _ => k))
  (at level 61, right associativity) : action_scope.
Open Scope action_scope.

Definition when (b : bool) (m : Action unit) : Action unit :=
  if b then m else ret tt.

Fixpoint forEach {A : Type} (f : A -> Action unit) (l : list A) : Action unit :=
  match l with
  | [] => ret tt
  | a :: l' => f a ;; forEach f l'
  end.

(** ** Device identity *)

(** The test of the [find] in _setRealDeviceIdFromDeviceList:
    [d.kind === track.kind + 'input' && d.label === track.label]. *)
Definition is_input_of (track : MediaStreamTrack) (d : MediaDeviceInfo) : bool :=
  String.eqb (device_kind d) (kind track ++ "input")%string
  && String.eqb (device_label d) (label track).

(** JitsiLocalTrack.prototype._setRealDeviceIdFromDeviceList *)
Definition _setRealDeviceIdFromDeviceList (devices : list MediaDeviceInfo)
  : Action unit :=
  this <- get ;;
  match getTrack this with
  | None =>
      (* the test reads track.kind as soon as there is an entry to test *)
      match devices with
      | [] => ret tt
      | _ :: _ => throw TypeError
      end
  | Some track =>
      let device := find (is_input_of track) devices in
      match device with
      | Some device => modify (set_realDeviceId (Some (device_deviceId device)))
      | None => ret tt
      end
  end.

Definition is_undefined {A : Type} (o : option A) : bool :=
  match o with
  | None => true
  | Some _ => false
  end.

(** this._onDeviceListChanged, the DEVICE_LIST_CHANGED listener set up by the
    constructor. *)
Definition _onDeviceListChanged (devices : list MediaDeviceInfo) : Action unit :=
  _setRealDeviceIdFromDeviceList devices ;;
  self <- get ;;
  match getTrack self with
  | None => throw TypeError
  | Some track =>
      when (is_undefined (readyState track)
            && negb (is_undefined (_realDeviceId self))
            && is_undefined
                 (find (fun d => strict_eq String.eqb (_realDeviceId self)
                                   (device_deviceId d))
                       devices))
           (modify (set_trackEnded true))
  end.

(** The inactiveHandler the constructor passes to JitsiTrack. *)
Definition inactiveHandler : Action unit :=
  this <- get ;;
  when (negb (dontFireRemoveEvent this))
       (perform (eventEmitter_emit LOCAL_TRACK_STOPPED)) ;;
  modify (set_dontFireRemoveEvent false).

(** The constructor: the fresh object and the listeners it registers.
    Modelled from the spec: JitsiTrack.js is not part of the sources; the
    inactive handler handed to JitsiTrack is registered on the stream the
    track is constructed with, if there is one, and on no other stream. *)
Definition new_JitsiLocalTrack (window : Platform)
    (stream : option MediaStream) (track : option MediaStreamTrack)
    (mediaType : MediaType) (videoType : option VideoType) (resolution : nat)
    (deviceId : string) (facingMode : Nullable CameraFacingMode)
  : JitsiLocalTrack * list Effect :=
  let audioOutput :=
    MediaType_eqb mediaType AUDIO && isDeviceChangeAvailable_output window in
  ({| stream := stream; track := track; type := mediaType;
      videoType := videoType; containers := []; conference := None;
      dontFireRemoveEvent := false;
      resolution := resolution;
      deviceId := deviceId;
      startMuted := false;
      inMuteOrUnmuteProgress := false;
      _facingMode := facingMode;
      _trackEnded := false;
      _realDeviceId := if String.eqb deviceId "" then None else Some deviceId;
      _onAudioOutputDeviceChanged := audioOutput;
      inactive_handler_on := option_map id stream |},
   (if audioOutput then [RTCUtils_addListener AUDIO_OUTPUT_DEVICE_CHANGED]
    else [])
   ++ [RTCUtils_addListener DEVICE_LIST_CHANGED]).

(** ** Promises *)

(** What a promise of this file resolves with: nothing of interest, or the
    array of obtainAudioAndVideoPermissions. *)
Inductive Value : Type :=
| undefined
| streamsInfo (l : list StreamInfo).

(** The collaborator request a pending promise waits for. *)
Inductive Request : Type :=
| removeStream
| addStream
| setMute
| obtainAudioAndVideoPermissions
| removeTrack.

Inductive Settlement : Type :=
| Resolved (v : Value)
| Rejected (e : Fault)
| Pending (r : Request).

(** The anonymous functions handed to [then], by the line they start on. *)
Inductive OnFulfilled : Type :=
| then_clearProgress          (* createMuteUnmutePromise, .then *)
| then_stopStream             (* _setMute, after _removeStreamFromConferenceAsMute *)
| then_useObtainedStream      (* _setMute, after obtainAudioAndVideoPermissions *)
| then_sendMuteStatus (mute : bool)
| then_emitMuteChanged
| then_superDispose.          (* dispose *)

(** The function handed to [catch] in createMuteUnmutePromise. *)
Inductive OnRejected : Type :=
| catch_clearProgress.

Inductive Reaction : Type :=
| Then (h : OnFulfilled)
| Catch (h : OnRejected).

(** A promise together with the reactions chained onto it: the promise the
    caller finally holds is the one derived by the last reaction. *)
Record Promise : Type := {
  state : Settlement;
  reactions : list Reaction
}.

Definition Promise_resolve (v : Value) : Promise :=
  {| state := Resolved v; reactions := [] |}.

Definition Promise_reject (e : Fault) : Promise :=
  {| state := Rejected e; reactions := [] |}.

Definition new_Promise (r : Request) : Promise :=
  {| state := Pending r; reactions := [] |}.

Definition then_ (p : Promise) (h : OnFulfilled) : Promise :=
  {| state := state p; reactions := reactions p ++ [Then h] |}.

Definition catch_ (p : Promise) (h : OnRejected) : Promise :=
  {| state := state p; reactions := reactions p ++ [Catch h] |}.

(** ** Mute and unmute *)

(** [this.conference && this.conference.room] *)
Definition has_room (this : JitsiLocalTrack) : bool :=
  match conference this with
  | Some c => negb (is_undefined (room c))
  | None => false
  end.

Definition option_eqb {A : Type} (eqb : A -> A -> bool) (a b : option A) : bool :=
  match a, b with
  | Some x, Some y => eqb x y
  | None, None => true
  | _, _ => false
  end.

(** JitsiLocalTrack.prototype._addStreamToConferenceAsUnmute *)
Definition _addStreamToConferenceAsUnmute : Action Promise :=
  this <- get ;;
  if negb (has_room this) then ret (Promise_resolve undefined)
  else
    perform (room_addStream (stream this) (type this)) ;;
    ret (new_Promise addStream).

(** JitsiLocalTrack.prototype._removeStreamFromConferenceAsMute *)
Definition _removeStreamFromConferenceAsMute : Action Promise :=
  this <- get ;;
  if negb (has_room this) then ret (Promise_resolve undefined)
  else
    perform (room_removeStream (stream this) (type this)) ;;
    ret (new_Promise removeStream).

(** JitsiLocalTrack.prototype._sendMuteStatus *)
Definition _sendMuteStatus (mute : bool) : Action Promise :=
  this <- get ;;
  if negb (has_room this) then ret (Promise_resolve undefined)
  else
    perform (if isAudioTrack this then room_setAudioMute mute
             else room_setVideoMute mute) ;;
    ret (new_Promise setMute).

(** The test that selects local disablement in _setMute. *)
Definition cannot_remove_stream (window : Platform) (this : JitsiLocalTrack)
  : bool :=
  negb (String.eqb (protocol window) "https:")
  || isAudioTrack this
  || strict_eq VideoType_eqb (videoType this) DESKTOP
  || isFirefox window.

(** JitsiLocalTrack.prototype._setMute: the statements that run during the
    call; the functions chained with [then] are the reactions below. *)
Definition _setMute (window : Platform) (mute : bool) : Action Promise :=
  this <- get ;;
  if Bool.eqb (isMuted this) mute then ret (Promise_resolve undefined)
  else
    when (negb (has_room this)) (modify (set_startMuted mute)) ;;
    modify (set_dontFireRemoveEvent false) ;;
    promise <-
      (if cannot_remove_stream window this then
         match track this with
         | Some tr => modify (set_track (Some (set_enabled (negb mute) tr)))
         | None => ret tt
         end ;;
         ret (Promise_resolve undefined)
       else if mute then
         modify (set_dontFireRemoveEvent true) ;;
         p <- _removeStreamFromConferenceAsMute ;;
         ret (then_ p then_stopStream)
       else
         let streamOptions :=
           {| cameraDeviceId := getDeviceId this;
              devices := [VIDEO];
              facingMode := getCameraFacingMode this;
              options_resolution := resolution this |} in
         perform (RTCUtils_obtainAudioAndVideoPermissions streamOptions) ;;
         ret (then_ (new_Promise obtainAudioAndVideoPermissions)
                    then_useObtainedStream)) ;;
    ret (then_ (then_ promise (then_sendMuteStatus mute)) then_emitMuteChanged).

(** createMuteUnmutePromise *)
Definition createMuteUnmutePromise (window : Platform) (mute : bool)
  : Action Promise :=
  track <- get ;;
  if inMuteOrUnmuteProgress track then
    ret (Promise_reject (JitsiTrackError TRACK_MUTE_UNMUTE_IN_PROGRESS))
  else
    modify (set_inMuteOrUnmuteProgress true) ;;
    p <- _setMute window mute ;;
    ret (catch_ (then_ p then_clearProgress) catch_clearProgress).

(** JitsiLocalTrack.prototype.mute *)
Definition mute (window : Platform) : Action Promise :=
  createMuteUnmutePromise window true.

(** JitsiLocalTrack.prototype.unmute *)
Definition unmute (window : Platform) : Action Promise :=
  createMuteUnmutePromise window false.

(** Modelled from the spec: RTCUtils.attachMediaStream is not part of the
    sources; it returns the updated container reference, here the container
    it was given. *)
Definition attachMediaStream (cont : Container) (s : option MediaStream)
  : Action Container :=
  perform (RTCUtils_attachMediaStream cont s) ;; ret cont.

Fixpoint mapM {A B : Type} (f : A -> Action B) (l : list A) : Action (list B) :=
  match l with
  | [] => ret []
  | a :: l' => b <- f a ;; bs <- mapM f l' ;; ret (b :: bs)
  end.

(** The bodies of the functions handed to [then]. *)
Definition onFulfilled (h : OnFulfilled) (v : Value) : Action Promise :=
  match h with
  | then_clearProgress =>
      modify (set_inMuteOrUnmuteProgress false) ;;
      ret (Promise_resolve undefined)
  | then_stopStream =>
      self <- get ;;
      perform (RTCUtils_stopMediaStream (stream self)) ;;
      modify (set_stream None) ;;
      ret (Promise_resolve undefined)
  | then_useObtainedStream =>
      match v with
      | undefined => throw TypeError
      | streamsInfo l =>
          self <- get ;;
          let mediaType := getType self in
          match find (fun info => MediaType_eqb (info_mediaType info) mediaType)
                     l with
          | None => throw (JitsiTrackError TRACK_NO_STREAM_FOUND)
          | Some streamInfo =>
              modify (set_stream (Some (info_stream streamInfo))) ;;
              modify (set_track (Some (info_track streamInfo))) ;;
              when (negb (option_eqb VideoType_eqb (videoType self)
                            (info_videoType streamInfo)))
                   (perform logger_warn ;;
                    modify (set_videoType (info_videoType streamInfo)))
          end ;;
          self <- get ;;
          conts <- mapM (fun cont => attachMediaStream cont (stream self))
                        (containers self) ;;
          modify (set_containers conts) ;;
          _addStreamToConferenceAsUnmute
      end
  | then_sendMuteStatus mute => _sendMuteStatus mute
  | then_emitMuteChanged =>
      perform (eventEmitter_emit TRACK_MUTE_CHANGED) ;;
      ret (Promise_resolve undefined)
  | then_superDispose =>
      perform JitsiTrack_dispose ;;
      ret (Promise_resolve undefined)
  end.

(** The body of the function handed to [catch]. *)
Definition onRejected (h : OnRejected) (status : Fault) : Action Promise :=
  match h with
  | catch_clearProgress =>
      modify (set_inMuteOrUnmuteProgress false) ;;
      throw status
  end.

(** ** Disposal *)

(** Modelled from the spec: JitsiTrack#detach is not part of the sources;
    called without a container it detaches the track from all display
    surfaces. *)
Definition detach : Action unit :=
  perform JitsiTrack_detach ;;
  modify (set_containers []).

(** JitsiLocalTrack.prototype.dispose *)
Definition dispose : Action Promise :=
  this <- get ;;
  promise <-
    match conference this with
    | Some _ => perform conference_removeTrack ;; ret (new_Promise removeTrack)
    | None => ret (Promise_resolve undefined)
    end ;;
  match stream this with
  | Some _ =>
      perform (RTCUtils_stopMediaStream (stream this)) ;;
      detach
  | None => ret tt
  end ;;
  perform (RTCUtils_removeListener DEVICE_LIST_CHANGED) ;;
  when (_onAudioOutputDeviceChanged this)
       (perform (RTCUtils_removeListener AUDIO_OUTPUT_DEVICE_CHANGED)) ;;
  ret (then_ promise then_superDispose).

(** JitsiLocalTrack.prototype._setConference *)
Definition _setConference (conference : option JitsiConference) : Action unit :=
  modify (set_conference conference) ;;
  this <- get ;;
  forEach (fun c => perform (JitsiTrack_maybeFireTrackAttached c))
          (containers this).

(** ** The scheduler

    A promise chain makes progress in jobs: the first reaction of a settled
    promise runs and its completion settles the derived promise.  Rejections
    pass by [then] reactions and fulfilments pass by [catch] reactions without
    running any code of this file, so the chain is kept with those reactions
    already passed. *)

Fixpoint pass_by (st : Settlement) (rs : list Reaction) : list Reaction :=
  match rs with
  | Then _ :: rs' =>
      match st with
      | Rejected _ => pass_by st rs'
      | _ => rs
      end
  | Catch _ :: rs' =>
      match st with
      | Resolved _ => pass_by st rs'
      | _ => rs
      end
  | [] => []
  end.

(** The derived promise follows [q]; [rest] are the reactions chained on it. *)
Definition adopt (q : Promise) (rest : list Reaction) : Promise :=
  {| state := state q; reactions := pass_by (state q) (reactions q ++ rest) |}.

(** A function that throws rejects the derived promise. *)
Definition settle (c : Completion Promise) : Promise :=
  match c with
  | Normal q => q
  | Throw e => Promise_reject e
  end.

Definition Reactor : Type :=
  Promise -> JitsiLocalTrack -> Promise * JitsiLocalTrack * list Effect.

(** One promise job. *)
Definition job : Reactor :=
  fun p this =>
    match state p, reactions p with
    | Resolved v, Then h :: rest =>
        match onFulfilled h v this with
        | (c, this', out) => (adopt (settle c) rest, this', out)
        end
    | Rejected e, Catch h :: rest =>
        match onRejected h e this with
        | (c, this', out) => (adopt (settle c) rest, this', out)
        end
    | _, _ => (p, this, [])
    end.

(** A collaborator answers the request a pending promise waits for; a promise
    that is not pending ignores it. *)
Definition answer (s : Settlement) : Reactor :=
  fun p this =>
    match state p with
    | Pending _ => (adopt {| state := s; reactions := reactions p |} [], this, [])
    | _ => (p, this, [])
    end.

Definition is_done (p : Promise) : bool :=
  match reactions p, state p with
  | [], Resolved _ | [], Rejected _ => true
  | _, _ => false
  end.

Inductive Call : Type := Mute | Unmute | Dispose.

Definition invoke (window : Platform) (c : Call) : Action Promise :=
  match c with
  | Mute => mute window
  | Unmute => unmute window
  | Dispose => dispose
  end.

(** A call whose promise has not reached its caller yet. *)
Record Task : Type := {
  task : nat;
  call_of : Call;
  promise : Promise
}.

Record World : Type := {
  localTrack : JitsiLocalTrack;
  pending : list Task;
  outcomes : list (nat * Settlement);
  log : list Effect;
  calls : nat
}.

(** The first pending task numbered [n] reacts; a finished chain leaves the
    list and hands its settlement to the caller. *)
Fixpoint advance (n : nat) (f : Reactor) (ts : list Task) (this : JitsiLocalTrack)
  : list Task * JitsiLocalTrack * list Effect * list (nat * Settlement) :=
  match ts with
  | [] => ([], this, [], [])
  | t :: ts' =>
      if Nat.eqb (task t) n then
        match f (promise t) this with
        | (p', this', out) =>
            if is_done p' then (ts', this', out, [(n, state p')])
            else ({| task := n; call_of := call_of t; promise := p' |} :: ts',
                  this', out, [])
        end
      else
        match advance n f ts' this with
        | (ts'', this', out, done) => (t :: ts'', this', out, done)
        end
  end.

Definition deliver (n : nat) (f : Reactor) (w : World) : World :=
  match advance n f (pending w) (localTrack w) with
  | (ts, this, out, done) =>
      {| localTrack := this; pending := ts; outcomes := outcomes w ++ done;
         log := log w ++ out; calls := calls w |}
  end.

(** A listener or setter runs; what it throws goes to its dispatcher. *)
Definition notify (a : Action unit) (w : World) : World :=
  match a (localTrack w) with
  | (_, this, out) =>
      {| localTrack := this; pending := pending w; outcomes := outcomes w;
         log := log w ++ out; calls := calls w |}
  end.

(** An API call: the statements of the method run, the promise it returns
    becomes a pending task, or an outcome if it is settled already. *)
Definition enter (window : Platform) (c : Call) (w : World) : World :=
  match invoke window c (localTrack w) with
  | (r, this, out) =>
      let p := adopt (settle r) [] in
      let n := calls w in
      {| localTrack := this;
         pending := if is_done p then pending w
                    else pending w ++ [{| task := n; call_of := c; promise := p |}];
         outcomes := if is_done p then outcomes w ++ [(n, state p)]
                     else outcomes w;
         log := log w ++ out;
         calls := S n |}
  end.

(** The native stream with identity [sid] went inactive.  The browser flags
    the stream object, which the track sees if that is the stream it holds,
    and the inactive handler runs if it is registered on that stream: a
    stream the track has dropped still carries its handler, a stream taken
    over by unmute() carries none. *)
Definition stream_inactive (sid : nat) : Action unit :=
  this <- get ;;
  modify (set_stream
            (option_map
               (fun s => if Nat.eqb (id s) sid then set_active false s else s)
               (stream this))) ;;
  when (strict_eq Nat.eqb (inactive_handler_on this) sid) inactiveHandler.

(** The native track ended, on a browser that has readyState. *)
Definition track_ended : Action unit :=
  this <- get ;;
  modify (set_track
            (option_map
               (fun tr => match readyState tr with
                          | Some _ => set_readyState (Some ended) tr
                          | None => tr
                          end)
               (track this))).

Inductive Event : Type :=
| Invoke (c : Call)
| Job (n : nat)
| Resolve (n : nat) (v : Value)
| Reject (n : nat) (e : Fault)
| DeviceListChanged (devices : list MediaDeviceInfo)
| SetConference (c : option JitsiConference)
| StreamInactive (sid : nat)
| TrackEnded.

Definition step (window : Platform) (ev : Event) (w : World) : World :=
  match ev with
  | Invoke c => enter window c w
  | Job n => deliver n job w
  | Resolve n v => deliver n (answer (Resolved v)) w
  | Reject n e => deliver n (answer (Rejected e)) w
  | DeviceListChanged devices => notify (_onDeviceListChanged devices) w
  | SetConference c => notify (_setConference c) w
  | StreamInactive sid => notify (stream_inactive sid) w
  | TrackEnded => notify track_ended w
  end.

Definition run (window : Platform) (evs : list Event) (w : World) : World :=
  fold_left (fun w ev => step window ev w) evs w.

(** The world right after the constructor. *)
Definition start (window : Platform)
    (stream : option MediaStream) (track : option MediaStreamTrack)
    (mediaType : MediaType) (videoType : option VideoType) (resolution : nat)
    (deviceId : string) (facingMode : Nullable CameraFacingMode) : World :=
  match new_JitsiLocalTrack window stream track mediaType videoType resolution
          deviceId facingMode with
  | (this, out) =>
      {| localTrack := this; pending := []; outcomes := []; log := out;
         calls := 0 |}
  end.

(** The effects made since the log had [n] entries. *)
Definition since (n : nat) (w : World) : list Effect := skipn n (log w).

(** ** Vocabulary of the properties *)

(** mute() and unmute() start a mute/unmute transition; dispose() does not. *)
Definition is_transition (c : Call) : bool :=
  match c with
  | Mute | Unmute => true
  | Dispose => false
  end.

(** The mute/unmute transitions in flight. *)
Definition transitions (w : World) : list Task :=
  filter (fun t => is_transition (call_of t)) (pending w).

(** The mute state a call asks for. *)
Definition target (c : Call) : bool :=
  match c with
  | Mute => true
  | _ => false
  end.

(** A chain of [then] reactions that ends with the two reactions of
    createMuteUnmutePromise and clears the guard nowhere else. *)
Fixpoint guarded (rs : list Reaction) : bool :=
  match rs with
  | Then then_clearProgress :: rs' =>
      match rs' with
      | [Catch catch_clearProgress] => true
      | _ => false
      end
  | Then _ :: rs' => guarded rs'
  | _ => false
  end.

(** The promise of a transition still has the reaction that gives the guard
    back: on the fulfilled path the whole tail, on the rejected path the
    [catch]. *)
Definition releases (p : Promise) : bool :=
  match state p with
  | Rejected _ =>
      match reactions p with
      | [Catch catch_clearProgress] => true
      | _ => false
      end
  | _ => guarded (reactions p)
  end.

Definition well_chained (c : Call) (p : Promise) : bool :=
  match c with
  | Dispose =>
      match reactions p with
      | [Then then_superDispose] => true
      | _ => false
      end
  | _ => releases p
  end.

(** The scheduler invariant: pending chains have the shape their method gave
    them, tasks are numbered apart, and the guard is held exactly by the one
    transition in flight. *)
Record Inv (w : World) : Prop := {
  inv_chains :
    Forall (fun t => well_chained (call_of t) (promise t) = true) (pending w);
  inv_numbers : Forall (fun t => task t < calls w) (pending w);
  inv_distinct : NoDup (map task (pending w));
  inv_guard :
    length (transitions w)
    = if inMuteOrUnmuteProgress (localTrack w) then 1 else 0
}.

(** Effects of the teardown/re-acquisition path. *)
Definition tears_down (e : Effect) : bool :=
  match e with
  | room_removeStream _ _ | room_addStream _ _
  | RTCUtils_stopMediaStream _
  | RTCUtils_obtainAudioAndVideoPermissions _
  | RTCUtils_attachMediaStream _ _ => true
  | _ => false
  end.

(** The mute notification to the room and the mute-changed event. *)
Definition about_mute (e : Effect) : bool :=
  match e with
  | room_setAudioMute _ | room_setVideoMute _
  | eventEmitter_emit TRACK_MUTE_CHANGED => true
  | _ => false
  end.

(** The notification _sendMuteStatus makes for a track with or without a
    room. *)
Definition mute_status_sent (this : JitsiLocalTrack) (mute : bool)
  : list Effect :=
  if has_room this then
    [if isAudioTrack this then room_setAudioMute mute
     else room_setVideoMute mute]
  else [].

(** Reactions that belong to the teardown/re-acquisition path. *)
Definition is_teardown_reaction (r : Reaction) : bool :=
  match r with
  | Then then_stopStream | Then then_useObtainedStream => true
  | _ => false
  end.

Definition is_dispose (ev : Event) : bool :=
  match ev with
  | Invoke Dispose => true
  | _ => false
  end.

(** ** Sample tracks *)

Definition chrome_https : Platform :=
  {| protocol := "https:"; isFirefox := false;
     isDeviceChangeAvailable_output := true |}.

Definition camera_track : MediaStreamTrack :=
  {| kind := "video"; label := "HD Webcam"; enabled := true;
     readyState := Some live; getSettings := None |}.

Definition microphone_track : MediaStreamTrack :=
  {| kind := "audio"; label := "Built-in Microphone"; enabled := true;
     readyState := Some live; getSettings := None |}.

Definition camera_stream : MediaStream := {| id := 1; active := true |}.

Definition microphone_stream : MediaStream := {| id := 7; active := true |}.

Definition fresh_camera_stream : MediaStream := {| id := 2; active := true |}.

(** A camera track right after construction. *)
Definition camera_world : World :=
  start chrome_https (Some camera_stream) (Some camera_track) VIDEO
        (Some CAMERA) 720 "" js_undefined.

(** A microphone track right after construction. *)
Definition microphone_world : World :=
  start chrome_https (Some microphone_stream) (Some microphone_track) AUDIO
        None 0 "" js_undefined.

Definition a_conference : JitsiConference := {| room := Some 5 |}.

Definition a_device_list : list MediaDeviceInfo :=
  [ {| device_deviceId := "mic-1"; device_kind := "audioinput";
       device_label := "Built-in Microphone" |};
    {| device_deviceId := "cam-1"; device_kind := "videoinput";
       device_label := "HD Webcam" |} ].

Definition camera_info : StreamInfo :=
  {| info_mediaType := VIDEO; info_stream := fresh_camera_stream;
     info_track := camera_track; info_videoType := Some CAMERA |}.

Definition microphone_info : StreamInfo :=
  {| info_mediaType := AUDIO; info_stream := microphone_stream;
     info_track := microphone_track; info_videoType := None |}.

(** The listener or setter an environment event runs. *)
Definition listener (ev : Event) : option (Action unit) :=
  match ev with
  | DeviceListChanged devices => Some (_onDeviceListChanged devices)
  | SetConference c => Some (_setConference c)
  | StreamInactive sid => Some (stream_inactive sid)
  | TrackEnded => Some track_ended
  | _ => None
  end.

(** A property of the track object together with a property of every
    pending chain. *)
Definition holds (P : JitsiLocalTrack -> Prop) (T : Call -> Promise -> Prop)
    (w : World) : Prop :=
  P (localTrack w)
  /\ Forall (fun t => T (call_of t) (promise t)) (pending w).

(** The log grew by effects that all satisfy [E]. *)
Definition extends_by (E : Effect -> Prop) (w w' : World) : Prop :=
  exists out, log w' = log w ++ out /\ Forall E out.

(** The camera track after a complete mute() under the teardown policy (the
    call and its four promise jobs): the stream is gone and the guard is
    free. *)
Definition muted_camera_world : World :=
  Eval vm_compute in
    run chrome_https [Invoke Mute; Job 0; Job 0; Job 0; Job 0] camera_world.

(** The camera track in a conference with a room. *)
Definition camera_in_conference : World :=
  Eval vm_compute in
    run chrome_https [SetConference (Some a_conference)] camera_world.

(** The camera track after its stream went inactive. *)
Definition inactive_camera_world : World :=
  Eval vm_compute in run chrome_https [StreamInactive 1] camera_world.

(** A camera track on a browser without readyState, after the device list
    first named its camera and then lost it: [_trackEnded] is set. *)
Definition unplugged_camera_world : World :=
  Eval vm_compute in
    run chrome_https [DeviceListChanged a_device_list; DeviceListChanged []]
        (start chrome_https (Some camera_stream)
               (Some (set_readyState None camera_track)) VIDEO (Some CAMERA)
               720 "" js_undefined).



Definition is_setConference (ev : Event) : bool :=
  match ev with
  | SetConference _ => true
  | _ => false
  end.




(** ** Vocabulary of the further properties *)

(** Calls into the conference room. *)
Definition is_room_effect (e : Effect) : bool :=
  match e with
  | room_removeStream _ _ | room_addStream _ _
  | room_setAudioMute _ | room_setVideoMute _ => true
  | _ => false
  end.

(** The answer of the room, where there is a room to answer. *)
Definition room_answers (this : JitsiLocalTrack) (n : nat) : list Event :=
  if has_room this then [Resolve n undefined] else [].

(** The events of a mute() or a local unmute() that goes well: the room
    answers each request and every promise job runs. *)
Definition teardown_mute_run (this : JitsiLocalTrack) (n : nat) : list Event :=
  Invoke Mute
  :: room_answers this n ++ [Job n; Job n]
     ++ room_answers this n ++ [Job n; Job n].

Definition local_run (c : Call) (this : JitsiLocalTrack) (n : nat)
  : list Event :=
  Invoke c :: Job n :: room_answers this n ++ [Job n; Job n].

(** The events of an unmute() by re-acquisition that goes well, answered
    with the streams [l]. *)
Definition reacquire_run (this : JitsiLocalTrack) (n : nat)
    (l : list StreamInfo) : list Event :=
  Invoke Unmute :: Resolve n (streamsInfo l) :: Job n
  :: room_answers this n ++ [Job n]
     ++ room_answers this n ++ [Job n; Job n].

(** A microphone track on a browser without readyState. *)
Definition legacy_microphone_world : World :=
  start chrome_https (Some microphone_stream)
        (Some (set_readyState None microphone_track)) AUDIO None 0 "mic-1" js_undefined.

(** The RTCUtils listeners a log registers and unregisters, in order. *)
Fixpoint listeners_added (l : list Effect) : list RTCEvents :=
  match l with
  | [] => []
  | RTCUtils_addListener e :: l' => e :: listeners_added l'
  | _ :: l' => listeners_added l'
  end.

Fixpoint listeners_removed (l : list Effect) : list RTCEvents :=
  match l with
  | [] => []
  | RTCUtils_removeListener e :: l' => e :: listeners_removed l'
  | _ :: l' => listeners_removed l'
  end.

(** A camera track attached to two containers, in a conference with a room,
    after a complete mute(). *)
Definition attached_camera_world : World :=
  {| localTrack := set_containers [11; 12] (localTrack camera_in_conference);
     pending := []; outcomes := []; log := []; calls := 0 |}.

Definition muted_attached_camera_world : World :=
  Eval vm_compute in
    run chrome_https
        (teardown_mute_run (localTrack attached_camera_world) 0)
        attached_camera_world.

(** What the capture provider may answer an unmute() with: a microphone
    entry and a screen-share entry. *)
Definition desktop_info : StreamInfo :=
  {| info_mediaType := VIDEO; info_stream := fresh_camera_stream;
     info_track := camera_track; info_videoType := Some DESKTOP |}.

(** Effects that register or unregister a listener with RTCUtils. *)
Definition is_listener_effect (e : Effect) : bool :=
  match e with
  | RTCUtils_addListener _ | RTCUtils_removeListener _ => true
  | _ => false
  end.

(** The dispose() calls of a history. *)
Definition disposals (evs : list Event) : nat :=
  length (filter is_dispose evs).


(** The mute() and unmute() calls among the events. *)
Definition is_mute_call (ev : Event) : bool :=
  match ev with
  | Invoke c => is_transition c
  | _ => false
  end.

(** ** Driving one call to its answer *)

(** What the collaborators answer a request with. *)
Definition Oracle : Type := Request -> (Value + Fault)%type.

Definition reply (n : nat) (a : Value + Fault) : Event :=
  match a with
  | inl v => Resolve n v
  | inr e => Reject n e
  end.

Definition lookup_task (n : nat) (ts : list Task) : option Task :=
  find (fun t => Nat.eqb (task t) n) ts.

(** The event call [n] waits for: the answer to its request, or its next
    promise job. *)
Definition awaited (oracle : Oracle) (n : nat) (w : World) : option Event :=
  match lookup_task n (pending w) with
  | None => None
  | Some t =>
      Some (match state (promise t) with
            | Pending r => reply n (oracle r)
            | _ => Job n
            end)
  end.

(** Call [n] is given what it waits for, at most [fuel] times. *)
Fixpoint drive (window : Platform) (fuel : nat) (oracle : Oracle) (n : nat)
    (w : World) : World :=
  match fuel with
  | 0 => w
  | S k =>
      match awaited oracle n w with
      | None => w
      | Some ev => drive window k oracle n (step window ev w)
      end
  end.

Definition is_settled (s : Settlement) : bool :=
  match s with
  | Pending _ => false
  | _ => true
  end.

(** A bound on the answers and jobs a chain still needs. *)
Definition remaining (p : Promise) : nat :=
  2 * length (reactions p) + (if is_settled (state p) then 0 else 1).

Definition work_left (n : nat) (w : World) : nat :=
  match lookup_task n (pending w) with
  | Some t => S (remaining (promise t))
  | None => 0
  end.

(** A chain from which the reactions its settlement passes by are gone. *)
Definition normal (p : Promise) : Prop :=
  pass_by (state p) (reactions p) = reactions p.

(** The chains of a reachable world are normal. *)
Definition ready (w : World) : Prop :=
  Inv w /\ Forall (fun t => normal (promise t)) (pending w).

(** A camera track whose native settings have a facingMode key with nothing
    stored under it, constructed with a null facing mode. *)
Definition unsettled_camera : JitsiLocalTrack :=
  fst (new_JitsiLocalTrack chrome_https (Some camera_stream)
         (Some {| kind := "video"; label := "HD Webcam"; enabled := true;
                  readyState := Some live;
                  getSettings := Some (Some js_undefined) |})
         VIDEO (Some CAMERA) 720 "" js_null).

(** The camera track after a complete mute() and a complete unmute() under
    the teardown policy: it holds the re-acquired stream. *)
Definition reacquired_camera_world : World :=
  Eval vm_compute in
    run chrome_https
        (reacquire_run (localTrack muted_camera_world) 1 [camera_info])
        muted_camera_world.

(** * Properties *)

(** The sample worlds are what their runs compute. *)
Lemma sample_worlds_reached :
  muted_camera_world
  = run chrome_https [Invoke Mute; Job 0; Job 0; Job 0; Job 0] camera_world
  /\ camera_in_conference
     = run chrome_https [SetConference (Some a_conference)] camera_world
  /\ inactive_camera_world = run chrome_https [StreamInactive 1] camera_world
  /\ unplugged_camera_world
     = run chrome_https [DeviceListChanged a_device_list; DeviceListChanged []]
           (start chrome_https (Some camera_stream)
                  (Some (set_readyState None camera_track)) VIDEO
                  (Some CAMERA) 720 "" js_undefined).
Proof.
  vm_compute. repeat split; reflexivity.
Qed.

(** ** The derived mute state *)

(** C7: whenever the native stream is null, isMuted() returns true, whatever
    the native track and its enabled flag are. *)
Theorem C7_isMuted_without_stream :
  forall this : JitsiLocalTrack, stream this = None -> isMuted this = true.
Proof.
  intros this H. unfold isMuted. rewrite H. reflexivity.
Qed.

Lemma C7_isMuted_without_stream_witness :
  enabled camera_track = true /\
  isMuted (set_stream None (localTrack camera_world)) = true.
Proof.
  split; [reflexivity|].
  apply (C7_isMuted_without_stream (set_stream None (localTrack camera_world))).
  reflexivity.
Defined.

(** C10: a video track whose native stream exists but is not active is muted,
    also when its native track exists and is enabled; the enabled flag
    decides only for an audio track or an active stream. *)
Theorem C10_isMuted_inactive_video :
  forall (this : JitsiLocalTrack) (s : MediaStream),
    stream this = Some s ->
    (isVideoTrack this = true -> isActive s = false ->
     isMuted this = true /\
     forall tr : option MediaStreamTrack, isMuted (set_track tr this) = true)
    /\
    (isAudioTrack this = true \/ isActive s = true ->
     isMuted this = match track this with
                    | Some tr => negb (enabled tr)
                    | None => true
                    end).
Proof.
  intros this s Hs. split.
  - intros Hv Ha. split.
    + unfold isMuted. rewrite Hs, Hv, Ha. reflexivity.
    + intros tr. unfold isMuted. simpl. rewrite Hs.
      change (isVideoTrack (set_track tr this)) with (isVideoTrack this).
      rewrite Hv, Ha. reflexivity.
  - intros H. unfold isMuted. rewrite Hs.
    assert (E : isVideoTrack this && negb (isActive s) = false).
    { destruct H as [H|H].
      - unfold isAudioTrack, isVideoTrack in *.
        destruct (getType this); [reflexivity|discriminate].
      - rewrite H. apply andb_false_r. }
    rewrite E. reflexivity.
Qed.

Lemma C10_isMuted_inactive_video_witness :
  let this :=
    set_stream (Some (set_active false camera_stream)) (localTrack camera_world) in
  option_map enabled (track this) = Some true /\ isMuted this = true.
Proof.
  split; [reflexivity|].
  apply (C10_isMuted_inactive_video
           (set_stream (Some (set_active false camera_stream))
                       (localTrack camera_world))
           (set_active false camera_stream));
    reflexivity.
Defined.

(** ** Device identity *)

Lemma find_none_of_all {A : Type} (f : A -> bool) (l : list A) :
  (forall a, In a l -> f a = false) -> find f l = None.
Proof.
  induction l as [|a l IH]; simpl; intros H; [reflexivity|].
  rewrite (H a (or_introl eq_refl)). apply IH.
  intros b Hb. apply H. right. exact Hb.
Qed.

(** What the DEVICE_LIST_CHANGED listener leaves in [_realDeviceId]. *)
Lemma _onDeviceListChanged_realDeviceId :
  forall devices this,
    _realDeviceId (snd (fst (_onDeviceListChanged devices this)))
    = match getTrack this with
      | Some tr =>
          match find (is_input_of tr) devices with
          | Some d => Some (device_deviceId d)
          | None => _realDeviceId this
          end
      | None => _realDeviceId this
      end.
Proof.
  intros devices this.
  unfold _onDeviceListChanged, _setRealDeviceIdFromDeviceList, bind, get, when.
  unfold getTrack.
  destruct (track this) as [tr|] eqn:Ht; simpl;
    [|destruct devices; simpl; rewrite ?Ht; reflexivity].
  destruct (find (is_input_of tr) devices) as [d|]; simpl.
  - rewrite Ht.
    match goal with |- context [if ?c then _ else _] => destruct c end;
      reflexivity.
  - rewrite Ht.
    match goal with |- context [if ?c then _ else _] => destruct c end;
      reflexivity.
Qed.

(** C8: on a device-list-changed notification, a list with no entry whose
    kind is the native track's kind (as an input) and whose label equals the
    native track's label leaves the resolved device id as it was, in
    particular a concrete id already held; otherwise the device id of the
    (first) matching entry is adopted. *)
Theorem C8_device_resolution :
  forall (window : Platform) (w : World) (devices : list MediaDeviceInfo),
    let this := localTrack w in
    let this' := localTrack (step window (DeviceListChanged devices) w) in
    ((forall tr d, track this = Some tr -> In d devices ->
                   is_input_of tr d = false) ->
     _realDeviceId this' = _realDeviceId this)
    /\
    (forall tr d, track this = Some tr ->
                  find (is_input_of tr) devices = Some d ->
                  In d devices /\ is_input_of tr d = true /\
                  _realDeviceId this' = Some (device_deviceId d)).
Proof.
  intros window w devices this this'.
  assert (E : _realDeviceId this'
              = _realDeviceId
                  (snd (fst (_onDeviceListChanged devices (localTrack w))))).
  { unfold this'. simpl. unfold notify.
    destruct (_onDeviceListChanged devices (localTrack w)) as [[c t] out].
    reflexivity. }
  rewrite E, _onDeviceListChanged_realDeviceId. fold this. unfold getTrack.
  split.
  - intros Hno. destruct (track this) as [tr|] eqn:Ht; [|reflexivity].
    rewrite (find_none_of_all (is_input_of tr) devices); [reflexivity|].
    intros d Hd. apply (Hno tr d eq_refl Hd).
  - intros tr d Ht Hf. rewrite Ht, Hf.
    destruct (find_some _ _ Hf) as [Hin Hm]. auto.
Qed.

Lemma C8_device_resolution_witness :
  let w := run chrome_https [DeviceListChanged a_device_list] camera_world in
  _realDeviceId (localTrack w) = Some "cam-1" /\
  _realDeviceId
    (localTrack
       (step chrome_https
             (DeviceListChanged
                [ {| device_deviceId := "cam-2"; device_kind := "videoinput";
                     device_label := "USB Camera" |} ]) w))
  = Some "cam-1" /\
  _realDeviceId
    (localTrack
       (step chrome_https
             (DeviceListChanged
                [ {| device_deviceId := "cam-9"; device_kind := "videoinput";
                     device_label := "HD Webcam" |} ]) w))
  = Some "cam-9".
Proof.
  split; [reflexivity|]. split.
  - apply (proj1 (C8_device_resolution chrome_https
                    (run chrome_https [DeviceListChanged a_device_list]
                         camera_world)
                    [ {| device_deviceId := "cam-2";
                         device_kind := "videoinput";
                         device_label := "USB Camera" |} ])).
    intros tr d Ht [Hd|[]]. subst d.
    injection Ht as Ht. subst tr. reflexivity.
  - apply (proj2 (C8_device_resolution chrome_https
                    (run chrome_https [DeviceListChanged a_device_list]
                         camera_world)
                    [ {| device_deviceId := "cam-9";
                         device_kind := "videoinput";
                         device_label := "HD Webcam" |} ])
                 camera_track
                 {| device_deviceId := "cam-9"; device_kind := "videoinput";
                    device_label := "HD Webcam" |});
      reflexivity.
Defined.

(** ** How the methods and reactions act on the track object *)

Ltac unfold_monad :=
  unfold bind, ret, get, modify, perform, throw, when in *.

Ltac break_match :=
  match goal with
  | |- context [match ?x with _ => _ end] => destruct x eqn:?
  | H : context [match ?x with _ => _ end] |- _ => destruct x eqn:?
  end.

(** The monad laws the proofs compute with. *)
Lemma bind_ret :
  forall (A B : Type) (a : A) (k : A -> Action B) (this : JitsiLocalTrack),
    bind (ret a) k this = k a this.
Proof.
  intros. unfold bind, ret. destruct (k a this) as [[r t] o]. reflexivity.
Qed.

Lemma bind_get :
  forall (B : Type) (k : JitsiLocalTrack -> Action B) (this : JitsiLocalTrack),
    bind get k this = k this this.
Proof.
  intros. unfold bind, get. destruct (k this this) as [[r t] o]. reflexivity.
Qed.

Lemma bind_modify :
  forall (B : Type) (f : JitsiLocalTrack -> JitsiLocalTrack)
         (k : unit -> Action B) (this : JitsiLocalTrack),
    bind (modify f) k this = k tt (f this).
Proof.
  intros. unfold bind, modify. destruct (k tt (f this)) as [[r t] o].
  reflexivity.
Qed.

Lemma bind_perform :
  forall (B : Type) (e : Effect) (k : unit -> Action B) (this : JitsiLocalTrack),
    bind (perform e) k this
    = match k tt this with
      | (r, t, o) => (r, t, e :: o)
      end.
Proof.
  intros. unfold bind, perform. reflexivity.
Qed.

Lemma bind_throw :
  forall (A B : Type) (e : Fault) (k : A -> Action B) (this : JitsiLocalTrack),
    bind (throw e) k this = (Throw e, this, []).
Proof.
  intros. reflexivity.
Qed.

Lemma bind_assoc :
  forall (A B C : Type) (m : Action A) (f : A -> Action B) (g : B -> Action C)
         (this : JitsiLocalTrack),
    bind (bind m f) g this = bind m (fun a => bind (f a) g) this.
Proof.
  intros. unfold bind. destruct (m this) as [[[a|e] t] o]; [|reflexivity].
  destruct (f a t) as [[[b|e] t'] o']; [|reflexivity].
  destruct (g b t') as [[r t''] o'']. rewrite app_assoc. reflexivity.
Qed.

Lemma bind_value :
  forall (A B : Type) (m : Action A) (k : A -> Action B)
         (this this' : JitsiLocalTrack) (a : A) (out : list Effect),
    m this = (Normal a, this', out) ->
    bind m k this
    = match k a this' with
      | (r, t, o) => (r, t, out ++ o)
      end.
Proof.
  intros A B m k this this' a out H. unfold bind. rewrite H. reflexivity.
Qed.

Ltac monad_step :=
  first [ rewrite bind_assoc | rewrite bind_ret | rewrite bind_get
        | rewrite bind_modify | rewrite bind_perform | rewrite bind_throw ].

Ltac monad_simpl := repeat monad_step.

Lemma mapM_attachMediaStream :
  forall (s : option MediaStream) (l : list Container) (this : JitsiLocalTrack),
    mapM (fun cont => attachMediaStream cont s) l this
    = (Normal l, this, map (fun c => RTCUtils_attachMediaStream c s) l).
Proof.
  intros s l this. induction l as [|c l IH]; simpl.
  - reflexivity.
  - unfold attachMediaStream in *. unfold_monad. simpl in *.
    rewrite IH. rewrite app_nil_r. reflexivity.
Qed.

Lemma forEach_perform :
  forall (A : Type) (f : A -> Effect) (l : list A) (this : JitsiLocalTrack),
    forEach (fun a => perform (f a)) l this = (Normal tt, this, map f l).
Proof.
  intros A f l this. induction l as [|a l IH]; simpl.
  - reflexivity.
  - unfold bind, perform. unfold perform in IH. rewrite IH. reflexivity.
Qed.

(** The shapes of the three promise-returning helpers. *)
Lemma _sendMuteStatus_eq :
  forall mute this,
    _sendMuteStatus mute this
    = (Normal (if has_room this then new_Promise setMute
               else Promise_resolve undefined),
       this, mute_status_sent this mute).
Proof.
  intros mute this. unfold _sendMuteStatus, mute_status_sent. unfold_monad.
  destruct (has_room this); reflexivity.
Qed.

Lemma _addStreamToConferenceAsUnmute_eq :
  forall this,
    _addStreamToConferenceAsUnmute this
    = (Normal (if has_room this then new_Promise addStream
               else Promise_resolve undefined),
       this,
       if has_room this then [room_addStream (stream this) (type this)]
       else []).
Proof.
  intros this. unfold _addStreamToConferenceAsUnmute. unfold_monad.
  destruct (has_room this); reflexivity.
Qed.

Lemma _removeStreamFromConferenceAsMute_eq :
  forall this,
    _removeStreamFromConferenceAsMute this
    = (Normal (if has_room this then new_Promise removeStream
               else Promise_resolve undefined),
       this,
       if has_room this then [room_removeStream (stream this) (type this)]
       else []).
Proof.
  intros this. unfold _removeStreamFromConferenceAsMute. unfold_monad.
  destruct (has_room this); reflexivity.
Qed.

(** The reaction to the obtained streams, case by case. *)
Lemma then_useObtainedStream_eq :
  forall (v : Value) (this : JitsiLocalTrack),
    onFulfilled then_useObtainedStream v this
    = match v with
      | undefined => (Throw TypeError, this, [])
      | streamsInfo l =>
          match find (fun info => MediaType_eqb (info_mediaType info)
                                    (getType this)) l with
          | None => (Throw (JitsiTrackError TRACK_NO_STREAM_FOUND), this, [])
          | Some streamInfo =>
              let changed :=
                negb (option_eqb VideoType_eqb (videoType this)
                                 (info_videoType streamInfo)) in
              let this' :=
                set_containers (containers this)
                  ((if changed then set_videoType (info_videoType streamInfo)
                    else fun t => t)
                     (set_track (Some (info_track streamInfo))
                        (set_stream (Some (info_stream streamInfo)) this))) in
              (Normal (if has_room this then new_Promise addStream
                       else Promise_resolve undefined),
               this',
               (if changed then [logger_warn] else [])
               ++ map (fun c => RTCUtils_attachMediaStream c
                                  (Some (info_stream streamInfo)))
                      (containers this)
               ++ (if has_room this
                   then [room_addStream (Some (info_stream streamInfo))
                                        (type this)]
                   else []))
          end
      end.
Proof.
  intros v this. destruct v as [|l]; [reflexivity|].
  unfold onFulfilled. rewrite bind_get.
  destruct (find (fun info => MediaType_eqb (info_mediaType info) (getType this)) l)
    as [streamInfo|]; [|reflexivity].
  unfold when.
  destruct (option_eqb VideoType_eqb (videoType this) (info_videoType streamInfo));
    simpl negb; cbv iota; monad_simpl;
    erewrite bind_value by apply mapM_attachMediaStream;
    monad_simpl; rewrite _addStreamToConferenceAsUnmute_eq; cbn;
    unfold has_room; cbn; reflexivity.
Qed.

(** createMuteUnmutePromise in closed form: the four ways a call can go. *)
Lemma createMuteUnmutePromise_eq :
  forall (window : Platform) (mute : bool) (this : JitsiLocalTrack),
    createMuteUnmutePromise window mute this
    = if inMuteOrUnmuteProgress this then
        (Normal (Promise_reject (JitsiTrackError TRACK_MUTE_UNMUTE_IN_PROGRESS)),
         this, [])
      else
        let t1 := set_inMuteOrUnmuteProgress true this in
        if Bool.eqb (isMuted this) mute then
          (Normal {| state := Resolved undefined;
                     reactions := [Then then_clearProgress;
                                   Catch catch_clearProgress] |},
           t1, [])
        else
          let t2 :=
            set_dontFireRemoveEvent false
              (if has_room this then t1 else set_startMuted mute t1) in
          let tail :=
            [Then (then_sendMuteStatus mute); Then then_emitMuteChanged;
             Then then_clearProgress; Catch catch_clearProgress] in
          if cannot_remove_stream window this then
            (Normal {| state := Resolved undefined; reactions := tail |},
             match track this with
             | Some tr => set_track (Some (set_enabled (negb mute) tr)) t2
             | None => t2
             end,
             [])
          else if mute then
            (Normal {| state := if has_room this then Pending removeStream
                                else Resolved undefined;
                       reactions := Then then_stopStream :: tail |},
             set_dontFireRemoveEvent true t2,
             if has_room this
             then [room_removeStream (stream this) (type this)] else [])
          else
            (Normal {| state := Pending obtainAudioAndVideoPermissions;
                       reactions := Then then_useObtainedStream :: tail |},
             t2,
             [RTCUtils_obtainAudioAndVideoPermissions
                {| cameraDeviceId := getDeviceId this;
                   devices := [VIDEO];
                   facingMode := getCameraFacingMode this;
                   options_resolution := resolution this |}]).
Proof.
  intros window mute this.
  unfold createMuteUnmutePromise. rewrite bind_get.
  destruct (inMuteOrUnmuteProgress this) eqn:Hg; [reflexivity|].
  rewrite bind_modify. unfold _setMute. rewrite bind_assoc, bind_get.
  change (isMuted (set_inMuteOrUnmuteProgress true this)) with (isMuted this).
  destruct (Bool.eqb (isMuted this) mute); [reflexivity|].
  change (has_room (set_inMuteOrUnmuteProgress true this)) with (has_room this).
  change (cannot_remove_stream window (set_inMuteOrUnmuteProgress true this))
    with (cannot_remove_stream window this).
  unfold when.
  destruct (has_room this) eqn:Hr; simpl negb; cbv iota;
    destruct (cannot_remove_stream window this); monad_simpl.
  - cbn. destruct (track this); monad_simpl; reflexivity.
  - destruct mute; monad_simpl.
    + erewrite bind_value by apply _removeStreamFromConferenceAsMute_eq.
      monad_simpl. unfold has_room in *. cbn. rewrite Hr. reflexivity.
    + reflexivity.
  - cbn. destruct (track this); monad_simpl; reflexivity.
  - destruct mute; monad_simpl.
    + erewrite bind_value by apply _removeStreamFromConferenceAsMute_eq.
      monad_simpl. unfold has_room in *. cbn. rewrite Hr. reflexivity.
    + reflexivity.
Qed.

(** dispose in closed form. *)
Lemma dispose_eq :
  forall this : JitsiLocalTrack,
    dispose this
    = (Normal {| state := if is_undefined (conference this)
                          then Resolved undefined else Pending removeTrack;
                 reactions := [Then then_superDispose] |},
       if is_undefined (stream this) then this else set_containers [] this,
       (if is_undefined (conference this) then [] else [conference_removeTrack])
       ++ (if is_undefined (stream this) then []
           else [RTCUtils_stopMediaStream (stream this); JitsiTrack_detach])
       ++ [RTCUtils_removeListener DEVICE_LIST_CHANGED]
       ++ (if _onAudioOutputDeviceChanged this
           then [RTCUtils_removeListener AUDIO_OUTPUT_DEVICE_CHANGED]
           else [])).
Proof.
  intros this. unfold dispose, detach, when. rewrite bind_get.
  destruct (conference this), (stream this),
    (_onAudioOutputDeviceChanged this); monad_simpl; reflexivity.
Qed.

(** ** The task list *)

Lemma advance_cases :
  forall (n : nat) (f : Reactor) (ts : list Task) (this : JitsiLocalTrack),
    (Forall (fun t => task t <> n) ts /\
     advance n f ts this = (ts, this, [], []))
    \/
    (exists l1 t l2 p' this' out,
        ts = l1 ++ t :: l2 /\ task t = n /\
        Forall (fun x => task x <> n) l1 /\
        f (promise t) this = (p', this', out) /\
        advance n f ts this
        = (l1 ++ (if is_done p' then []
                  else [{| task := n; call_of := call_of t; promise := p' |}])
              ++ l2,
           this', out,
           if is_done p' then [(n, state p')] else [])).
Proof.
  intros n f ts this. induction ts as [|t ts IH].
  - left. split; [constructor|reflexivity].
  - simpl. destruct (Nat.eqb (task t) n) eqn:Hn.
    + right. apply Nat.eqb_eq in Hn.
      destruct (f (promise t) this) as [[p' this'] out] eqn:Hf.
      exists [], t, ts, p', this', out.
      repeat split; auto.
      destruct (is_done p'); reflexivity.
    + apply Nat.eqb_neq in Hn.
      destruct IH as [[Hall Heq]|(l1 & t0 & l2 & p' & this' & out
                                  & Hts & Hid & Hl1 & Hf & Heq)].
      * left. split; [constructor; assumption|]. rewrite Heq. reflexivity.
      * right. exists (t :: l1), t0, l2, p', this', out.
        repeat split; auto.
        -- rewrite Hts. reflexivity.
        -- rewrite Heq. reflexivity.
Qed.

(** ** Frames: what a reaction or listener leaves alone *)

Lemma onFulfilled_frame :
  forall h v this c this' out,
    onFulfilled h v this = (c, this', out) ->
    reactions (settle c) = []
    /\ conference this' = conference this
    /\ type this' = type this
    /\ _trackEnded this' = _trackEnded this
    /\ (track this <> None -> track this' <> None)
    /\ inMuteOrUnmuteProgress this'
       = match h with
         | then_clearProgress => false
         | _ => inMuteOrUnmuteProgress this
         end
    /\ (is_teardown_reaction (Then h) = false ->
        stream this' = stream this /\ videoType this' = videoType this
        /\ track this' = track this
        /\ Forall (fun e => tears_down e = false) out)
    /\ (match h with
        | then_sendMuteStatus _ | then_emitMuteChanged => False
        | _ => True
        end -> filter about_mute out = []).
Proof.
  intros h v this c this' out H.
  destruct h.
  - cbn in H. injection H as <- <- <-; cbn. repeat split; auto.
  - cbn in H. injection H as <- <- <-; cbn. repeat split; auto; discriminate.
  - rewrite then_useObtainedStream_eq in H.
    destruct v as [|l].
    + injection H as <- <- <-; cbn. repeat split; auto; discriminate.
    + destruct (find _ l) as [info|].
      * cbv zeta in H. injection H as <- <- <-.
        split; [destruct (has_room this); reflexivity|].
        destruct (negb (option_eqb VideoType_eqb (videoType this)
                          (info_videoType info))); cbn;
          (repeat split; auto; try discriminate).
        -- rewrite filter_app.
           replace (filter about_mute
                      (map (fun c => RTCUtils_attachMediaStream c
                                       (Some (info_stream info)))
                           (containers this))) with (@nil Effect).
           ++ destruct (has_room this); reflexivity.
           ++ induction (containers this); cbn; auto.
        -- rewrite filter_app.
           replace (filter about_mute
                      (map (fun c => RTCUtils_attachMediaStream c
                                       (Some (info_stream info)))
                           (containers this))) with (@nil Effect).
           ++ destruct (has_room this); reflexivity.
           ++ induction (containers this); cbn; auto.
      * injection H as <- <- <-; cbn. repeat split; auto; discriminate.
  - unfold onFulfilled in H. rewrite _sendMuteStatus_eq in H.
    injection H as <- <- <-.
    split; [destruct (has_room this); reflexivity|].
    repeat split; auto; try contradiction.
    unfold mute_status_sent.
    destruct (has_room this); [|constructor].
    destruct (isAudioTrack this); repeat constructor.
  - cbn in H. injection H as <- <- <-; cbn.
    repeat split; auto; try contradiction; repeat constructor.
  - cbn in H. injection H as <- <- <-; cbn.
    repeat split; auto; repeat constructor.
Qed.

Lemma onRejected_frame :
  forall h e this c this' out,
    onRejected h e this = (c, this', out) ->
    c = Throw e /\ out = []
    /\ this' = set_inMuteOrUnmuteProgress false this.
Proof.
  intros h e this c this' out H. destruct h. cbn in H.
  injection H as <- <- <-. auto.
Qed.

Lemma answer_eq :
  forall s p this,
    answer s p this
    = (match state p with
       | Pending _ => adopt {| state := s; reactions := reactions p |} []
       | _ => p
       end, this, []).
Proof.
  intros s p this. unfold answer. destruct (state p); reflexivity.
Qed.

(** The inactive notification in closed form. *)
Lemma stream_inactive_eq :
  forall (sid : nat) (this : JitsiLocalTrack),
    stream_inactive sid this
    = let t1 :=
        set_stream
          (option_map
             (fun s => if Nat.eqb (id s) sid then set_active false s else s)
             (stream this)) this in
      if strict_eq Nat.eqb (inactive_handler_on this) sid then
        (Normal tt, set_dontFireRemoveEvent false t1,
         if dontFireRemoveEvent this then []
         else [eventEmitter_emit LOCAL_TRACK_STOPPED])
      else (Normal tt, t1, []).
Proof.
  intros sid this. unfold stream_inactive, inactiveHandler, when.
  rewrite bind_get, bind_modify. cbn [inactive_handler_on set_stream].
  destruct (strict_eq Nat.eqb (inactive_handler_on this) sid);
    [|reflexivity].
  rewrite bind_get. cbn [dontFireRemoveEvent set_stream].
  destruct (dontFireRemoveEvent this); reflexivity.
Qed.

Lemma listener_frame :
  forall ev a this r this' out,
    listener ev = Some a -> a this = (r, this', out) ->
    inMuteOrUnmuteProgress this' = inMuteOrUnmuteProgress this
    /\ type this' = type this
    /\ videoType this' = videoType this
    /\ option_map id (stream this') = option_map id (stream this)
    /\ (track this <> None -> track this' <> None)
    /\ (_trackEnded this = true -> _trackEnded this' = true)
    /\ Forall (fun e => tears_down e = false) out
    /\ filter about_mute out = []
    /\ (ev <> SetConference (conference this') ->
        conference this' = conference this).
Proof.
  intros ev a this r this' out Hl Ha.
  destruct ev as [c|n|n v|n e|devs|c|sid| ]; try discriminate; cbn in Hl;
    inversion Hl; subst a; clear Hl.
  - unfold _onDeviceListChanged, _setRealDeviceIdFromDeviceList, when in Ha.
    rewrite bind_assoc, bind_get in Ha. unfold getTrack in Ha.
    destruct (track this) as [tr|] eqn:Ht.
    + destruct (find (is_input_of tr) devs) as [d|].
      * rewrite bind_modify, bind_get in Ha. cbn in Ha. rewrite Ht in Ha.
        match type of Ha with
        | context [if ?b then _ else _] => destruct b
        end; cbn in Ha; injection Ha as <- <- <-; cbn;
          repeat split; auto; congruence.
      * rewrite bind_ret, bind_get in Ha. cbn in Ha. rewrite Ht in Ha.
        match type of Ha with
        | context [if ?b then _ else _] => destruct b
        end; cbn in Ha; injection Ha as <- <- <-; cbn;
          repeat split; auto; congruence.
    + destruct devs; cbn in Ha; rewrite ?Ht in Ha; cbn in Ha;
        injection Ha as <- <- <-; repeat split; auto.
  - unfold _setConference in Ha. rewrite bind_modify, bind_get in Ha.
    rewrite forEach_perform in Ha. injection Ha as <- <- <-; cbn.
    repeat split; auto.
    + induction (containers this); cbn; auto.
    + induction (containers this); cbn; auto.
    + intros H. contradiction H. reflexivity.
  - rewrite stream_inactive_eq in Ha. cbv zeta in Ha.
    assert (Hid : option_map id
                    (option_map
                       (fun s => if Nat.eqb (id s) sid then set_active false s
                                 else s) (stream this))
                  = option_map id (stream this)).
    { destruct (stream this) as [s|]; [|reflexivity]. cbn.
      destruct (Nat.eqb (id s) sid); reflexivity. }
    destruct (strict_eq Nat.eqb (inactive_handler_on this) sid),
      (dontFireRemoveEvent this);
      injection Ha as <- <- <-; cbn; repeat split; auto;
      repeat constructor.
  - unfold track_ended in Ha. rewrite bind_get in Ha. cbn in Ha.
    injection Ha as <- <- <-; cbn. repeat split; auto.
    destruct (track this); cbn; congruence.
Qed.

(** ** Invariants of the scheduler, generically

    A property [P] of the track object, a property [T] of the pending chains
    and a property [E] of the effects survive every run of allowed events as
    soon as each method, each job and each listener respects them. *)

Section Preservation.

Variable window : Platform.
Variable P : JitsiLocalTrack -> Prop.
Variable E : Effect -> Prop.
Variable T : Call -> Promise -> Prop.
Variable allowed : Event -> Prop.

Hypothesis invoke_ok :
  forall c this r this' out,
    allowed (Invoke c) -> P this ->
    invoke window c this = (r, this', out) ->
    P this' /\ Forall E out /\ T c (adopt (settle r) []).

Hypothesis job_ok :
  forall c p this p' this' out,
    T c p -> P this -> job p this = (p', this', out) ->
    P this' /\ Forall E out /\ T c p'.

Hypothesis answer_ok :
  forall c s p,
    T c p -> T c (adopt {| state := s; reactions := reactions p |} []).

Hypothesis listener_ok :
  forall ev a this r this' out,
    allowed ev -> listener ev = Some a -> P this ->
    a this = (r, this', out) ->
    P this' /\ Forall E out.

Lemma extends_by_refl : forall w, extends_by E w w.
Proof.
  intros w. exists []. split; [symmetry; apply app_nil_r|constructor].
Qed.

Lemma extends_by_trans :
  forall w1 w2 w3, extends_by E w1 w2 -> extends_by E w2 w3 ->
                   extends_by E w1 w3.
Proof.
  intros w1 w2 w3 (o1 & H1 & F1) (o2 & H2 & F2).
  exists (o1 ++ o2). split.
  - rewrite H2, H1, app_assoc. reflexivity.
  - apply Forall_app. split; assumption.
Qed.

Lemma deliver_holds :
  forall (f : Reactor) (n : nat) (w : World),
    (forall c p this p' this' out,
        T c p -> P this -> f p this = (p', this', out) ->
        P this' /\ Forall E out /\ T c p') ->
    holds P T w ->
    holds P T (deliver n f w) /\ extends_by E w (deliver n f w).
Proof.
  intros f n w Hf [HP HT]. unfold deliver.
  destruct (advance_cases n f (pending w) (localTrack w))
    as [[_ Heq]|(l1 & t & l2 & p' & this' & out
                 & Hts & Hid & Hl1 & Hfeq & Heq)];
    rewrite Heq.
  - split; [split; assumption|].
    exists []. cbn. split; [reflexivity|constructor].
  - rewrite Hts in HT. apply Forall_app in HT. destruct HT as [HT1 HT2].
    inversion HT2 as [|? ? Ht HT2']; subst.
    destruct (Hf _ _ _ _ _ _ Ht HP Hfeq) as (HP' & HE & HT').
    split.
    + split; cbn; [assumption|].
      apply Forall_app. split; [assumption|].
      apply Forall_app. split; [|assumption].
      destruct (is_done p'); constructor; [exact HT'|constructor].
    + exists out. cbn. split; [reflexivity|assumption].
Qed.

Lemma step_holds :
  forall ev w,
    allowed ev -> holds P T w ->
    holds P T (step window ev w) /\ extends_by E w (step window ev w).
Proof.
  intros ev w Hal Hw.
  assert (Hnotify :
            forall a, listener ev = Some a ->
                      holds P T (notify a w) /\ extends_by E w (notify a w)).
  { intros a Hl. destruct Hw as [HP HT]. unfold notify.
    destruct (a (localTrack w)) as [[r this'] out] eqn:Ha.
    destruct (listener_ok _ _ _ _ _ _ Hal Hl HP Ha) as [HP' HE].
    split; [split; assumption|].
    exists out. split; [reflexivity|assumption]. }
  destruct ev as [c|n|n v|n e|devs|c|sid| ]; cbn [step].
  - destruct Hw as [HP HT]. unfold enter.
    destruct (invoke window c (localTrack w)) as [[r this'] out] eqn:Hi.
    destruct (invoke_ok _ _ _ _ _ Hal HP Hi) as (HP' & HE & HT').
    split.
    + split; cbn; [assumption|].
      destruct (is_done (adopt (settle r) [])); [assumption|].
      apply Forall_app. split; [assumption|].
      constructor; [exact HT'|constructor].
    + exists out. split; [reflexivity|assumption].
  - apply deliver_holds; [|assumption]. exact job_ok.
  - apply deliver_holds; [|assumption].
    intros c p this p' this' out Ht HP Hf.
    rewrite answer_eq in Hf. injection Hf as <- <- <-.
    split; [assumption|]. split; [constructor|].
    destruct (state p); auto.
  - apply deliver_holds; [|assumption].
    intros c p this p' this' out Ht HP Hf.
    rewrite answer_eq in Hf. injection Hf as <- <- <-.
    split; [assumption|]. split; [constructor|].
    destruct (state p); auto.
  - apply Hnotify. reflexivity.
  - apply Hnotify. reflexivity.
  - apply Hnotify. reflexivity.
  - apply Hnotify. reflexivity.
Qed.

Lemma run_holds :
  forall evs w,
    Forall allowed evs -> holds P T w ->
    holds P T (run window evs w) /\ extends_by E w (run window evs w).
Proof.
  induction evs as [|ev evs IH]; intros w Hal Hw.
  - split; [assumption|apply extends_by_refl].
  - inversion Hal as [|? ? Hev Hevs]; subst.
    destruct (step_holds ev w Hev Hw) as [Hw' Hx].
    destruct (IH (step window ev w) Hevs Hw') as [Hw'' Hx'].
    split; [exact Hw''|].
    apply (extends_by_trans _ _ _ Hx Hx').
Qed.

End Preservation.

Lemma job_frame :
  forall p this p' this' out,
    job p this = (p', this', out) ->
    conference this' = conference this
    /\ type this' = type this
    /\ _trackEnded this' = _trackEnded this
    /\ (track this <> None -> track this' <> None).
Proof.
  intros p this p' this' out H. unfold job in H.
  destruct (state p) as [v|e|r].
  - destruct (reactions p) as [|[h|h] rest].
    + injection H as <- <- <-. auto.
    + destruct (onFulfilled h v this) as [[c t] o] eqn:Hh.
      injection H as <- <- <-.
      destruct (onFulfilled_frame _ _ _ _ _ _ Hh)
        as (_ & Hc & Hty & Hte & Htr & _).
      auto.
    + injection H as <- <- <-. auto.
  - destruct (reactions p) as [|[h|h] rest].
    + injection H as <- <- <-. auto.
    + injection H as <- <- <-. auto.
    + destruct (onRejected h e this) as [[c t] o] eqn:Hh.
      injection H as <- <- <-.
      destruct (onRejected_frame _ _ _ _ _ _ Hh) as (_ & _ & ->).
      cbn. auto.
  - injection H as <- <- <-. auto.
Qed.

Lemma invoke_frame :
  forall window c this r this' out,
    invoke window c this = (r, this', out) ->
    (exists p, r = Normal p)
    /\ conference this' = conference this
    /\ type this' = type this
    /\ videoType this' = videoType this
    /\ stream this' = stream this
    /\ _trackEnded this' = _trackEnded this
    /\ (track this <> None -> track this' <> None).
Proof.
  intros window c this r this' out H.
  assert (Hm : forall mute,
             createMuteUnmutePromise window mute this = (r, this', out) ->
             (exists p, r = Normal p)
             /\ conference this' = conference this
             /\ type this' = type this
             /\ videoType this' = videoType this
             /\ stream this' = stream this
             /\ _trackEnded this' = _trackEnded this
             /\ (track this <> None -> track this' <> None)).
  { intros mute Hc. rewrite createMuteUnmutePromise_eq in Hc.
    destruct (inMuteOrUnmuteProgress this).
    { injection Hc as <- <- <-. repeat split; eauto. }
    cbv zeta in Hc.
    destruct (Bool.eqb (isMuted this) mute).
    { injection Hc as <- <- <-. repeat split; eauto. }
    destruct (cannot_remove_stream window this).
    { destruct (track this) eqn:Ht, (has_room this);
        injection Hc as <- <- <-; cbn; repeat split; eauto; congruence. }
    destruct mute, (has_room this);
      injection Hc as <- <- <-; cbn; repeat split; eauto. }
  destruct c; unfold invoke, mute, unmute in H.
  - apply (Hm true H).
  - apply (Hm false H).
  - rewrite dispose_eq in H. injection H as <- <- <-.
    destruct (is_undefined (stream this)); cbn; repeat split; eauto.
Qed.

(** ** The ended state *)




(** ** Calls that change nothing *)

Lemma clear_unheld_guard :
  forall this : JitsiLocalTrack,
    inMuteOrUnmuteProgress this = false ->
    set_inMuteOrUnmuteProgress false this = this.
Proof.
  intros this H. destruct this. cbn in *. subst. reflexivity.
Qed.

Lemma invoke_transition :
  forall window c,
    is_transition c = true ->
    invoke window c = createMuteUnmutePromise window (target c).
Proof.
  intros window [| |] H; try reflexivity. discriminate.
Qed.

(** A mute()/unmute() issued while the guard is held is turned down and
    touches nothing. *)
Lemma call_while_guard_held :
  forall window w c,
    is_transition c = true ->
    inMuteOrUnmuteProgress (localTrack w) = true ->
    step window (Invoke c) w
    = {| localTrack := localTrack w; pending := pending w;
         outcomes :=
           outcomes w
           ++ [(calls w,
                Rejected (JitsiTrackError TRACK_MUTE_UNMUTE_IN_PROGRESS))];
         log := log w; calls := S (calls w) |}.
Proof.
  intros window w c Hc Hg. cbn [step]. unfold enter.
  rewrite (invoke_transition _ _ Hc), createMuteUnmutePromise_eq, Hg.
  cbn. rewrite app_nil_r. reflexivity.
Qed.

(** C2, as the code has it: mute() on a muted track and unmute() on an
    unmuted one, issued while no transition is in flight, report success
    without touching the teardown/re-acquisition path and without a
    mute-changed event (the log does not grow at all); the guard is taken
    during the call and given back by the one promise job that settles it,
    after which the track object is as before.  Issued while a transition is
    in flight, the same call fails with TRACK_MUTE_UNMUTE_IN_PROGRESS. *)
Theorem C2_call_in_target_state :
  forall (window : Platform) (w : World) (c : Call),
    is_transition c = true ->
    isMuted (localTrack w) = target c ->
    (inMuteOrUnmuteProgress (localTrack w) = true ->
     step window (Invoke c) w
     = {| localTrack := localTrack w; pending := pending w;
          outcomes :=
            outcomes w
            ++ [(calls w,
                 Rejected (JitsiTrackError TRACK_MUTE_UNMUTE_IN_PROGRESS))];
          log := log w; calls := S (calls w) |})
    /\
    (inMuteOrUnmuteProgress (localTrack w) = false -> pending w = [] ->
     let w1 := step window (Invoke c) w in
     let w2 := step window (Job (calls w)) w1 in
     inMuteOrUnmuteProgress (localTrack w1) = true
     /\ localTrack w1 = set_inMuteOrUnmuteProgress true (localTrack w)
     /\ log w1 = log w
     /\ outcomes w1 = outcomes w
     /\ localTrack w2 = localTrack w
     /\ log w2 = log w
     /\ pending w2 = []
     /\ outcomes w2 = outcomes w ++ [(calls w, Resolved undefined)]).
Proof.
  intros window w c Hc Hm. split.
  - apply call_while_guard_held. exact Hc.
  - intros Hg Hp. cbv zeta. cbn [step]. unfold enter.
    rewrite (invoke_transition _ _ Hc), createMuteUnmutePromise_eq, Hg, Hm.
    rewrite Bool.eqb_reflx. cbn. rewrite Hp. unfold deliver. cbn.
    rewrite Nat.eqb_refl. cbn. rewrite !app_nil_r.
    repeat split; try reflexivity.
    rewrite <- (clear_unheld_guard _ Hg) at 2. reflexivity.
Qed.

Lemma C2_call_in_target_state_witness :
  let w1 := step chrome_https (Invoke Mute) muted_camera_world in
  let w2 := step chrome_https (Job 1) w1 in
  isMuted (localTrack muted_camera_world) = true
  /\ localTrack w2 = localTrack muted_camera_world
  /\ log w2 = log muted_camera_world
  /\ outcomes w2 = outcomes muted_camera_world ++ [(1, Resolved undefined)].
Proof.
  split; [reflexivity|].
  destruct (proj2 (C2_call_in_target_state chrome_https muted_camera_world
                     Mute eq_refl eq_refl) eq_refl eq_refl)
    as (_ & _ & _ & _ & H1 & H2 & _ & H3).
  split; [exact H1|]. split; [exact H2|exact H3].
Defined.

(** C2, as stated, fails: a mute() on a microphone track that is muted
    already (its first mute() has disabled the native track and is still in
    flight) does not report success, it is rejected; and a mute() on a muted
    track with no transition in flight does take the guard. *)
Lemma C2_counterexample :
  let w := run chrome_https [Invoke Mute] microphone_world in
  let idle :=
    run chrome_https [Invoke Mute; Job 0; Job 0; Job 0] microphone_world in
  (isMuted (localTrack w) = true
   /\ outcomes (step chrome_https (Invoke Mute) w)
      = [(1, Rejected (JitsiTrackError TRACK_MUTE_UNMUTE_IN_PROGRESS))])
  /\
  (isMuted (localTrack idle) = true /\ pending idle = []
   /\ inMuteOrUnmuteProgress (localTrack idle) = false
   /\ inMuteOrUnmuteProgress (localTrack (step chrome_https (Invoke Mute) idle))
      = true).
Proof.
  vm_compute. repeat split; reflexivity.
Qed.

(** ** Disposal *)

(** C3, as the code has it: dispose() on a track with a conference and a
    native stream requests the removal from the conference first and, within
    the same call and without waiting for its completion, releases the native
    stream, detaches the track and unregisters the device-list listener; only
    the base-track teardown waits for the removal to complete (and is skipped
    when the removal fails). *)
Theorem C3_dispose_order :
  forall (window : Platform) (w : World) (conf : JitsiConference)
         (s : MediaStream),
    conference (localTrack w) = Some conf ->
    stream (localTrack w) = Some s ->
    pending w = [] ->
    let n := calls w in
    let w1 := step window (Invoke Dispose) w in
    (exists rest,
        log w1
        = log w
          ++ conference_removeTrack
             :: RTCUtils_stopMediaStream (Some s)
             :: JitsiTrack_detach
             :: RTCUtils_removeListener DEVICE_LIST_CHANGED :: rest
        /\ ~ In JitsiTrack_dispose rest)
    /\ pending w1
       = [{| task := n; call_of := Dispose;
             promise := {| state := Pending removeTrack;
                           reactions := [Then then_superDispose] |} |}]
    /\ step window (Job n) w1 = w1
    /\ (forall v,
           let w2 := run window [Resolve n v; Job n] w1 in
           log w2 = log w1 ++ [JitsiTrack_dispose]
           /\ pending w2 = []
           /\ outcomes w2 = outcomes w ++ [(n, Resolved undefined)])
    /\ (forall e,
           let w2 := run window [Reject n e] w1 in
           log w2 = log w1
           /\ pending w2 = []
           /\ outcomes w2 = outcomes w ++ [(n, Rejected e)]).
Proof.
  intros window w conf s Hc Hs Hp n w1.
  assert (E1 : w1
               = {| localTrack := set_containers [] (localTrack w);
                    pending :=
                      [{| task := n; call_of := Dispose;
                          promise := {| state := Pending removeTrack;
                                        reactions := [Then then_superDispose] |}
                       |}];
                    outcomes := outcomes w;
                    log := log w
                           ++ conference_removeTrack
                              :: RTCUtils_stopMediaStream (Some s)
                              :: JitsiTrack_detach
                              :: RTCUtils_removeListener DEVICE_LIST_CHANGED
                              :: (if _onAudioOutputDeviceChanged (localTrack w)
                                  then [RTCUtils_removeListener
                                          AUDIO_OUTPUT_DEVICE_CHANGED]
                                  else []);
                    calls := S n |}).
  { unfold w1. cbn [step]. unfold enter, invoke. rewrite dispose_eq.
    rewrite Hc, Hs, Hp. reflexivity. }
  rewrite E1. split.
  - eexists. split; [reflexivity|].
    destruct (_onAudioOutputDeviceChanged (localTrack w)); cbn;
      intros H; intuition discriminate.
  - split; [reflexivity|]. split.
    + cbn [step]. unfold deliver. cbn. rewrite Nat.eqb_refl. cbn.
      rewrite !app_nil_r. reflexivity.
    + split.
      * intros v. cbn. unfold deliver. cbn. rewrite Nat.eqb_refl. cbn.
        rewrite Nat.eqb_refl. cbn. rewrite !app_nil_r.
        repeat split; reflexivity.
      * intros e. cbn. unfold deliver. cbn. rewrite Nat.eqb_refl. cbn.
        rewrite !app_nil_r. repeat split; reflexivity.
Qed.

Lemma C3_dispose_order_witness :
  let w1 := step chrome_https (Invoke Dispose) camera_in_conference in
  step chrome_https (Job 0) w1 = w1
  /\ log (run chrome_https [Resolve 0 undefined; Job 0] w1)
     = log w1 ++ [JitsiTrack_dispose].
Proof.
  destruct (C3_dispose_order chrome_https camera_in_conference a_conference
              camera_stream eq_refl eq_refl eq_refl)
    as (_ & _ & H1 & H2 & _).
  split; [exact H1|]. exact (proj1 (H2 undefined)).
Defined.

(** C3, as stated, fails: right after the call, with the removal from the
    conference still pending, the native stream has been released and the
    track detached. *)
Lemma C3_counterexample :
  let w :=
    run chrome_https [SetConference (Some a_conference); Invoke Dispose]
        camera_world in
  log w
  = [RTCUtils_addListener DEVICE_LIST_CHANGED; conference_removeTrack;
     RTCUtils_stopMediaStream (Some camera_stream); JitsiTrack_detach;
     RTCUtils_removeListener DEVICE_LIST_CHANGED]
  /\ map (fun t => (call_of t, state (promise t))) (pending w)
     = [(Dispose, Pending removeTrack)]
  /\ outcomes w = [].
Proof.
  vm_compute. repeat split; reflexivity.
Qed.

(** ** Unmute without a matching stream *)

(** C6, as the code has it: an unmute() that goes down the re-acquisition
    path and is answered with streams none of which has the track's media
    type fails with TRACK_NO_STREAM_FOUND, gives the guard back, attaches and
    adds nothing, and leaves the native stream and track as they were before
    the call: a track whose stream was torn down stays without a stream. *)
Theorem C6_unmute_no_stream_found :
  forall (window : Platform) (w : World) (l : list StreamInfo),
    pending w = [] ->
    inMuteOrUnmuteProgress (localTrack w) = false ->
    cannot_remove_stream window (localTrack w) = false ->
    isMuted (localTrack w) = true ->
    (forall info, In info l ->
                  MediaType_eqb (info_mediaType info)
                                (getType (localTrack w)) = false) ->
    let n := calls w in
    let w1 := step window (Invoke Unmute) w in
    let w' := run window [Resolve n (streamsInfo l); Job n; Job n] w1 in
    (exists o, log w1 = log w ++ [RTCUtils_obtainAudioAndVideoPermissions o])
    /\ outcomes w'
       = outcomes w ++ [(n, Rejected (JitsiTrackError TRACK_NO_STREAM_FOUND))]
    /\ pending w' = []
    /\ log w' = log w1
    /\ inMuteOrUnmuteProgress (localTrack w') = false
    /\ stream (localTrack w') = stream (localTrack w)
    /\ track (localTrack w') = track (localTrack w)
    /\ (stream (localTrack w) = None -> stream (localTrack w') = None).
Proof.
  intros window w l Hp Hg Hpol Hm Hno n w1 w'.
  assert (Hfind : find (fun info => MediaType_eqb (info_mediaType info)
                                      (getType (localTrack w))) l = None).
  { apply find_none_of_all. exact Hno. }
  unfold w', w1. cbn [run fold_left step]. unfold enter, invoke, unmute.
  rewrite createMuteUnmutePromise_eq, Hg, Hm, Hpol, Hp.
  cbn. unfold deliver. cbn. rewrite Nat.eqb_refl. cbn.
  rewrite Nat.eqb_refl. cbn.
  unfold getType in Hfind. cbn.
  match goal with
  | |- context [find ?f l] =>
      replace (find f l) with (@None StreamInfo)
        by (symmetry; destruct (has_room (localTrack w)); exact Hfind)
  end.
  cbn. rewrite Nat.eqb_refl. cbn. rewrite !app_nil_r.
  repeat split; try reflexivity.
  - eexists. reflexivity.
  - destruct (has_room (localTrack w)); reflexivity.
  - destruct (has_room (localTrack w)); reflexivity.
  - intros Hnone. destruct (has_room (localTrack w)); exact Hnone.
Qed.

Lemma C6_unmute_no_stream_found_witness :
  let w' :=
    run chrome_https [Resolve 1 (streamsInfo [microphone_info]); Job 1; Job 1]
        (step chrome_https (Invoke Unmute) muted_camera_world) in
  stream (localTrack muted_camera_world) = None
  /\ outcomes w'
     = outcomes muted_camera_world
       ++ [(1, Rejected (JitsiTrackError TRACK_NO_STREAM_FOUND))]
  /\ stream (localTrack w') = None.
Proof.
  split; [reflexivity|].
  assert (Hno : forall info, In info [microphone_info] ->
                  MediaType_eqb (info_mediaType info)
                    (getType (localTrack muted_camera_world)) = false).
  { intros info [<-|[]]. reflexivity. }
  destruct (C6_unmute_no_stream_found chrome_https muted_camera_world
              [microphone_info] eq_refl eq_refl eq_refl eq_refl Hno)
    as (_ & H1 & _ & _ & _ & _ & _ & H2).
  split; [exact H1|]. apply H2. reflexivity.
Defined.

(** C6, as stated, fails: a camera track that counts as muted because its
    stream went inactive still holds that stream after its unmute() has
    failed with TRACK_NO_STREAM_FOUND. *)
Lemma C6_counterexample :
  let w' :=
    run chrome_https
        [Invoke Unmute; Resolve 0 (streamsInfo [microphone_info]); Job 0; Job 0]
        inactive_camera_world in
  inactive_camera_world = run chrome_https [StreamInactive 1] camera_world
  /\ cannot_remove_stream chrome_https (localTrack inactive_camera_world) = false
  /\ isMuted (localTrack inactive_camera_world) = true
  /\ outcomes w' = [(0, Rejected (JitsiTrackError TRACK_NO_STREAM_FOUND))]
  /\ stream (localTrack w') = Some (set_active false camera_stream)
  /\ stream (localTrack w') <> None.
Proof.
  vm_compute. repeat split; try reflexivity. discriminate.
Qed.

(** ** Local disablement *)

Lemma cannot_remove_stream_iff :
  forall window this,
    cannot_remove_stream window this = true
    <-> (protocol window <> "https:" \/ type this = AUDIO
         \/ videoType this = Some DESKTOP \/ isFirefox window = true).
Proof.
  intros window this. unfold cannot_remove_stream, isAudioTrack, getType.
  rewrite !orb_true_iff, negb_true_iff. split.
  - intros [[[H|H]|H]|H].
    + left. apply String.eqb_neq. exact H.
    + right. left. destruct (type this); [reflexivity|discriminate].
    + right. right. left.
      destruct (videoType this) as [[|]|]; try discriminate. reflexivity.
    + right. right. right. exact H.
  - intros [H|[H|[H|H]]].
    + left. left. left. apply String.eqb_neq. exact H.
    + left. left. right. rewrite H. reflexivity.
    + left. right. rewrite H. reflexivity.
    + right. exact H.
Qed.

Lemma cannot_remove_stream_ext :
  forall window this this',
    type this' = type this -> videoType this' = videoType this ->
    cannot_remove_stream window this' = cannot_remove_stream window this.
Proof.
  intros window this this' Ht Hv.
  unfold cannot_remove_stream, isAudioTrack, getType. rewrite Ht, Hv.
  reflexivity.
Qed.

Lemma pass_by_forallb :
  forall (f : Reaction -> bool) (st : Settlement) (rs : list Reaction),
    forallb f rs = true -> forallb f (pass_by st rs) = true.
Proof.
  intros f st rs. induction rs as [|r rs IH]; intros H; [reflexivity|].
  cbn in H. apply andb_true_iff in H. destruct H as [Hr Hrs].
  destruct r; cbn; destruct st; cbn; auto; rewrite Hr, Hrs; reflexivity.
Qed.

(** A chain without teardown reactions does a job without touching the
    stream, the track kind or the room's stream list. *)
Lemma job_without_teardown :
  forall p this p' this' out,
    forallb (fun r => negb (is_teardown_reaction r)) (reactions p) = true ->
    job p this = (p', this', out) ->
    forallb (fun r => negb (is_teardown_reaction r)) (reactions p') = true
    /\ stream this' = stream this
    /\ type this' = type this
    /\ videoType this' = videoType this
    /\ Forall (fun e => tears_down e = false) out.
Proof.
  intros [st rs] this p' this' out HT H. unfold job in H. cbn in HT, H.
  destruct st as [v|e|r].
  - destruct rs as [|[h|h] rest].
    + injection H as <- <- <-. auto.
    + destruct (onFulfilled h v this) as [[c t] o] eqn:Hh.
      injection H as <- <- <-.
      cbn in HT. apply andb_true_iff in HT. destruct HT as [Hh1 Hrest].
      apply negb_true_iff in Hh1.
      destruct (onFulfilled_frame _ _ _ _ _ _ Hh)
        as (Hre & _ & Hty & _ & _ & _ & Hgentle & _).
      destruct (Hgentle Hh1) as (Hs & Hv & _ & Ho).
      cbn. rewrite Hre. cbn. repeat split; auto.
      apply pass_by_forallb. exact Hrest.
    + injection H as <- <- <-. auto.
  - destruct rs as [|[h|h] rest].
    + injection H as <- <- <-. auto.
    + injection H as <- <- <-. auto.
    + destruct (onRejected h e this) as [[c t] o] eqn:Hh.
      injection H as <- <- <-.
      destruct (onRejected_frame _ _ _ _ _ _ Hh) as (-> & -> & ->).
      cbn in HT. cbn. repeat split; auto.
      apply pass_by_forallb. exact HT.
  - injection H as <- <- <-. auto.
Qed.

(** Under local disablement a call builds a chain without teardown
    reactions, makes no effect, keeps the stream and disables or enables the
    native track. *)
Lemma createMuteUnmutePromise_local :
  forall window mute this r this' out,
    cannot_remove_stream window this = true ->
    createMuteUnmutePromise window mute this = (r, this', out) ->
    out = []
    /\ stream this' = stream this
    /\ type this' = type this
    /\ videoType this' = videoType this
    /\ (exists p, r = Normal p
                  /\ forallb (fun r => negb (is_teardown_reaction r))
                             (reactions p) = true)
    /\ (inMuteOrUnmuteProgress this = false -> isMuted this = negb mute ->
        track this' = option_map (set_enabled (negb mute)) (track this)).
Proof.
  intros window mute this r this' out Hpol H.
  rewrite createMuteUnmutePromise_eq, Hpol in H.
  destruct (inMuteOrUnmuteProgress this).
  { injection H as <- <- <-. repeat split; eauto; discriminate. }
  cbv zeta in H.
  destruct (Bool.eqb (isMuted this) mute) eqn:Hm.
  { injection H as <- <- <-. repeat split; eauto.
    intros _ Hneq. apply Bool.eqb_prop in Hm. rewrite Hm in Hneq.
    destruct mute; discriminate. }
  destruct (track this) eqn:Ht, (has_room this);
    injection H as <- <- <-; cbn; repeat split; eauto.
Qed.

(** C4: on an audio track, a desktop-share video track, a page not served
    over https or Firefox, mute() only disables the native track: the call
    makes no effect and keeps the stream, and in every run of calls (other
    than dispose()), promise jobs, collaborator answers and notifications
    that starts with no call pending, the stream stays the same stream and
    neither room.removeStream nor stopMediaStream (nor the re-acquisition of
    a stream) is ever called. *)
Theorem C4_mute_by_local_disablement :
  forall (window : Platform) (w : World) (evs : list Event),
    pending w = [] ->
    (protocol window <> "https:" \/ type (localTrack w) = AUDIO
     \/ videoType (localTrack w) = Some DESKTOP \/ isFirefox window = true) ->
    Forall (fun ev => is_dispose ev = false) evs ->
    (let w1 := step window (Invoke Mute) w in
     log w1 = log w
     /\ stream (localTrack w1) = stream (localTrack w)
     /\ (inMuteOrUnmuteProgress (localTrack w) = false ->
         isMuted (localTrack w) = false ->
         track (localTrack w1)
         = option_map (set_enabled false) (track (localTrack w))
         /\ isMuted (localTrack w1) = true))
    /\
    (let w' := run window evs w in
     option_map id (stream (localTrack w'))
     = option_map id (stream (localTrack w))
     /\ exists out,
         log w' = log w ++ out
         /\ Forall (fun e => tears_down e = false) out).
Proof.
  intros window w evs Hp Hpol Hevs.
  apply cannot_remove_stream_iff in Hpol. split.
  - cbv zeta. cbn [step]. unfold enter, invoke, mute.
    destruct (createMuteUnmutePromise window true (localTrack w))
      as [[r this'] out] eqn:Hc.
    destruct (createMuteUnmutePromise_local _ _ _ _ _ _ Hpol Hc)
      as (-> & Hs & Hty & Hv & _ & Htr).
    cbn. rewrite app_nil_r.
    split; [reflexivity|]. split; [exact Hs|].
    intros Hg Hm. specialize (Htr Hg Hm). cbn in Htr.
    split; [exact Htr|].
    unfold isMuted in *. rewrite Hs, Htr.
    destruct (stream (localTrack w)) as [s|]; [|reflexivity].
    unfold isVideoTrack, getType in *. rewrite Hty.
    destruct (MediaType_eqb (type (localTrack w)) VIDEO && negb (isActive s));
      [reflexivity|].
    destruct (track (localTrack w)); reflexivity.
  - cbv zeta.
    destruct (run_holds window
                (fun this =>
                   cannot_remove_stream window this = true
                   /\ option_map id (stream this)
                      = option_map id (stream (localTrack w)))
                (fun e => tears_down e = false)
                (fun _ p =>
                   forallb (fun r => negb (is_teardown_reaction r))
                           (reactions p) = true)
                (fun ev => is_dispose ev = false)) with (evs := evs) (w := w)
      as [[[_ Hs] _] Hx].
    + intros c this r this' out Hal [H1 H2] Hi.
      destruct c; try discriminate; unfold invoke, mute, unmute in Hi;
        destruct (createMuteUnmutePromise_local _ _ _ _ _ _ H1 Hi)
          as (-> & Hs & Hty & Hv & (p & -> & Hp') & _);
        (split; [split|split]);
        [ rewrite (cannot_remove_stream_ext _ _ _ Hty Hv); exact H1
        | rewrite Hs; exact H2
        | constructor
        | cbn; rewrite app_nil_r; apply pass_by_forallb; exact Hp'
        | rewrite (cannot_remove_stream_ext _ _ _ Hty Hv); exact H1
        | rewrite Hs; exact H2
        | constructor
        | cbn; rewrite app_nil_r; apply pass_by_forallb; exact Hp' ].
    + intros c p this p' this' out HT [H1 H2] Hj.
      destruct (job_without_teardown _ _ _ _ _ HT Hj)
        as (HT' & Hs & Hty & Hv & Ho).
      repeat split; auto.
      * rewrite (cannot_remove_stream_ext _ _ _ Hty Hv). exact H1.
      * rewrite Hs. exact H2.
    + intros c s p HT. cbn. rewrite app_nil_r. apply pass_by_forallb.
      exact HT.
    + intros ev a this r this' out _ Hl [H1 H2] Ha.
      destruct (listener_frame _ _ _ _ _ _ Hl Ha)
        as (_ & Hty & Hv & Hs & _ & _ & Ho & _).
      repeat split; auto.
      * rewrite (cannot_remove_stream_ext _ _ _ Hty Hv). exact H1.
      * rewrite Hs. exact H2.
    + exact Hevs.
    + split; [split; [exact Hpol|reflexivity]|]. rewrite Hp. constructor.
    + split; [exact Hs|exact Hx].
Qed.

Lemma C4_mute_by_local_disablement_witness :
  let w1 := step chrome_https (Invoke Mute) microphone_world in
  let w' :=
    run chrome_https
        [SetConference (Some a_conference); Invoke Mute; Job 0;
         Resolve 0 undefined; Job 0; Job 0; Invoke Unmute; Job 1]
        microphone_world in
  (log w1 = log microphone_world
   /\ stream (localTrack w1) = stream (localTrack microphone_world))
  /\ option_map id (stream (localTrack w'))
     = option_map id (stream (localTrack microphone_world)).
Proof.
  assert (Hevs : Forall (fun ev => is_dispose ev = false)
                   [SetConference (Some a_conference); Invoke Mute; Job 0;
                    Resolve 0 undefined; Job 0; Job 0; Invoke Unmute; Job 1]).
  { repeat constructor. }
  destruct (C4_mute_by_local_disablement chrome_https microphone_world
              [SetConference (Some a_conference); Invoke Mute; Job 0;
               Resolve 0 undefined; Job 0; Job 0; Invoke Unmute; Job 1]
              eq_refl (or_intror (or_introl eq_refl)) Hevs)
    as [(H1 & H2 & _) [H3 _]].
  split; [split; [exact H1|exact H2]|exact H3].
Defined.

(** ** The guard *)

Lemma guarded_cons :
  forall h rest,
    guarded (Then h :: rest) = true ->
    (h = then_clearProgress /\ rest = [Catch catch_clearProgress])
    \/ (h <> then_clearProgress /\ guarded rest = true).
Proof.
  intros h rest H. destruct h; cbn in H;
    try (right; split; [discriminate|exact H]).
  left. split; [reflexivity|].
  destruct rest as [|[h|[]] [|r rest]]; try discriminate. reflexivity.
Qed.

Lemma guarded_head :
  forall rs, guarded rs = true -> exists h rest, rs = Then h :: rest.
Proof.
  intros [|[h|h] rest] H; try discriminate. eauto.
Qed.

Lemma guarded_pass_by :
  forall rs,
    guarded rs = true ->
    (forall v, pass_by (Resolved v) rs = rs)
    /\ (forall r, pass_by (Pending r) rs = rs)
    /\ (forall e, pass_by (Rejected e) rs = [Catch catch_clearProgress]).
Proof.
  intros rs H. split; [|split].
  - intros v. destruct (guarded_head _ H) as (h & rest & ->). reflexivity.
  - intros r. destruct (guarded_head _ H) as (h & rest & ->). reflexivity.
  - intros e. induction rs as [|x rs IH]; [discriminate|].
    destruct x as [h|h]; [|discriminate].
    destruct (guarded_cons _ _ H) as [[-> ->]|[_ Hg]].
    + reflexivity.
    + cbn. apply IH. exact Hg.
Qed.

Lemma releases_not_done :
  forall p, releases p = true -> is_done p = false.
Proof.
  intros [st rs] H. unfold releases in H. unfold is_done. cbn in *.
  destruct st; destruct rs as [|x rs]; try discriminate; reflexivity.
Qed.

(** A job of a transition either keeps the chain and the guard as they are,
    or ends the chain and clears the guard, with success or with the fault
    the chain was rejected with. *)
Lemma job_releases :
  forall p this p' this' out,
    releases p = true ->
    job p this = (p', this', out) ->
    (releases p' = true
     /\ inMuteOrUnmuteProgress this' = inMuteOrUnmuteProgress this)
    \/ (is_done p' = true
        /\ inMuteOrUnmuteProgress this' = false
        /\ (state p' = Resolved undefined
            \/ exists e, state p = Rejected e /\ state p' = Rejected e)).
Proof.
  intros [st rs] this p' this' out Hrel H.
  unfold releases in Hrel. unfold job in H. cbn in Hrel, H.
  destruct st as [v|e|r].
  - destruct (guarded_head _ Hrel) as (h & rest & ->).
    destruct (onFulfilled h v this) as [[c t] o] eqn:Hh.
    injection H as <- <- <-.
    destruct (onFulfilled_frame _ _ _ _ _ _ Hh)
      as (Hre & _ & _ & _ & _ & Hg & _).
    destruct (guarded_cons _ _ Hrel) as [[-> ->]|[Hne Hrest]].
    + right. cbn in Hh. injection Hh as <- <- <-. cbn. auto.
    + left. split.
      * unfold releases, adopt. cbn. rewrite Hre. cbn.
        destruct (guarded_pass_by _ Hrest) as (H1 & H2 & H3).
        destruct (state (settle c)); rewrite ?H1, ?H2, ?H3; auto.
      * rewrite Hg. destruct h; try reflexivity. contradiction Hne.
        reflexivity.
  - destruct rs as [|[h|[]] [|r rs]]; try discriminate.
    cbn in H. injection H as <- <- <-. right. cbn.
    split; [reflexivity|]. split; [reflexivity|]. right. eauto.
  - injection H as <- <- <-. left. auto.
Qed.

(** The answer of a collaborator never ends a transition by itself. *)
Lemma answer_releases :
  forall s p,
    releases p = true ->
    releases (match state p with
              | Pending _ => adopt {| state := s; reactions := reactions p |} []
              | _ => p
              end) = true.
Proof.
  intros s [st rs] H. cbn. destruct st as [v|e|r]; try exact H.
  unfold releases in *. cbn in *. rewrite app_nil_r.
  destruct (guarded_pass_by _ H) as (H1 & H2 & H3).
  destruct s; rewrite ?H1, ?H2, ?H3; auto.
Qed.

(** The reactors the scheduler uses. *)
Lemma reactor_well_chained :
  forall (f : Reactor) c p this p' this' out,
    f = job \/ (exists s, f = answer s) ->
    well_chained c p = true ->
    f p this = (p', this', out) ->
    (is_done p' = false /\ well_chained c p' = true
     /\ inMuteOrUnmuteProgress this' = inMuteOrUnmuteProgress this)
    \/ (is_done p' = true
        /\ inMuteOrUnmuteProgress this'
           = (if is_transition c then false
              else inMuteOrUnmuteProgress this)
        /\ (is_transition c = true ->
            f = job
            /\ (state p' = Resolved undefined
                \/ exists e, state p = Rejected e /\ state p' = Rejected e))).
Proof.
  intros f c p this p' this' out Hf Hwc H.
  assert (Hd : is_transition c = false ->
               match reactions p with
               | [Then then_superDispose] => true
               | _ => false
               end = true).
  { intros Hc. destruct c; try discriminate. exact Hwc. }
  assert (Ht : is_transition c = true -> releases p = true).
  { intros Hc. destruct c; try discriminate; exact Hwc. }
  assert (Hw : forall q, is_transition c = true -> releases q = true ->
                         well_chained c q = true).
  { intros q Hc Hq. destruct c; try discriminate; exact Hq. }
  destruct (is_transition c) eqn:Hc.
  - specialize (Ht eq_refl). destruct Hf as [->|[s ->]].
    + destruct (job_releases _ _ _ _ _ Ht H) as [[Hr Hg]|(Hdone & Hg & Hs)].
      * left. split; [apply releases_not_done; exact Hr|]. auto.
      * right. auto.
    + rewrite answer_eq in H. injection H as <- <- <-.
      pose proof (answer_releases s p Ht) as Hr.
      left. split; [apply releases_not_done; exact Hr|]. auto.
  - specialize (Hd eq_refl). destruct c; try discriminate.
    destruct p as [st rs]. cbn in Hd.
    destruct rs as [|[[]|] [|r rs]]; try discriminate.
    destruct Hf as [->|[s ->]].
    + unfold job in H. cbn in H. destruct st as [v|e|r].
      * injection H as <- <- <-. right. cbn.
        repeat split; auto; try discriminate.
      * injection H as <- <- <-. left. cbn. auto.
      * injection H as <- <- <-. left. cbn. auto.
    + rewrite answer_eq in H. cbn in H. injection H as <- <- <-.
      destruct st as [v|e|r]; try (left; cbn; auto; fail).
      destruct s as [v|e|r']; cbn.
      * left. auto.
      * right. repeat split; auto; try discriminate.
      * left. auto.
Qed.

(** ** The scheduler invariant *)

Lemma Inv_deliver :
  forall (f : Reactor) (n : nat) (w : World),
    f = job \/ (exists s, f = answer s) ->
    Inv w -> Inv (deliver n f w).
Proof.
  intros f n w Hf [Hch Hnum Hnd Hg]. unfold deliver.
  destruct (advance_cases n f (pending w) (localTrack w))
    as [[_ Heq]|(l1 & t & l2 & p' & this' & out
                 & Hts & Hid & Hl1 & Hfeq & Heq)];
    rewrite Heq.
  - constructor; assumption.
  - unfold transitions in Hg. rewrite Hts in Hch, Hnum, Hnd, Hg.
    apply Forall_app in Hch. destruct Hch as [Hch1 Hch2].
    pose proof (Forall_inv Hch2) as Hct. cbv beta in Hct.
    apply Forall_inv_tail in Hch2.
    apply Forall_app in Hnum. destruct Hnum as [Hnum1 Hnum2].
    pose proof (Forall_inv Hnum2) as Hnt. cbv beta in Hnt.
    apply Forall_inv_tail in Hnum2.
    subst n.
    rewrite filter_app in Hg. cbn [filter] in Hg.
    destruct (reactor_well_chained f _ _ _ _ _ _ Hf Hct Hfeq)
      as [(Hnd' & Hwc & Hgd)|(Hd & Hgd & _)].
    + rewrite Hnd'. constructor; cbn [pending localTrack calls].
      * apply Forall_app. split; [assumption|].
        constructor; assumption.
      * apply Forall_app. split; [assumption|].
        constructor; assumption.
      * rewrite map_app in *. exact Hnd.
      * unfold transitions. cbn [pending localTrack].
        rewrite filter_app. cbn [filter app call_of]. rewrite Hgd.
        rewrite length_app in *.
        destruct (is_transition (call_of t)); cbn [length] in *; exact Hg.
    + rewrite Hd. constructor; cbn [pending localTrack calls app].
      * apply Forall_app. split; assumption.
      * apply Forall_app. split; assumption.
      * rewrite map_app in *. cbn [map] in Hnd.
        apply NoDup_remove_1 in Hnd. exact Hnd.
      * unfold transitions. cbn [pending localTrack].
        rewrite filter_app. rewrite Hgd.
        destruct (is_transition (call_of t)).
        -- rewrite length_app in *. cbn [length] in Hg.
           destruct (inMuteOrUnmuteProgress (localTrack w)); lia.
        -- exact Hg.
Qed.

Lemma Inv_notify :
  forall ev a w, listener ev = Some a -> Inv w -> Inv (notify a w).
Proof.
  intros ev a w Hl [Hch Hnum Hnd Hg]. unfold notify.
  destruct (a (localTrack w)) as [[r this'] out] eqn:Ha.
  destruct (listener_frame _ _ _ _ _ _ Hl Ha) as (Hgd & _).
  constructor; try assumption.
  unfold transitions in *. cbn [pending localTrack]. rewrite Hgd. exact Hg.
Qed.

Lemma Inv_enter :
  forall window c w, Inv w -> Inv (enter window c w).
Proof.
  intros window c w [Hch Hnum Hnd Hg]. unfold enter.
  assert (Hnum' : Forall (fun t => task t < S (calls w)) (pending w)).
  { eapply Forall_impl; [|exact Hnum]. cbn. intros. lia. }
  assert (Hfresh : ~ In (calls w) (map task (pending w))).
  { intros Hin. apply in_map_iff in Hin. destruct Hin as (t & Ht & Hin).
    rewrite Forall_forall in Hnum. specialize (Hnum t Hin). lia. }
  assert (Hadd :
            forall this' p,
              is_done p = false ->
              well_chained c p = true ->
              length (filter (fun t => is_transition (call_of t)) (pending w))
              + (if is_transition c then 1 else 0)
              = (if inMuteOrUnmuteProgress this' then 1 else 0) ->
              forall out,
              Inv {| localTrack := this';
                     pending := pending w
                                ++ [{| task := calls w; call_of := c;
                                       promise := p |}];
                     outcomes := outcomes w; log := out;
                     calls := S (calls w) |}).
  { intros this' p Hd Hwc Hcount out.
    constructor; cbn [pending localTrack calls].
    - apply Forall_app. split; [assumption|]. repeat constructor. exact Hwc.
    - apply Forall_app. split; [assumption|]. repeat constructor.
    - rewrite map_app. cbn. apply NoDup_app; [exact Hnd| |].
      + repeat constructor. intros [].
      + intros a Ha [<-|[]]. exact (Hfresh Ha).
    - unfold transitions. cbn [pending localTrack]. rewrite filter_app.
      rewrite length_app. cbn [filter call_of].
      rewrite <- Hcount. destruct (is_transition c); reflexivity. }
  assert (Hsame :
            forall this' out outc,
              inMuteOrUnmuteProgress this'
              = inMuteOrUnmuteProgress (localTrack w) ->
              Inv {| localTrack := this'; pending := pending w;
                     outcomes := outc; log := out; calls := S (calls w) |}).
  { intros this' out outc Hgd. constructor; cbn; try assumption.
    unfold transitions in *. cbn. rewrite Hgd. exact Hg. }
  unfold transitions in Hg.
  destruct c.
  - unfold invoke, mute. rewrite createMuteUnmutePromise_eq.
    destruct (inMuteOrUnmuteProgress (localTrack w)) eqn:Hgd.
    { cbn. apply Hsame. exact Hgd. }
    cbv zeta.
    destruct (Bool.eqb (isMuted (localTrack w)) true).
    { cbn. apply Hadd; try reflexivity. cbn. rewrite Hg. reflexivity. }
    destruct (cannot_remove_stream window (localTrack w)).
    { cbn. apply Hadd; try reflexivity. cbn. rewrite Hg.
      destruct (track (localTrack w)), (has_room (localTrack w)); reflexivity. }
    destruct (has_room (localTrack w)); cbn;
      (apply Hadd; [reflexivity|reflexivity|cbn; rewrite Hg; reflexivity]).
  - unfold invoke, unmute. rewrite createMuteUnmutePromise_eq.
    destruct (inMuteOrUnmuteProgress (localTrack w)) eqn:Hgd.
    { cbn. apply Hsame. exact Hgd. }
    cbv zeta.
    destruct (Bool.eqb (isMuted (localTrack w)) false).
    { cbn. apply Hadd; try reflexivity. cbn. rewrite Hg. reflexivity. }
    destruct (cannot_remove_stream window (localTrack w)).
    { cbn. apply Hadd; try reflexivity. cbn. rewrite Hg.
      destruct (track (localTrack w)), (has_room (localTrack w)); reflexivity. }
    destruct (has_room (localTrack w)); cbn;
      (apply Hadd; [reflexivity|reflexivity|cbn; rewrite Hg; reflexivity]).
  - unfold invoke. rewrite dispose_eq.
    destruct (is_undefined (conference (localTrack w)));
      cbn; (apply Hadd; [reflexivity|reflexivity|]);
      cbn; rewrite Nat.add_0_r, Hg;
      destruct (is_undefined (stream (localTrack w))); reflexivity.
Qed.

Lemma Inv_step :
  forall window ev w, Inv w -> Inv (step window ev w).
Proof.
  intros window ev w H.
  destruct ev as [c|n|n v|n e|devs|c|sid| ]; cbn [step].
  - apply Inv_enter. exact H.
  - apply Inv_deliver; auto.
  - apply Inv_deliver; eauto.
  - apply Inv_deliver; eauto.
  - apply (Inv_notify (DeviceListChanged devs)); [reflexivity|exact H].
  - apply (Inv_notify (SetConference c)); [reflexivity|exact H].
  - apply (Inv_notify (StreamInactive sid)); [reflexivity|exact H].
  - apply (Inv_notify TrackEnded); [reflexivity|exact H].
Qed.

Lemma Inv_run :
  forall window evs w, Inv w -> Inv (run window evs w).
Proof.
  intros window evs. induction evs as [|ev evs IH]; intros w H.
  - exact H.
  - cbn. apply IH. apply Inv_step. exact H.
Qed.

Lemma Inv_idle :
  forall w,
    pending w = [] -> inMuteOrUnmuteProgress (localTrack w) = false -> Inv w.
Proof.
  intros w Hp Hg. constructor; unfold transitions; rewrite Hp.
  - constructor.
  - constructor.
  - constructor.
  - rewrite Hg. reflexivity.
Qed.

Lemma advance_here :
  forall (f : Reactor) (t : Task) (l1 l2 : list Task)
         (this this' : JitsiLocalTrack) (p' : Promise) (out : list Effect),
    Forall (fun x => task x <> task t) l1 ->
    f (promise t) this = (p', this', out) ->
    advance (task t) f (l1 ++ t :: l2) this
    = (l1 ++ (if is_done p' then []
              else [{| task := task t; call_of := call_of t;
                       promise := p' |}]) ++ l2,
       this', out,
       if is_done p' then [(task t, state p')] else []).
Proof.
  intros f t l1 l2 this this' p' out Hl1 Hf.
  induction l1 as [|x l1 IH]; cbn.
  - rewrite Nat.eqb_refl, Hf. destruct (is_done p'); reflexivity.
  - pose proof (Forall_inv Hl1) as Hx. cbv beta in Hx.
    apply Nat.eqb_neq in Hx. rewrite Hx.
    rewrite (IH (Forall_inv_tail Hl1)). reflexivity.
Qed.

Lemma NoDup_before :
  forall (t : Task) (l1 l2 : list Task),
    NoDup (map task (l1 ++ t :: l2)) ->
    Forall (fun x => task x <> task t) l1.
Proof.
  intros t l1 l2 H. rewrite map_app in H. cbn in H.
  apply NoDup_remove_2 in H. apply Forall_forall. intros x Hx Heq.
  apply H. apply in_or_app. left. rewrite <- Heq. apply in_map. exact Hx.
Qed.

Lemma enter_keeps_pending :
  forall window c w t,
    In t (pending w) -> In t (pending (enter window c w)).
Proof.
  intros window c w t H. unfold enter.
  destruct (invoke window c (localTrack w)) as [[r this'] out].
  cbn. destruct (is_done (adopt (settle r) [])); [exact H|].
  apply in_or_app. left. exact H.
Qed.

(** When a reaction takes a transition off the pending list, the guard is
    free and the caller has its answer. *)
Lemma deliver_completes :
  forall (f : Reactor) (n : nat) (w : World) (t : Task),
    f = job \/ (exists s, f = answer s) ->
    Inv w ->
    In t (transitions w) ->
    ~ In (task t) (map task (pending (deliver n f w))) ->
    inMuteOrUnmuteProgress (localTrack (deliver n f w)) = false
    /\ exists s,
        outcomes (deliver n f w) = outcomes w ++ [(task t, s)]
        /\ (s = Resolved undefined
            \/ exists e, s = Rejected e /\ state (promise t) = Rejected e).
Proof.
  intros f n w t Hf [Hch _ _ _] Ht Hgone.
  unfold transitions in Ht. apply filter_In in Ht. destruct Ht as [Hin Htr].
  unfold deliver in *.
  destruct (advance_cases n f (pending w) (localTrack w))
    as [[_ Heq]|(l1 & t0 & l2 & p' & this' & out
                 & Hts & Hid & Hl1 & Hfeq & Heq)];
    rewrite Heq in *; cbn [pending localTrack outcomes] in *.
  - contradiction Hgone. apply in_map. exact Hin.
  - assert (Ht0 : t = t0).
    { rewrite Hts in Hin. apply in_app_or in Hin.
      destruct Hin as [Hin|[Hin|Hin]].
      - contradiction Hgone. apply in_map. apply in_or_app. left. exact Hin.
      - symmetry. exact Hin.
      - contradiction Hgone. apply in_map. apply in_or_app. right.
        apply in_or_app. right. exact Hin. }
    subst t0. rewrite Hts in Hch. apply Forall_app in Hch.
    destruct Hch as [_ Hch]. pose proof (Forall_inv Hch) as Hct.
    cbv beta in Hct.
    destruct (reactor_well_chained f _ _ _ _ _ _ Hf Hct Hfeq)
      as [(Hnd & _ & _)|(Hd & Hgd & Hkind)].
    + rewrite Hnd in Hgone. contradiction Hgone.
      rewrite !map_app. apply in_or_app. right. cbn. left. symmetry.
      exact Hid.
    + rewrite Hd. rewrite Htr in Hgd. split; [exact Hgd|].
      exists (state p'). subst n. split; [reflexivity|].
      destruct (Hkind Htr) as [_ [Hs|(e & He & He')]].
      * left. exact Hs.
      * right. exists e. auto.
Qed.

(** ** C1 *)

(** C1: in every run that starts with no call pending and the guard free, at
    most one mute/unmute transition is in flight and the guard is held
    exactly while one is; a mute() or unmute() issued meanwhile is rejected
    with TRACK_MUTE_UNMUTE_IN_PROGRESS at once and changes neither the track
    object nor the pending chains nor the log; the step that completes a
    transition leaves the guard cleared and hands the caller success or the
    fault the chain was rejected with; a fault a collaborator answers with
    reaches the caller unchanged, with the guard cleared; and a transition
    whose work is done succeeds with its next job, with the guard cleared. *)
Theorem C1_one_transition_in_flight :
  forall (window : Platform) (w : World) (evs : list Event),
    pending w = [] ->
    inMuteOrUnmuteProgress (localTrack w) = false ->
    let w' := run window evs w in
    length (transitions w') <= 1
    /\ (inMuteOrUnmuteProgress (localTrack w') = true <-> transitions w' <> [])
    /\ (forall c,
           is_transition c = true -> transitions w' <> [] ->
           step window (Invoke c) w'
           = {| localTrack := localTrack w'; pending := pending w';
                outcomes :=
                  outcomes w'
                  ++ [(calls w',
                       Rejected (JitsiTrackError TRACK_MUTE_UNMUTE_IN_PROGRESS))];
                log := log w'; calls := S (calls w') |})
    /\ (forall ev t,
           In t (transitions w') ->
           ~ In (task t) (map task (pending (step window ev w'))) ->
           inMuteOrUnmuteProgress (localTrack (step window ev w')) = false
           /\ exists s,
               outcomes (step window ev w') = outcomes w' ++ [(task t, s)]
               /\ (s = Resolved undefined
                   \/ exists e, s = Rejected e
                                /\ state (promise t) = Rejected e))
    /\ (forall t r e,
           In t (transitions w') -> state (promise t) = Pending r ->
           let w'' := run window [Reject (task t) e; Job (task t)] w' in
           outcomes w'' = outcomes w' ++ [(task t, Rejected e)]
           /\ inMuteOrUnmuteProgress (localTrack w'') = false
           /\ transitions w'' = [])
    /\ (forall t v,
           In t (transitions w') ->
           promise t = {| state := Resolved v;
                          reactions := [Then then_clearProgress;
                                        Catch catch_clearProgress] |} ->
           let w'' := step window (Job (task t)) w' in
           outcomes w'' = outcomes w' ++ [(task t, Resolved undefined)]
           /\ inMuteOrUnmuteProgress (localTrack w'') = false
           /\ transitions w'' = []).
Proof.
  intros window w evs Hp Hg w'.
  assert (HI : Inv w') by (apply Inv_run, Inv_idle; assumption).
  assert (Hheld : transitions w' <> [] ->
                  inMuteOrUnmuteProgress (localTrack w') = true).
  { intros Hne. destruct HI as [_ _ _ Hcount].
    destruct (inMuteOrUnmuteProgress (localTrack w')); [reflexivity|].
    destruct (transitions w'); [contradiction Hne; reflexivity|discriminate]. }
  split; [|split; [|split; [|split; [|split]]]].
  - destruct HI as [_ _ _ Hcount]. rewrite Hcount.
    destruct (inMuteOrUnmuteProgress (localTrack w')); lia.
  - split; [|exact Hheld].
    intros Hgd Hnil. destruct HI as [_ _ _ Hcount].
    rewrite Hgd, Hnil in Hcount. discriminate.
  - intros c Hc Hne. apply call_while_guard_held; auto.
  - intros ev t Ht Hgone.
    assert (Hin : In t (pending w')).
    { unfold transitions in Ht. apply filter_In in Ht. tauto. }
    destruct ev as [c|n|n v|n e|devs|c|sid| ]; cbn [step] in *;
      try (apply deliver_completes; eauto; fail).
    + contradiction Hgone. apply in_map. apply enter_keeps_pending. exact Hin.
    + contradiction Hgone. unfold notify.
      destruct (_onDeviceListChanged devs (localTrack w')) as [[? ?] ?].
      apply in_map. exact Hin.
    + contradiction Hgone. unfold notify.
      destruct (_setConference c (localTrack w')) as [[? ?] ?].
      apply in_map. exact Hin.
    + contradiction Hgone. unfold notify.
      destruct (stream_inactive sid (localTrack w')) as [[? ?] ?].
      apply in_map. exact Hin.
    + contradiction Hgone. unfold notify.
      destruct (track_ended (localTrack w')) as [[? ?] ?].
      apply in_map. exact Hin.
  - intros t r e Ht Hst w''.
    assert (HI'' : Inv w'') by (apply Inv_run; exact HI).
    unfold transitions in Ht. apply filter_In in Ht. destruct Ht as [Hin Htr].
    destruct (in_split _ _ Hin) as (l1 & l2 & Hts).
    pose proof HI as [Hch _ Hnd _].
    rewrite Hts in Hch, Hnd.
    pose proof (NoDup_before _ _ _ Hnd) as Hl1.
    apply Forall_app in Hch. destruct Hch as [_ Hch].
    pose proof (Forall_inv Hch) as Hct. cbv beta in Hct.
    assert (Hrel : releases (promise t) = true).
    { destruct (call_of t); try discriminate; exact Hct. }
    unfold releases in Hrel. rewrite Hst in Hrel.
    destruct (guarded_pass_by _ Hrel) as (_ & _ & Hrej).
    assert (E : w''
                = {| localTrack :=
                       set_inMuteOrUnmuteProgress false (localTrack w');
                     pending := l1 ++ l2;
                     outcomes := outcomes w' ++ [(task t, Rejected e)];
                     log := log w'; calls := calls w' |}).
    { assert (Ha : adopt {| state := Rejected e;
                            reactions := reactions (promise t) |} []
                   = {| state := Rejected e;
                        reactions := [Catch catch_clearProgress] |}).
      { unfold adopt. cbn. rewrite app_nil_r, Hrej. reflexivity. }
      unfold w''. cbn [run fold_left step]. unfold deliver at 2.
      rewrite Hts.
      erewrite advance_here;
        [|exact Hl1|rewrite answer_eq, Hst; reflexivity].
      rewrite Ha. cbn [is_done reactions state]. unfold deliver.
      cbn [pending localTrack outcomes log calls app].
      erewrite (advance_here job
                  {| task := task t; call_of := call_of t;
                     promise := {| state := Rejected e;
                                   reactions := [Catch catch_clearProgress] |}
                  |});
        [|exact Hl1|reflexivity].
      cbn. rewrite !app_nil_r. reflexivity. }
    split; [rewrite E; reflexivity|]. split; [rewrite E; reflexivity|].
    destruct HI'' as [_ _ _ Hcount]. rewrite E in Hcount. cbn in Hcount.
    rewrite E. unfold transitions in *. cbn in *.
    destruct (filter (fun t0 => is_transition (call_of t0)) (l1 ++ l2));
      [reflexivity|discriminate].
  - intros t v Ht Hpr w''.
    assert (HI'' : Inv w'') by (apply Inv_step; exact HI).
    unfold transitions in Ht. apply filter_In in Ht. destruct Ht as [Hin Htr].
    destruct (in_split _ _ Hin) as (l1 & l2 & Hts).
    pose proof HI as [_ _ Hnd _]. rewrite Hts in Hnd.
    pose proof (NoDup_before _ _ _ Hnd) as Hl1.
    assert (E : w''
                = {| localTrack :=
                       set_inMuteOrUnmuteProgress false (localTrack w');
                     pending := l1 ++ l2;
                     outcomes := outcomes w' ++ [(task t, Resolved undefined)];
                     log := log w'; calls := calls w' |}).
    { unfold w''. cbn [step]. unfold deliver. rewrite Hts.
      erewrite advance_here; [|exact Hl1|rewrite Hpr; reflexivity].
      cbn. rewrite !app_nil_r. reflexivity. }
    split; [rewrite E; reflexivity|]. split; [rewrite E; reflexivity|].
    destruct HI'' as [_ _ _ Hcount]. rewrite E in Hcount. cbn in Hcount.
    rewrite E. unfold transitions in *. cbn in *.
    destruct (filter (fun t0 => is_transition (call_of t0)) (l1 ++ l2));
      [reflexivity|discriminate].
Qed.

Lemma C1_one_transition_in_flight_witness :
  let w' := run chrome_https [Invoke Mute] camera_in_conference in
  length (transitions w') <= 1
  /\ step chrome_https (Invoke Unmute) w'
     = {| localTrack := localTrack w'; pending := pending w';
          outcomes :=
            outcomes w'
            ++ [(calls w',
                 Rejected (JitsiTrackError TRACK_MUTE_UNMUTE_IN_PROGRESS))];
          log := log w'; calls := S (calls w') |}.
Proof.
  destruct (C1_one_transition_in_flight chrome_https camera_in_conference
              [Invoke Mute] eq_refl eq_refl)
    as (H1 & _ & H3 & _ & _ & _).
  split; [exact H1|]. apply H3; [reflexivity|].
  vm_compute. discriminate.
Defined.

(** ** Notification and event *)

Lemma mute_status_sent_ext :
  forall this this' mute,
    conference this' = conference this -> type this' = type this ->
    mute_status_sent this' mute = mute_status_sent this mute.
Proof.
  intros this this' mute Hc Ht.
  unfold mute_status_sent, has_room, isAudioTrack, getType.
  rewrite Hc, Ht. reflexivity.
Qed.





Lemma run_cons :
  forall window ev evs w,
    run window (ev :: evs) w = run window evs (step window ev w).
Proof.
  reflexivity.
Qed.

Lemma run_nil : forall window w, run window [] w = w.
Proof.
  reflexivity.
Qed.


Lemma run_app :
  forall window evs1 evs2 w,
    run window (evs1 ++ evs2) w = run window evs2 (run window evs1 w).
Proof.
  intros window evs1 evs2 w. unfold run. apply fold_left_app.
Qed.

Lemma Inv_start :
  forall window stream track mediaType videoType resolution deviceId
         facingMode,
    Inv (start window stream track mediaType videoType resolution deviceId
               facingMode).
Proof.
  intros. apply Inv_idle; reflexivity.
Qed.















(** * Further properties of the code *)

(** ** Device identity, continued *)

(** X1: right after construction getDeviceId() is the device id the track was
    requested with, the empty default included: the constructor leaves
    [_realDeviceId] undefined for "" and getDeviceId falls back. *)
Theorem getDeviceId_of_new_track :
  forall (window : Platform) (stream : option MediaStream)
         (track : option MediaStreamTrack) (mediaType : MediaType)
         (videoType : option VideoType) (resolution : nat) (deviceId : string)
         (facingMode : Nullable CameraFacingMode),
    getDeviceId
      (fst (new_JitsiLocalTrack window stream track mediaType videoType
              resolution deviceId facingMode))
    = deviceId.
Proof.
  intros window stream track mediaType videoType resolution deviceId
         facingMode.
  unfold getDeviceId, new_JitsiLocalTrack. cbn.
  destruct (String.eqb deviceId "") eqn:E; cbn; [reflexivity|].
  rewrite E. reflexivity.
Qed.

(** What the DEVICE_LIST_CHANGED listener leaves in the other fields. *)
Lemma _onDeviceListChanged_eq :
  forall devices this,
    let rid :=
      match getTrack this with
      | Some tr =>
          match find (is_input_of tr) devices with
          | Some d => Some (device_deviceId d)
          | None => _realDeviceId this
          end
      | None => _realDeviceId this
      end in
    let lost :=
      match getTrack this with
      | Some tr =>
          is_undefined (readyState tr)
          && negb (is_undefined rid)
          && is_undefined
               (find (fun d => strict_eq String.eqb rid (device_deviceId d))
                     devices)
      | None => false
      end in
    snd (fst (_onDeviceListChanged devices this))
    = (if lost then set_trackEnded true else fun t => t)
        (set_realDeviceId rid this)
    /\ snd (_onDeviceListChanged devices this) = [].
Proof.
  intros devices this.
  unfold _onDeviceListChanged, _setRealDeviceIdFromDeviceList, when.
  rewrite bind_assoc, bind_get. unfold getTrack.
  destruct (track this) as [tr|] eqn:Ht.
  - destruct (find (is_input_of tr) devices) as [d|].
    + rewrite bind_modify, bind_get. cbn [track set_realDeviceId]. rewrite Ht.
      cbn.
      match goal with
      | |- context [if ?b then _ else _] => destruct b
      end; cbn; split; reflexivity.
    + rewrite bind_ret, bind_get. rewrite Ht. cbn.
      match goal with
      | |- context [if ?b then _ else _] => destruct b
      end; cbn; split; try reflexivity;
        destruct this; cbn in *; reflexivity.
  - destruct devices; cbn; rewrite ?Ht; cbn; (split; [|reflexivity]);
      destruct this; reflexivity.
Qed.

(** X2: after a device-list-changed notification getDeviceId() is the device
    id of the first entry that matches the native track by kind and label,
    unless that id is empty, in which case (as when nothing matches and
    nothing was resolved before) it falls back to what it was: the requested
    device id. *)
Theorem getDeviceId_after_device_list :
  forall (window : Platform) (w : World) (devices : list MediaDeviceInfo)
         (tr : MediaStreamTrack),
    track (localTrack w) = Some tr ->
    let this' := localTrack (step window (DeviceListChanged devices) w) in
    (forall d, find (is_input_of tr) devices = Some d ->
               getDeviceId this'
               = if String.eqb (device_deviceId d) ""
                 then deviceId (localTrack w) else device_deviceId d)
    /\ (find (is_input_of tr) devices = None ->
        getDeviceId this' = getDeviceId (localTrack w)).
Proof.
  intros window w devices tr Ht this'.
  assert (E : this' = snd (fst (_onDeviceListChanged devices (localTrack w)))).
  { unfold this'. cbn [step]. unfold notify.
    destruct (_onDeviceListChanged devices (localTrack w)) as [[c t] o].
    reflexivity. }
  destruct (_onDeviceListChanged_eq devices (localTrack w)) as [Hs _].
  cbv zeta in Hs. unfold getTrack in Hs. rewrite Ht in Hs.
  rewrite E, Hs. split.
  - intros d Hd. rewrite Hd.
    match goal with
    | |- context [if ?b then set_trackEnded true else _] => destruct b
    end; reflexivity.
  - intros Hd. rewrite Hd.
    match goal with
    | |- context [if ?b then set_trackEnded true else _] => destruct b
    end; unfold getDeviceId; reflexivity.
Qed.

Lemma getDeviceId_after_device_list_witness :
  getDeviceId
    (localTrack (step chrome_https (DeviceListChanged a_device_list)
                      camera_world))
  = "cam-1"
  /\ getDeviceId
       (localTrack
          (step chrome_https
                (DeviceListChanged
                   [ {| device_deviceId := ""; device_kind := "videoinput";
                        device_label := "HD Webcam" |} ])
                camera_world))
     = "".
Proof.
  split.
  - apply (proj1 (getDeviceId_after_device_list chrome_https camera_world
                    a_device_list camera_track eq_refl)
                 {| device_deviceId := "cam-1"; device_kind := "videoinput";
                    device_label := "HD Webcam" |}).
    reflexivity.
  - apply (proj1 (getDeviceId_after_device_list chrome_https camera_world
                    [ {| device_deviceId := ""; device_kind := "videoinput";
                         device_label := "HD Webcam" |} ]
                    camera_track eq_refl)
                 {| device_deviceId := ""; device_kind := "videoinput";
                    device_label := "HD Webcam" |}).
    reflexivity.
Defined.

(** ** Ended detection *)

Lemma step_DeviceListChanged_track :
  forall window w devices,
    localTrack (step window (DeviceListChanged devices) w)
    = snd (fst (_onDeviceListChanged devices (localTrack w)))
    /\ log (step window (DeviceListChanged devices) w) = log w
    /\ pending (step window (DeviceListChanged devices) w) = pending w.
Proof.
  intros window w devices. cbn [step]. unfold notify.
  destruct (_onDeviceListChanged_eq devices (localTrack w)) as [_ Ho].
  destruct (_onDeviceListChanged devices (localTrack w)) as [[c t] o].
  cbn in *. subst o. rewrite app_nil_r. auto.
Qed.

Lemma find_by_id_of_member :
  forall (d : MediaDeviceInfo) (devices : list MediaDeviceInfo),
    In d devices ->
    find (fun d' => strict_eq String.eqb (Some (device_deviceId d))
                      (device_deviceId d'))
         devices <> None.
Proof.
  intros d devices Hin Hnone.
  pose proof (find_none _ _ Hnone d Hin) as H. cbn in H.
  rewrite String.eqb_refl in H. discriminate.
Qed.

(** X3: the device-list heuristic never marks a track ended when the browser
    reports readyState, when the track still uses the unresolved default
    device and no entry matches it, or when the list still has an entry that
    matches the native track by kind and label. *)
Theorem device_list_does_not_end_track :
  forall (window : Platform) (w : World) (devices : list MediaDeviceInfo)
         (tr : MediaStreamTrack),
    track (localTrack w) = Some tr ->
    readyState tr <> None
    \/ (_realDeviceId (localTrack w) = None
        /\ find (is_input_of tr) devices = None)
    \/ find (is_input_of tr) devices <> None ->
    _trackEnded (localTrack (step window (DeviceListChanged devices) w))
    = _trackEnded (localTrack w).
Proof.
  intros window w devices tr Ht H.
  destruct (step_DeviceListChanged_track window w devices) as (-> & _ & _).
  destruct (_onDeviceListChanged_eq devices (localTrack w)) as [-> _].
  cbv zeta. unfold getTrack. rewrite Ht.
  destruct H as [H|[[H1 H2]|H]].
  - destruct (readyState tr); [|contradiction H; reflexivity].
    cbn. destruct (find (is_input_of tr) devices); reflexivity.
  - rewrite H2, H1. cbn. rewrite andb_false_r. reflexivity.
  - destruct (find (is_input_of tr) devices) as [d|] eqn:Hf;
      [|contradiction H; reflexivity].
    destruct (find_some _ _ Hf) as [Hin _].
    pose proof (find_by_id_of_member d devices Hin) as Hid.
    destruct (find (fun d0 => strict_eq String.eqb (Some (device_deviceId d))
                                (device_deviceId d0)) devices);
      [|contradiction Hid; reflexivity].
    cbn. rewrite andb_false_r. reflexivity.
Qed.

Lemma device_list_does_not_end_track_witness :
  _trackEnded
    (localTrack (step chrome_https (DeviceListChanged []) camera_world))
  = false
  /\ _trackEnded
       (localTrack (step chrome_https (DeviceListChanged a_device_list)
                         legacy_microphone_world))
     = false.
Proof.
  split.
  - apply (device_list_does_not_end_track chrome_https camera_world []
             camera_track eq_refl).
    left. discriminate.
  - apply (device_list_does_not_end_track chrome_https legacy_microphone_world
             a_device_list (set_readyState None microphone_track) eq_refl).
    right. right. discriminate.
Defined.

(** X4: on a browser without readyState, a track with a resolved device id
    is marked ended by a device list that has neither an entry matching the
    native track by kind and label nor an entry with that device id; from
    then on isEnded() is true. *)
Theorem device_list_ends_unplugged_track :
  forall (window : Platform) (w : World) (devices : list MediaDeviceInfo)
         (tr : MediaStreamTrack) (rid : string),
    track (localTrack w) = Some tr ->
    readyState tr = None ->
    _realDeviceId (localTrack w) = Some rid ->
    (forall d, In d devices ->
               is_input_of tr d = false /\ device_deviceId d <> rid) ->
    let this' := localTrack (step window (DeviceListChanged devices) w) in
    _trackEnded this' = true
    /\ isEnded this' = Normal true
    /\ _realDeviceId this' = Some rid.
Proof.
  intros window w devices tr rid Ht Hrs Hrid Hno this'. unfold this'.
  destruct (step_DeviceListChanged_track window w devices) as (-> & _ & _).
  destruct (_onDeviceListChanged_eq devices (localTrack w)) as [-> _].
  cbv zeta. unfold getTrack. rewrite Ht.
  rewrite (find_none_of_all (is_input_of tr) devices)
    by (intros d Hd; apply (Hno d Hd)).
  rewrite Hrid, Hrs.
  rewrite (find_none_of_all
             (fun d => strict_eq String.eqb (Some rid) (device_deviceId d))
             devices).
  - cbn. unfold isEnded, getTrack. cbn. rewrite Ht, Hrs. auto.
  - intros d Hd. cbn. apply String.eqb_neq. intros Heq.
    apply (proj2 (Hno d Hd)). symmetry. exact Heq.
Qed.

Lemma device_list_ends_unplugged_track_witness :
  isEnded
    (localTrack
       (step chrome_https
             (DeviceListChanged
                [ {| device_deviceId := "cam-1"; device_kind := "videoinput";
                     device_label := "HD Webcam" |} ])
             legacy_microphone_world))
  = Normal true.
Proof.
  apply (device_list_ends_unplugged_track chrome_https legacy_microphone_world
           [ {| device_deviceId := "cam-1"; device_kind := "videoinput";
                device_label := "HD Webcam" |} ]
           (set_readyState None microphone_track) "mic-1" eq_refl eq_refl
           eq_refl).
  intros d [<-|[]]. split; [reflexivity|discriminate].
Defined.

(** ** Camera facing mode *)

(** X5: getCameraFacingMode() of a track that is not a camera video track is
    undefined.  For a camera track a facingMode key of the native settings is
    returned whatever is stored under it, undefined and null included;
    when getSettings() throws, is missing, returns nothing or a settings
    object without that key, or when there is no native track, the mode
    recorded at construction is returned unless it is undefined (a null is
    returned as it is), and USER is the last resort.  So a camera track
    reports undefined exactly when its settings have an undefined
    facingMode. *)
Theorem getCameraFacingMode_resolution :
  forall this : JitsiLocalTrack,
    let reported :=
      match track this with
      | Some tr => getSettings tr
      | None => None
      end in
    (getCameraFacingMode this = js_undefined
     <-> ~ (type this = VIDEO /\ videoType this = Some CAMERA)
         \/ reported = Some (Some js_undefined))
    /\ (type this = VIDEO -> videoType this = Some CAMERA ->
        (forall v, reported = Some (Some v) -> getCameraFacingMode this = v)
        /\ (reported = None \/ reported = Some None ->
            getCameraFacingMode this
            = match _facingMode this with
              | js_undefined => js_value USER
              | v => v
              end)).
Proof.
  intros this reported.
  unfold getCameraFacingMode, isVideoTrack, getType. fold reported. split.
  - split.
    + intros H.
      destruct (type this); [left; intros [Hty _]; discriminate|].
      destruct (videoType this) as [[|]|];
        try (left; intros [_ Hv]; discriminate).
      cbn in H. destruct reported as [[v|]|].
      * right. rewrite H. reflexivity.
      * destruct (_facingMode this); discriminate.
      * destruct (_facingMode this); discriminate.
    + intros [H|H].
      * destruct (type this); [reflexivity|].
        destruct (videoType this) as [[|]|]; try reflexivity.
        contradiction H. auto.
      * rewrite H.
        destruct (MediaType_eqb (type this) VIDEO
                  && strict_eq VideoType_eqb (videoType this) CAMERA);
          reflexivity.
  - intros Hty Hv. rewrite Hty, Hv. cbn. split.
    + intros v Hs. rewrite Hs. reflexivity.
    + intros [-> | ->]; reflexivity.
Qed.

Lemma getCameraFacingMode_resolution_witness :
  getCameraFacingMode (localTrack microphone_world) = js_undefined
  /\ getCameraFacingMode (localTrack camera_world) = js_value USER
  /\ getCameraFacingMode unsettled_camera = js_undefined.
Proof.
  split; [|split].
  - apply (proj1 (getCameraFacingMode_resolution (localTrack microphone_world))).
    left. intros [H _]. discriminate.
  - apply (proj2 (proj2 (getCameraFacingMode_resolution
                           (localTrack camera_world))
                        eq_refl eq_refl)).
    left. reflexivity.
  - apply (proj1 (proj2 (getCameraFacingMode_resolution unsettled_camera)
                        eq_refl eq_refl)).
    reflexivity.
Defined.

(** ** Whole transitions *)

(** One event at a time: the next step is computed to a world in closed
    form by [tac] before the run goes on. *)
Ltac next_event tac :=
  rewrite run_cons;
  match goal with
  | |- run ?win ?evs (step ?win ?ev ?W) = _ =>
      let H := fresh "Hstep" in
      eassert (H : step win ev W = _);
      [ tac; rewrite ?app_nil_r; reflexivity | rewrite H; clear H ]
  end.

Lemma teardown_policy_is_video :
  forall window this,
    cannot_remove_stream window this = false -> type this = VIDEO.
Proof.
  intros window this H. unfold cannot_remove_stream, isAudioTrack, getType in H.
  destruct (type this); [|reflexivity].
  cbn in H. rewrite orb_true_r in H. discriminate.
Qed.

(** Symbolic execution of a run on a world whose conference and type are
    known: unfold the accessors and compute. *)
Ltac execute Hc Hty :=
  repeat (progress (cbn;
                    unfold deliver, has_room, isAudioTrack, getType,
                      mute_status_sent in *;
                    cbn;
                    rewrite ?Nat.eqb_refl, ?Hc, ?Hty)).

Lemma teardown_mute_world :
  forall (window : Platform) (w : World),
    pending w = [] ->
    inMuteOrUnmuteProgress (localTrack w) = false ->
    cannot_remove_stream window (localTrack w) = false ->
    isMuted (localTrack w) = false ->
    let this := localTrack w in
    run window (teardown_mute_run this (calls w)) w
    = {| localTrack :=
           set_inMuteOrUnmuteProgress false
             (set_stream None
                (set_dontFireRemoveEvent true
                   (if has_room this then this else set_startMuted true this)));
         pending := [];
         outcomes := outcomes w ++ [(calls w, Resolved undefined)];
         log := log w
                ++ (if has_room this
                    then [room_removeStream (stream this) (type this)] else [])
                ++ [RTCUtils_stopMediaStream (stream this)]
                ++ mute_status_sent this true
                ++ [eventEmitter_emit TRACK_MUTE_CHANGED];
         calls := S (calls w) |}.
Proof.
  intros window w Hp Hg Hpol Hm this.
  pose proof (teardown_policy_is_video _ _ Hpol) as Hty.
  unfold teardown_mute_run, room_answers. unfold this.
  cbn [run fold_left step]. unfold enter, invoke, mute.
  rewrite createMuteUnmutePromise_eq, Hg, Hm, Hpol, Hp.
  destruct (conference (localTrack w)) as [[[r|]]|] eqn:Hc;
    execute Hc Hty;
    rewrite ?app_nil_r, <- ?app_assoc; reflexivity.
Qed.

(** A mute() or unmute() by local disablement that goes well. *)
Lemma local_world :
  forall (window : Platform) (w : World) (c : Call),
    pending w = [] ->
    inMuteOrUnmuteProgress (localTrack w) = false ->
    cannot_remove_stream window (localTrack w) = true ->
    is_transition c = true ->
    isMuted (localTrack w) = negb (target c) ->
    let this := localTrack w in
    run window (local_run c this (calls w)) w
    = {| localTrack :=
           set_inMuteOrUnmuteProgress false
             (set_track
                (option_map (set_enabled (negb (target c))) (track this))
                (set_dontFireRemoveEvent false
                   (if has_room this then this
                    else set_startMuted (target c) this)));
         pending := [];
         outcomes := outcomes w ++ [(calls w, Resolved undefined)];
         log := log w ++ mute_status_sent this (target c)
                ++ [eventEmitter_emit TRACK_MUTE_CHANGED];
         calls := S (calls w) |}.
Proof.
  intros window w c Hp Hg Hpol Hc Hm this.
  unfold local_run, room_answers. unfold this.
  cbn [run fold_left step]. unfold enter.
  rewrite (invoke_transition _ _ Hc), createMuteUnmutePromise_eq.
  rewrite Hg, Hm, Hpol, Hp.
  replace (Bool.eqb (negb (target c)) (target c)) with false
    by (destruct (target c); reflexivity).
  destruct (conference (localTrack w)) as [[[r|]]|] eqn:Hconf;
    destruct (type (localTrack w)) eqn:Hty;
    destruct (track (localTrack w)) as [tr|] eqn:Htr;
    execute Hconf Hty;
    rewrite ?app_nil_r, <- ?app_assoc; try reflexivity;
    f_equal; revert Htr; destruct (localTrack w); cbn; intros ->;
    reflexivity.
Qed.

(** A mute() whose removal from the room is rejected. *)
Lemma mute_removal_rejected_world :
  forall (window : Platform) (w : World) (e : Fault),
    pending w = [] ->
    inMuteOrUnmuteProgress (localTrack w) = false ->
    cannot_remove_stream window (localTrack w) = false ->
    isMuted (localTrack w) = false ->
    has_room (localTrack w) = true ->
    let this := localTrack w in
    let n := calls w in
    run window [Invoke Mute; Reject n e; Job n] w
    = {| localTrack := set_dontFireRemoveEvent true this;
         pending := [];
         outcomes := outcomes w ++ [(n, Rejected e)];
         log := log w ++ [room_removeStream (stream this) (type this)];
         calls := S n |}.
Proof.
  intros window w e Hp Hg Hpol Hm Hr this n. unfold this, n.
  pose proof (teardown_policy_is_video _ _ Hpol) as Hty.
  cbn [run fold_left step]. unfold enter, invoke, mute.
  rewrite createMuteUnmutePromise_eq, Hg, Hm, Hpol, Hp.
  unfold has_room in Hr.
  destruct (conference (localTrack w)) as [[[r|]]|] eqn:Hc;
    try discriminate.
  execute Hc Hty. rewrite ?app_nil_r, <- ?app_assoc.
  f_equal. revert Hg. destruct (localTrack w). cbn. intros ->. reflexivity.
Qed.

(** An unmute() whose acquisition of a stream is rejected. *)
Lemma unmute_acquisition_rejected_world :
  forall (window : Platform) (w : World) (e : Fault),
    pending w = [] ->
    inMuteOrUnmuteProgress (localTrack w) = false ->
    cannot_remove_stream window (localTrack w) = false ->
    isMuted (localTrack w) = true ->
    let this := localTrack w in
    let n := calls w in
    run window [Invoke Unmute; Reject n e; Job n] w
    = {| localTrack :=
           set_dontFireRemoveEvent false
             (if has_room this then this else set_startMuted false this);
         pending := [];
         outcomes := outcomes w ++ [(n, Rejected e)];
         log := log w
                ++ [RTCUtils_obtainAudioAndVideoPermissions
                      {| cameraDeviceId := getDeviceId this;
                         devices := [VIDEO];
                         facingMode := getCameraFacingMode this;
                         options_resolution := resolution this |}];
         calls := S n |}.
Proof.
  intros window w e Hp Hg Hpol Hm this n. unfold this, n.
  pose proof (teardown_policy_is_video _ _ Hpol) as Hty.
  cbn [run fold_left step]. unfold enter, invoke, unmute.
  rewrite createMuteUnmutePromise_eq, Hg, Hm, Hpol, Hp.
  destruct (conference (localTrack w)) as [[[r|]]|] eqn:Hc;
    execute Hc Hty; rewrite ?app_nil_r, <- ?app_assoc;
    f_equal; revert Hg; destruct (localTrack w); cbn; intros ->; reflexivity.
Qed.

Lemma onFulfilled_sendMuteStatus :
  forall mute v this,
    onFulfilled (then_sendMuteStatus mute) v this
    = (Normal (if has_room this then new_Promise setMute
               else Promise_resolve undefined),
       this, mute_status_sent this mute).
Proof.
  intros mute v this. apply _sendMuteStatus_eq.
Qed.

Lemma onFulfilled_emitMuteChanged :
  forall v this,
    onFulfilled then_emitMuteChanged v this
    = (Normal (Promise_resolve undefined), this,
       [eventEmitter_emit TRACK_MUTE_CHANGED]).
Proof.
  reflexivity.
Qed.

Lemma onFulfilled_clearProgress :
  forall v this,
    onFulfilled then_clearProgress v this
    = (Normal (Promise_resolve undefined),
       set_inMuteOrUnmuteProgress false this, []).
Proof.
  reflexivity.
Qed.

(** Symbolic execution that keeps the reaction to the obtained streams
    folded until its closed form applies. *)
Ltac execute_reacquire Hc Hty Hfind Hch :=
  repeat (progress (cbn -[onFulfilled];
                    unfold deliver, job, has_room, isAudioTrack, getType,
                      mute_status_sent in *;
                    cbn -[onFulfilled];
                    rewrite ?Nat.eqb_refl, ?then_useObtainedStream_eq,
                      ?onFulfilled_sendMuteStatus,
                      ?onFulfilled_emitMuteChanged,
                      ?onFulfilled_clearProgress, ?Hc, ?Hty, ?Hfind, ?Hch)).

(** An unmute() by re-acquisition that goes well. *)
Lemma reacquire_world :
  forall (window : Platform) (w : World) (l : list StreamInfo)
         (info : StreamInfo),
    pending w = [] ->
    inMuteOrUnmuteProgress (localTrack w) = false ->
    cannot_remove_stream window (localTrack w) = false ->
    isMuted (localTrack w) = true ->
    find (fun i => MediaType_eqb (info_mediaType i) (getType (localTrack w))) l
    = Some info ->
    let this := localTrack w in
    let changed :=
      negb (option_eqb VideoType_eqb (videoType this) (info_videoType info)) in
    run window (reacquire_run this (calls w) l) w
    = {| localTrack :=
           set_inMuteOrUnmuteProgress false
             (set_videoType
                (if changed then info_videoType info else videoType this)
                (set_track (Some (info_track info))
                   (set_stream (Some (info_stream info))
                      (set_dontFireRemoveEvent false
                         (if has_room this then this
                          else set_startMuted false this)))));
         pending := [];
         outcomes := outcomes w ++ [(calls w, Resolved undefined)];
         log := log w
                ++ [RTCUtils_obtainAudioAndVideoPermissions
                      {| cameraDeviceId := getDeviceId this;
                         devices := [VIDEO];
                         facingMode := getCameraFacingMode this;
                         options_resolution := resolution this |}]
                ++ (if changed then [logger_warn] else [])
                ++ map (fun c => RTCUtils_attachMediaStream c
                                   (Some (info_stream info)))
                       (containers this)
                ++ (if has_room this
                    then [room_addStream (Some (info_stream info)) (type this)]
                    else [])
                ++ mute_status_sent this false
                ++ [eventEmitter_emit TRACK_MUTE_CHANGED];
         calls := S (calls w) |}.
Proof.
  intros window w l info Hp Hg Hpol Hm Hfind this changed.
  unfold changed, this.
  pose proof (teardown_policy_is_video _ _ Hpol) as Hty.
  unfold getType in Hfind. rewrite Hty in Hfind.
  unfold reacquire_run, room_answers.
  rewrite run_cons. cbn [step]. unfold enter, invoke, unmute.
  rewrite createMuteUnmutePromise_eq, Hg, Hm, Hpol, Hp.
  destruct (option_eqb VideoType_eqb (videoType (localTrack w))
                       (info_videoType info)) eqn:Hch;
    destruct (conference (localTrack w)) as [[[r|]]|] eqn:Hc;
    unfold has_room; rewrite Hc;
    cbn [Bool.eqb negb is_undefined room app state settle adopt is_done
         reactions pass_by];
    rewrite ?app_nil_r;
    repeat (next_event ltac:(execute_reacquire Hc Hty Hfind Hch));
    rewrite run_nil; unfold mute_status_sent, has_room, isAudioTrack, getType;
    rewrite ?Hc, ?Hty; cbn [app negb is_undefined room MediaType_eqb];
    repeat (first [rewrite <- app_assoc | progress cbn [app]]); reflexivity.
Qed.

(** An unmute() whose new stream the room refuses to add. *)
Lemma unmute_addition_rejected_world :
  forall (window : Platform) (w : World) (l : list StreamInfo)
         (info : StreamInfo) (e : Fault),
    pending w = [] ->
    inMuteOrUnmuteProgress (localTrack w) = false ->
    cannot_remove_stream window (localTrack w) = false ->
    isMuted (localTrack w) = true ->
    has_room (localTrack w) = true ->
    find (fun i => MediaType_eqb (info_mediaType i) (getType (localTrack w))) l
    = Some info ->
    let this := localTrack w in
    let n := calls w in
    let changed :=
      negb (option_eqb VideoType_eqb (videoType this) (info_videoType info)) in
    run window
        [Invoke Unmute; Resolve n (streamsInfo l); Job n; Reject n e; Job n] w
    = {| localTrack :=
           set_videoType
             (if changed then info_videoType info else videoType this)
             (set_track (Some (info_track info))
                (set_stream (Some (info_stream info))
                   (set_dontFireRemoveEvent false this)));
         pending := [];
         outcomes := outcomes w ++ [(n, Rejected e)];
         log := log w
                ++ [RTCUtils_obtainAudioAndVideoPermissions
                      {| cameraDeviceId := getDeviceId this;
                         devices := [VIDEO];
                         facingMode := getCameraFacingMode this;
                         options_resolution := resolution this |}]
                ++ (if changed then [logger_warn] else [])
                ++ map (fun c => RTCUtils_attachMediaStream c
                                   (Some (info_stream info)))
                       (containers this)
                ++ [room_addStream (Some (info_stream info)) (type this)];
         calls := S n |}.
Proof.
  intros window w l info e Hp Hg Hpol Hm Hr Hfind this n changed.
  unfold changed, this, n.
  pose proof (teardown_policy_is_video _ _ Hpol) as Hty.
  unfold getType in Hfind. rewrite Hty in Hfind.
  rewrite run_cons. cbn [step]. unfold enter, invoke, unmute.
  rewrite createMuteUnmutePromise_eq, Hg, Hm, Hpol, Hp, Hr.
  unfold has_room in Hr.
  destruct (conference (localTrack w)) as [[[r|]]|] eqn:Hc;
    try discriminate.
  destruct (option_eqb VideoType_eqb (videoType (localTrack w))
                       (info_videoType info)) eqn:Hch;
    cbn [Bool.eqb negb is_undefined room app state settle adopt is_done
         reactions pass_by];
    rewrite ?app_nil_r;
    repeat (next_event ltac:(execute_reacquire Hc Hty Hfind Hch));
    rewrite run_nil; rewrite ?Hty;
    repeat (first [rewrite <- app_assoc | progress cbn [app]]);
    f_equal; revert Hg; destruct (localTrack w); cbn; intros ->; reflexivity.
Qed.

Lemma isMuted_false_inv :
  forall this,
    isMuted this = false ->
    exists s tr,
      stream this = Some s /\ track this = Some tr /\ enabled tr = true
      /\ (isVideoTrack this && negb (isActive s)) = false.
Proof.
  intros this H. unfold isMuted in H.
  destruct (stream this) as [s|]; [|discriminate].
  destruct (isVideoTrack this && negb (isActive s)) eqn:E; [discriminate|].
  destruct (track this) as [tr|]; [|discriminate].
  exists s, tr. repeat split; auto.
  destruct (enabled tr); [reflexivity|discriminate].
Qed.

(** X6: a mute() of an unmuted camera track under the teardown policy that
    the room lets through asks the room to remove the stream (if there is a
    room), only then stops the stream and forgets it, tells the room the
    track is muted, emits one mute-changed event and succeeds: the track is
    muted, without a stream, with its native track kept and the guard
    free. *)
Theorem teardown_mute_succeeds :
  forall (window : Platform) (w : World),
    pending w = [] ->
    inMuteOrUnmuteProgress (localTrack w) = false ->
    cannot_remove_stream window (localTrack w) = false ->
    isMuted (localTrack w) = false ->
    let this := localTrack w in
    let w' := run window (teardown_mute_run this (calls w)) w in
    outcomes w' = outcomes w ++ [(calls w, Resolved undefined)]
    /\ pending w' = []
    /\ log w'
       = log w
         ++ (if has_room this
             then [room_removeStream (stream this) (type this)] else [])
         ++ [RTCUtils_stopMediaStream (stream this)]
         ++ (if has_room this then [room_setVideoMute true] else [])
         ++ [eventEmitter_emit TRACK_MUTE_CHANGED]
    /\ stream this <> None
    /\ stream (localTrack w') = None
    /\ track (localTrack w') = track this
    /\ isMuted (localTrack w') = true
    /\ inMuteOrUnmuteProgress (localTrack w') = false.
Proof.
  intros window w Hp Hg Hpol Hm this w'. unfold w', this.
  rewrite (teardown_mute_world window w Hp Hg Hpol Hm). cbn.
  destruct (isMuted_false_inv _ Hm) as (s & tr & Hs & _).
  pose proof (teardown_policy_is_video _ _ Hpol) as Hty.
  repeat split; try reflexivity.
  - unfold mute_status_sent, isAudioTrack, getType. rewrite Hty. reflexivity.
  - rewrite Hs. discriminate.
  - destruct (has_room (localTrack w)); reflexivity.
Qed.

Lemma teardown_mute_succeeds_witness :
  let w' :=
    run chrome_https
        (teardown_mute_run (localTrack camera_in_conference)
                           (calls camera_in_conference))
        camera_in_conference in
  stream (localTrack w') = None /\ isMuted (localTrack w') = true.
Proof.
  destruct (teardown_mute_succeeds chrome_https camera_in_conference
              eq_refl eq_refl eq_refl eq_refl)
    as (_ & _ & _ & _ & H1 & _ & H2 & _).
  split; [exact H1|exact H2].
Defined.

Lemma unhandled_stream_inactive :
  forall (window : Platform) (sid : nat) (k : nat) (w : World),
    strict_eq Nat.eqb (inactive_handler_on (localTrack w)) sid = false ->
    let w' := run window (repeat (StreamInactive sid) k) w in
    log w' = log w
    /\ dontFireRemoveEvent (localTrack w')
       = dontFireRemoveEvent (localTrack w).
Proof.
  intros window sid k. induction k as [|k IH]; intros w H; [split; reflexivity|].
  cbn [repeat]. cbv zeta. rewrite run_cons.
  assert (E : step window (StreamInactive sid) w
              = {| localTrack :=
                     set_stream
                       (option_map
                          (fun s => if Nat.eqb (id s) sid
                                    then set_active false s else s)
                          (stream (localTrack w))) (localTrack w);
                   pending := pending w; outcomes := outcomes w;
                   log := log w; calls := calls w |}).
  { cbn [step]. unfold notify. rewrite stream_inactive_eq. cbv zeta.
    rewrite H, app_nil_r. reflexivity. }
  rewrite E.
  match goal with
  | |- context [run window _ ?W] => destruct (IH W H) as [H1 H2]
  end.
  split; [exact H1|exact H2].
Qed.

(** X7: a teardown mute() leaves the suppression of LOCAL_TRACK_STOPPED
    armed.  If the stream it has torn down carries the inactive handler (it
    is the stream the track was constructed with), that stream's inactive
    notification emits no LOCAL_TRACK_STOPPED and uses the suppression up:
    were the handler to run again, the event would be emitted.  If it does
    not (it was taken over by an unmute()), its inactive notification emits
    nothing either, however often it comes, and the suppression stays
    armed. *)
Theorem torn_down_stream_stops_silently :
  forall (window : Platform) (w : World) (s : MediaStream),
    pending w = [] ->
    inMuteOrUnmuteProgress (localTrack w) = false ->
    cannot_remove_stream window (localTrack w) = false ->
    isMuted (localTrack w) = false ->
    stream (localTrack w) = Some s ->
    let this := localTrack w in
    let w' := run window (teardown_mute_run this (calls w)) w in
    let gone := StreamInactive (id s) in
    dontFireRemoveEvent (localTrack w') = true
    /\ (strict_eq Nat.eqb (inactive_handler_on this) (id s) = true ->
        log (step window gone w') = log w'
        /\ dontFireRemoveEvent (localTrack (step window gone w')) = false
        /\ log (run window [gone; gone] w')
           = log w' ++ [eventEmitter_emit LOCAL_TRACK_STOPPED])
    /\ (strict_eq Nat.eqb (inactive_handler_on this) (id s) = false ->
        forall k : nat,
          log (run window (repeat gone k) w') = log w'
          /\ dontFireRemoveEvent (localTrack (run window (repeat gone k) w'))
             = true).
Proof.
  intros window w s Hp Hg Hpol Hm Hs this w' gone. unfold w', this.
  rewrite (teardown_mute_world window w Hp Hg Hpol Hm).
  split; [reflexivity|]. split.
  - intros Hh. unfold gone. rewrite !run_cons, run_nil. cbn [step].
    unfold notify. rewrite !stream_inactive_eq. cbv zeta.
    cbn [localTrack inactive_handler_on set_inMuteOrUnmuteProgress
         set_stream set_dontFireRemoveEvent dontFireRemoveEvent log].
    replace (inactive_handler_on
               (if has_room (localTrack w) then localTrack w
                else set_startMuted true (localTrack w)))
      with (inactive_handler_on (localTrack w))
      by (destruct (has_room (localTrack w)); reflexivity).
    rewrite Hh.
    cbn [localTrack inactive_handler_on set_inMuteOrUnmuteProgress
         set_stream set_dontFireRemoveEvent dontFireRemoveEvent log].
    replace (inactive_handler_on
               (if has_room (localTrack w) then localTrack w
                else set_startMuted true (localTrack w)))
      with (inactive_handler_on (localTrack w))
      by (destruct (has_room (localTrack w)); reflexivity).
    rewrite Hh. cbn. rewrite !app_nil_r. repeat split; reflexivity.
  - intros Hh k.
    match goal with
    | |- context [run window (repeat gone k) ?W] =>
        destruct (unhandled_stream_inactive window (id s) k W) as [H1 H2]
    end.
    + cbn. destruct (has_room (localTrack w)); exact Hh.
    + split; [exact H1|exact (eq_trans H2 eq_refl)].
Qed.

Lemma torn_down_stream_stops_silently_witness :
  let w' :=
    run chrome_https
        (teardown_mute_run (localTrack camera_world) (calls camera_world))
        camera_world in
  log (step chrome_https (StreamInactive 1) w') = log w'
  /\ let w'' :=
       run chrome_https
           (teardown_mute_run (localTrack reacquired_camera_world)
                              (calls reacquired_camera_world))
           reacquired_camera_world in
     log (run chrome_https (repeat (StreamInactive 2) 3) w'') = log w''.
Proof.
  split.
  - exact (proj1 (proj1 (proj2 (torn_down_stream_stops_silently chrome_https
                                  camera_world camera_stream
                                  eq_refl eq_refl eq_refl eq_refl eq_refl))
                        eq_refl)).
  - exact (proj1 (proj2 (proj2 (torn_down_stream_stops_silently chrome_https
                                  reacquired_camera_world fresh_camera_stream
                                  eq_refl eq_refl eq_refl eq_refl eq_refl))
                        eq_refl 3)).
Defined.

Lemma option_eqb_VideoType_eq :
  forall a b : option VideoType,
    option_eqb VideoType_eqb a b = true <-> a = b.
Proof.
  intros [[|]|] [[|]|]; cbn; split; intros H; try reflexivity;
    try discriminate.
Qed.

(** X8: an unmute() under the teardown policy that is answered with streams
    adopts the stream, the native track and the video type of the first
    entry of the track's media type, warns exactly when the video type
    differs from the one it had, attaches every container to the new stream
    in order, adds the stream to the room and tells the room the track is
    unmuted (both only if there is a room), and emits one mute-changed
    event; isMuted() then reflects the new stream and track only. *)
Theorem reacquiring_unmute_succeeds :
  forall (window : Platform) (w : World) (l : list StreamInfo)
         (info : StreamInfo),
    pending w = [] ->
    inMuteOrUnmuteProgress (localTrack w) = false ->
    cannot_remove_stream window (localTrack w) = false ->
    isMuted (localTrack w) = true ->
    find (fun i => MediaType_eqb (info_mediaType i) (getType (localTrack w))) l
    = Some info ->
    let this := localTrack w in
    let w' := run window (reacquire_run this (calls w) l) w in
    outcomes w' = outcomes w ++ [(calls w, Resolved undefined)]
    /\ pending w' = []
    /\ stream (localTrack w') = Some (info_stream info)
    /\ track (localTrack w') = Some (info_track info)
    /\ videoType (localTrack w') = info_videoType info
    /\ containers (localTrack w') = containers this
    /\ inMuteOrUnmuteProgress (localTrack w') = false
    /\ isMuted (localTrack w')
       = negb (active (info_stream info)) || negb (enabled (info_track info))
    /\ exists warning,
        log w'
        = log w
          ++ [RTCUtils_obtainAudioAndVideoPermissions
                {| cameraDeviceId := getDeviceId this;
                   devices := [VIDEO];
                   facingMode := getCameraFacingMode this;
                   options_resolution := resolution this |}]
          ++ warning
          ++ map (fun c => RTCUtils_attachMediaStream c
                             (Some (info_stream info)))
                 (containers this)
          ++ (if has_room this
              then [room_addStream (Some (info_stream info)) VIDEO;
                    room_setVideoMute false]
              else [])
          ++ [eventEmitter_emit TRACK_MUTE_CHANGED]
        /\ (videoType this = info_videoType info -> warning = [])
        /\ (videoType this <> info_videoType info -> warning = [logger_warn]).
Proof.
  intros window w l info Hp Hg Hpol Hm Hfind this w'. unfold w', this.
  rewrite (reacquire_world window w l info Hp Hg Hpol Hm Hfind). cbn.
  pose proof (teardown_policy_is_video _ _ Hpol) as Hty.
  pose proof (option_eqb_VideoType_eq (videoType (localTrack w))
                (info_videoType info)) as Heq.
  repeat split; try reflexivity;
    try (destruct (has_room (localTrack w)); reflexivity).
  - destruct (option_eqb VideoType_eqb (videoType (localTrack w))
                         (info_videoType info)); cbn; [|reflexivity].
    apply Heq. reflexivity.
  - unfold isMuted, isVideoTrack, isActive, getType. cbn.
    destruct (has_room (localTrack w)); cbn; rewrite Hty; cbn;
      destruct (active (info_stream info)); reflexivity.
  - exists (if negb (option_eqb VideoType_eqb (videoType (localTrack w))
                       (info_videoType info))
            then [logger_warn] else []).
    split; [|split].
    + unfold mute_status_sent, isAudioTrack, getType. rewrite Hty.
      destruct (has_room (localTrack w)); cbn [MediaType_eqb];
        repeat (first [rewrite <- app_assoc | progress cbn [app]]);
        reflexivity.
    + intros H. apply Heq in H. rewrite H. reflexivity.
    + intros H.
      destruct (option_eqb VideoType_eqb (videoType (localTrack w))
                           (info_videoType info)); [|reflexivity].
      contradiction H. apply Heq. reflexivity.
Qed.

Lemma reacquiring_unmute_succeeds_witness :
  let w' :=
    run chrome_https
        (reacquire_run (localTrack muted_attached_camera_world)
                       (calls muted_attached_camera_world)
                       [microphone_info; desktop_info])
        muted_attached_camera_world in
  stream (localTrack w') = Some fresh_camera_stream
  /\ videoType (localTrack w') = Some DESKTOP.
Proof.
  destruct (reacquiring_unmute_succeeds chrome_https
              muted_attached_camera_world [microphone_info; desktop_info]
              desktop_info eq_refl eq_refl eq_refl eq_refl eq_refl)
    as (_ & _ & H1 & _ & H2 & _).
  split; [exact H1|exact H2].
Defined.

(** X9: mute() under the teardown policy keeps everything unmute() asks the
    capture provider for: the unmute() after a complete mute() requests a
    video stream for the device id, camera facing mode and resolution the
    track had before the mute(). *)
Theorem unmute_requests_what_the_track_had :
  forall (window : Platform) (w : World),
    pending w = [] ->
    inMuteOrUnmuteProgress (localTrack w) = false ->
    cannot_remove_stream window (localTrack w) = false ->
    isMuted (localTrack w) = false ->
    let this := localTrack w in
    let w' := run window (teardown_mute_run this (calls w)) w in
    log (step window (Invoke Unmute) w')
    = log w'
      ++ [RTCUtils_obtainAudioAndVideoPermissions
            {| cameraDeviceId := getDeviceId this;
               devices := [VIDEO];
               facingMode := getCameraFacingMode this;
               options_resolution := resolution this |}].
Proof.
  intros window w Hp Hg Hpol Hm this w'. unfold w', this.
  rewrite (teardown_mute_world window w Hp Hg Hpol Hm).
  cbn [step]. unfold enter, invoke, unmute.
  rewrite createMuteUnmutePromise_eq. cbn [localTrack log].
  match goal with
  | |- context [cannot_remove_stream window ?t] =>
      replace (cannot_remove_stream window t) with false
        by (rewrite <- Hpol; apply cannot_remove_stream_ext;
            destruct (has_room (localTrack w)); reflexivity)
  end.
  cbn. destruct (has_room (localTrack w)); reflexivity.
Qed.

Lemma unmute_requests_what_the_track_had_witness :
  let w' :=
    run chrome_https
        (teardown_mute_run (localTrack camera_world) (calls camera_world))
        camera_world in
  log (step chrome_https (Invoke Unmute) w')
  = log w'
    ++ [RTCUtils_obtainAudioAndVideoPermissions
          {| cameraDeviceId := getDeviceId (localTrack camera_world);
             devices := [VIDEO];
             facingMode := getCameraFacingMode (localTrack camera_world);
             options_resolution := resolution (localTrack camera_world) |}].
Proof.
  exact (unmute_requests_what_the_track_had chrome_https camera_world
           eq_refl eq_refl eq_refl eq_refl).
Defined.

(** ** Failures of the collaborators *)

(** X11: when the room rejects the removal of the stream, mute() fails with
    the room's fault and the guard is free again, but nothing else of the
    mute happens: the stream is neither stopped nor forgotten, the track is
    still unmuted, the room is not told and no mute-changed event is
    emitted.  The suppression of LOCAL_TRACK_STOPPED stays armed, so the next
    time a stream goes inactive no event is emitted, whichever stream it
    is. *)
Theorem rejected_removal_fails_mute :
  forall (window : Platform) (w : World) (e : Fault),
    pending w = [] ->
    inMuteOrUnmuteProgress (localTrack w) = false ->
    cannot_remove_stream window (localTrack w) = false ->
    isMuted (localTrack w) = false ->
    has_room (localTrack w) = true ->
    let this := localTrack w in
    let n := calls w in
    let w' := run window [Invoke Mute; Reject n e; Job n] w in
    outcomes w' = outcomes w ++ [(n, Rejected e)]
    /\ pending w' = []
    /\ log w' = log w ++ [room_removeStream (stream this) (type this)]
    /\ stream (localTrack w') = stream this
    /\ track (localTrack w') = track this
    /\ isMuted (localTrack w') = false
    /\ inMuteOrUnmuteProgress (localTrack w') = false
    /\ dontFireRemoveEvent (localTrack w') = true
    /\ forall sid, log (step window (StreamInactive sid) w') = log w'.
Proof.
  intros window w e Hp Hg Hpol Hm Hr this n w'. unfold w', this, n.
  rewrite (mute_removal_rejected_world window w e Hp Hg Hpol Hm Hr).
  cbn [outcomes pending log localTrack].
  repeat (split; [try reflexivity; try assumption|]).
  intros sid. cbn [step]. unfold notify. rewrite stream_inactive_eq.
  cbv zeta. cbn [localTrack log dontFireRemoveEvent set_dontFireRemoveEvent].
  destruct (strict_eq Nat.eqb _ sid); cbn [log]; apply app_nil_r.
Qed.

Lemma rejected_removal_fails_mute_witness :
  let w' :=
    run chrome_https
        [Invoke Mute; Reject (calls camera_in_conference) (Foreign 3);
         Job (calls camera_in_conference)]
        camera_in_conference in
  outcomes w' = outcomes camera_in_conference ++ [(0, Rejected (Foreign 3))]
  /\ isMuted (localTrack w') = false.
Proof.
  destruct (rejected_removal_fails_mute chrome_https camera_in_conference
              (Foreign 3) eq_refl eq_refl eq_refl eq_refl eq_refl)
    as (H1 & _ & _ & _ & _ & H2 & _).
  split; [exact H1|exact H2].
Defined.

(** X12: when the room rejects the addition of the re-acquired stream,
    unmute() fails with the room's fault after the new stream and native
    track have been adopted and attached: isMuted() already reflects the new
    stream, while the room is never told the mute state and no mute-changed
    event is emitted. *)
Theorem rejected_addition_fails_unmute :
  forall (window : Platform) (w : World) (l : list StreamInfo)
         (info : StreamInfo) (e : Fault),
    pending w = [] ->
    inMuteOrUnmuteProgress (localTrack w) = false ->
    cannot_remove_stream window (localTrack w) = false ->
    isMuted (localTrack w) = true ->
    has_room (localTrack w) = true ->
    find (fun i => MediaType_eqb (info_mediaType i) (getType (localTrack w))) l
    = Some info ->
    let this := localTrack w in
    let n := calls w in
    let w' :=
      run window
          [Invoke Unmute; Resolve n (streamsInfo l); Job n; Reject n e; Job n]
          w in
    outcomes w' = outcomes w ++ [(n, Rejected e)]
    /\ pending w' = []
    /\ inMuteOrUnmuteProgress (localTrack w') = false
    /\ stream (localTrack w') = Some (info_stream info)
    /\ track (localTrack w') = Some (info_track info)
    /\ isMuted (localTrack w')
       = negb (active (info_stream info)) || negb (enabled (info_track info))
    /\ filter about_mute (since (length (log w)) w') = []
    /\ In (room_addStream (Some (info_stream info)) (type this)) (log w').
Proof.
  intros window w l info e Hp Hg Hpol Hm Hr Hfind this n w'.
  unfold w', this, n.
  rewrite (unmute_addition_rejected_world window w l info e Hp Hg Hpol Hm Hr
             Hfind).
  pose proof (teardown_policy_is_video _ _ Hpol) as Hty.
  cbn [outcomes pending localTrack log]. unfold since. cbn [log].
  rewrite skipn_app, skipn_all, Nat.sub_diag. cbn [skipn app].
  repeat split; try reflexivity.
  - cbn. exact Hg.
  - unfold isMuted, isVideoTrack, isActive, getType. cbn. rewrite Hty. cbn.
    destruct (active (info_stream info)); reflexivity.
  - cbn [filter about_mute]. rewrite !filter_app. cbn [filter about_mute].
    destruct (negb (option_eqb VideoType_eqb (videoType (localTrack w))
                      (info_videoType info))); cbn [filter about_mute app];
      induction (containers (localTrack w)); cbn; auto.
  - apply in_or_app. right. right. apply in_or_app. right.
    apply in_or_app. right. left. reflexivity.
Qed.

Lemma rejected_addition_fails_unmute_witness :
  let w' :=
    run chrome_https
        [Invoke Unmute;
         Resolve (calls muted_attached_camera_world)
                 (streamsInfo [camera_info]);
         Job (calls muted_attached_camera_world);
         Reject (calls muted_attached_camera_world) (Foreign 4);
         Job (calls muted_attached_camera_world)]
        muted_attached_camera_world in
  outcomes w'
  = outcomes muted_attached_camera_world ++ [(1, Rejected (Foreign 4))]
  /\ stream (localTrack w') = Some (info_stream camera_info).
Proof.
  destruct (rejected_addition_fails_unmute chrome_https
              muted_attached_camera_world [camera_info] camera_info
              (Foreign 4) eq_refl eq_refl eq_refl eq_refl eq_refl eq_refl)
    as (H1 & _ & _ & H2 & _).
  split; [exact H1|exact H2].
Defined.

(** X13: when the capture provider rejects the acquisition, unmute() fails
    with that fault and the guard is free again; stream, native track and
    video type are untouched and the track is still muted, nothing is
    attached or added and no event is emitted.  A track without a room has
    nevertheless recorded startMuted = false. *)
Theorem rejected_acquisition_fails_unmute :
  forall (window : Platform) (w : World) (e : Fault),
    pending w = [] ->
    inMuteOrUnmuteProgress (localTrack w) = false ->
    cannot_remove_stream window (localTrack w) = false ->
    isMuted (localTrack w) = true ->
    let this := localTrack w in
    let n := calls w in
    let w' := run window [Invoke Unmute; Reject n e; Job n] w in
    outcomes w' = outcomes w ++ [(n, Rejected e)]
    /\ pending w' = []
    /\ (exists o, log w' = log w ++ [RTCUtils_obtainAudioAndVideoPermissions o])
    /\ stream (localTrack w') = stream this
    /\ track (localTrack w') = track this
    /\ videoType (localTrack w') = videoType this
    /\ isMuted (localTrack w') = true
    /\ inMuteOrUnmuteProgress (localTrack w') = false
    /\ startMuted (localTrack w')
       = (if has_room this then startMuted this else false).
Proof.
  intros window w e Hp Hg Hpol Hm this n w'. unfold w', this, n.
  rewrite (unmute_acquisition_rejected_world window w e Hp Hg Hpol Hm).
  cbn [outcomes pending localTrack log].
  split; [reflexivity|]. split; [reflexivity|].
  split; [eexists; reflexivity|].
  destruct (has_room (localTrack w)); cbn; repeat split; auto.
Qed.

Lemma rejected_acquisition_fails_unmute_witness :
  let w' :=
    run chrome_https
        [Invoke Unmute; Reject (calls muted_camera_world) (Foreign 9);
         Job (calls muted_camera_world)]
        muted_camera_world in
  outcomes w' = outcomes muted_camera_world ++ [(1, Rejected (Foreign 9))]
  /\ isMuted (localTrack w') = true.
Proof.
  destruct (rejected_acquisition_fails_unmute chrome_https muted_camera_world
              (Foreign 9) eq_refl eq_refl eq_refl eq_refl)
    as (H1 & _ & _ & _ & _ & _ & H2 & _).
  split; [exact H1|exact H2].
Defined.

(** ** What a track without a room never does *)

Lemma room_effect_kinds :
  forall e, is_room_effect e = true -> tears_down e = true \/ about_mute e = true.
Proof.
  intros e H. destruct e; try discriminate; cbn; auto.
Qed.

Lemma no_room_effect_of_frames :
  forall out,
    Forall (fun e => tears_down e = false) out ->
    filter about_mute out = [] ->
    Forall (fun e => is_room_effect e = false) out.
Proof.
  intros out Ht Hf. apply Forall_forall. intros e Hin.
  destruct (is_room_effect e) eqn:He; [|reflexivity].
  destruct (room_effect_kinds e He) as [H|H].
  - rewrite Forall_forall in Ht. rewrite (Ht e Hin) in H. discriminate.
  - assert (Hin' : In e (filter about_mute out))
      by (apply filter_In; split; assumption).
    rewrite Hf in Hin'. contradiction.
Qed.

Lemma onFulfilled_without_room :
  forall h v this c this' out,
    has_room this = false ->
    onFulfilled h v this = (c, this', out) ->
    Forall (fun e => is_room_effect e = false) out.
Proof.
  intros h v this c this' out Hr H. destruct h.
  - cbn in H. injection H as <- <- <-. constructor.
  - cbn in H. injection H as <- <- <-. repeat constructor.
  - rewrite then_useObtainedStream_eq in H. destruct v as [|l].
    + injection H as <- <- <-. constructor.
    + destruct (find _ l) as [info|].
      * cbv zeta in H. rewrite Hr in H. injection H as <- <- <-.
        rewrite app_nil_r. apply Forall_app. split.
        -- destruct (negb _); repeat constructor.
        -- apply Forall_forall. intros e He. apply in_map_iff in He.
           destruct He as (x & <- & _). reflexivity.
      * injection H as <- <- <-. constructor.
  - rewrite onFulfilled_sendMuteStatus in H. injection H as <- <- <-.
    unfold mute_status_sent. rewrite Hr. constructor.
  - cbn in H. injection H as <- <- <-. repeat constructor.
  - cbn in H. injection H as <- <- <-. repeat constructor.
Qed.

Lemma has_room_ext :
  forall this this',
    conference this' = conference this -> has_room this' = has_room this.
Proof.
  intros this this' H. unfold has_room. rewrite H. reflexivity.
Qed.

(** X10: a track without a conference room never calls into a room: in
    every run of calls, promise jobs, collaborator answers and notifications
    in which the conference is not set, no removeStream, addStream,
    setAudioMute or setVideoMute is made, whatever was pending at the
    start. *)
Theorem no_room_no_room_calls :
  forall (window : Platform) (w : World) (evs : list Event),
    has_room (localTrack w) = false ->
    Forall (fun ev => is_setConference ev = false) evs ->
    let w' := run window evs w in
    has_room (localTrack w') = false
    /\ exists out,
        log w' = log w ++ out
        /\ Forall (fun e => is_room_effect e = false) out.
Proof.
  intros window w evs Hr Hevs w'. unfold w'.
  destruct (run_holds window
              (fun this => has_room this = false)
              (fun e => is_room_effect e = false)
              (fun _ _ => True)
              (fun ev => is_setConference ev = false)) with
    (evs := evs) (w := w) as [[Hr' _] Hx].
  - intros c this r this' out _ HP Hi.
    destruct (invoke_frame _ _ _ _ _ _ Hi) as (_ & Hc & _).
    split; [rewrite (has_room_ext _ _ Hc); exact HP|]. split; [|exact I].
    destruct c; unfold invoke, mute, unmute in Hi.
    + rewrite createMuteUnmutePromise_eq, HP in Hi.
      destruct (inMuteOrUnmuteProgress this);
        [injection Hi as <- <- <-; constructor|].
      cbv zeta in Hi.
      destruct (Bool.eqb (isMuted this) true);
        [injection Hi as <- <- <-; constructor|].
      destruct (cannot_remove_stream window this);
        injection Hi as <- <- <-; constructor.
    + rewrite createMuteUnmutePromise_eq, HP in Hi.
      destruct (inMuteOrUnmuteProgress this);
        [injection Hi as <- <- <-; constructor|].
      cbv zeta in Hi.
      destruct (Bool.eqb (isMuted this) false);
        [injection Hi as <- <- <-; constructor|].
      destruct (cannot_remove_stream window this);
        injection Hi as <- <- <-; repeat constructor.
    + rewrite dispose_eq in Hi. injection Hi as <- <- <-.
      destruct (is_undefined (conference this)),
        (is_undefined (stream this)), (_onAudioOutputDeviceChanged this);
        repeat constructor.
  - intros c p this p' this' out _ HP Hj.
    destruct (job_frame _ _ _ _ _ Hj) as (Hc & _).
    split; [rewrite (has_room_ext _ _ Hc); exact HP|]. split; [|exact I].
    destruct p as [st rs]. unfold job in Hj. cbn in Hj.
    destruct st as [v|e|r].
    + destruct rs as [|[h|h] rest];
        try (injection Hj as <- <- <-; constructor).
      destruct (onFulfilled h v this) as [[c0 t] o] eqn:Hh.
      injection Hj as <- <- <-.
      exact (onFulfilled_without_room _ _ _ _ _ _ HP Hh).
    + destruct rs as [|[h|h] rest];
        try (injection Hj as <- <- <-; constructor).
      destruct (onRejected h e this) as [[c0 t] o] eqn:Hh.
      injection Hj as <- <- <-.
      destruct (onRejected_frame _ _ _ _ _ _ Hh) as (_ & -> & _).
      constructor.
    + injection Hj as <- <- <-. constructor.
  - auto.
  - intros ev a this r this' out Hal Hl HP Ha.
    destruct (listener_frame _ _ _ _ _ _ Hl Ha)
      as (_ & _ & _ & _ & _ & _ & Ht & Hq & Hc).
    split.
    + rewrite (has_room_ext this this'); [exact HP|].
      apply Hc. intros ->. discriminate.
    + apply no_room_effect_of_frames; assumption.
  - exact Hevs.
  - split; [exact Hr|]. apply Forall_forall. auto.
  - split; [exact Hr'|exact Hx].
Qed.

Lemma no_room_no_room_calls_witness :
  exists out,
    log (run chrome_https
             [Invoke Mute; Job 0; Job 0; Job 0; Job 0; Invoke Dispose]
             camera_world)
    = log camera_world ++ out
    /\ Forall (fun e => is_room_effect e = false) out.
Proof.
  assert (Hevs : Forall (fun ev => is_setConference ev = false)
                   [Invoke Mute; Job 0; Job 0; Job 0; Job 0; Invoke Dispose]).
  { repeat constructor. }
  exact (proj2 (no_room_no_room_calls chrome_https camera_world
                  [Invoke Mute; Job 0; Job 0; Job 0; Job 0; Invoke Dispose]
                  eq_refl Hevs)).
Defined.

(** ** Local disablement, there and back *)

(** X14: under local disablement a mute() followed by an unmute(), each run
    to its end, gives back the native track and stream the track had: the
    track is muted in between and unmuted at the end, both calls succeed,
    and the room (if any) is told true, then false, each time before the
    mute-changed event. *)
Theorem local_mute_unmute_round_trip :
  forall (window : Platform) (w : World),
    pending w = [] ->
    inMuteOrUnmuteProgress (localTrack w) = false ->
    cannot_remove_stream window (localTrack w) = true ->
    isMuted (localTrack w) = false ->
    let this := localTrack w in
    let w1 := run window (local_run Mute this (calls w)) w in
    let w2 := run window (local_run Unmute (localTrack w1) (calls w1)) w1 in
    isMuted (localTrack w1) = true
    /\ stream (localTrack w1) = stream this
    /\ isMuted (localTrack w2) = false
    /\ stream (localTrack w2) = stream this
    /\ track (localTrack w2) = track this
    /\ outcomes w2
       = outcomes w
         ++ [(calls w, Resolved undefined); (S (calls w), Resolved undefined)]
    /\ log w2
       = log w
         ++ mute_status_sent this true
         ++ [eventEmitter_emit TRACK_MUTE_CHANGED]
         ++ mute_status_sent this false
         ++ [eventEmitter_emit TRACK_MUTE_CHANGED].
Proof.
  intros window w Hp Hg Hpol Hm this w1 w2.
  destruct (isMuted_false_inv _ Hm) as (s & tr & Hs & Ht & Hen & Hact).
  assert (E1 : w1 = _)
    by (exact (local_world window w Mute Hp Hg Hpol eq_refl Hm)).
  cbn [target negb] in E1. fold this in E1. clearbody w1.
  assert (Hm1 : isMuted (localTrack w1) = true).
  { rewrite E1. unfold isMuted. cbn. unfold this.
    destruct (has_room (localTrack w)); cbn; rewrite Hs, Ht; cbn;
      (match goal with
       | |- (if ?b then _ else _) = _ => destruct b
       end; reflexivity). }
  assert (Hpol1 : cannot_remove_stream window (localTrack w1) = true).
  { rewrite <- Hpol. rewrite E1. apply cannot_remove_stream_ext; cbn;
      unfold this; destruct (has_room (localTrack w)); reflexivity. }
  assert (Hp1 : pending w1 = []) by (rewrite E1; reflexivity).
  assert (Hg1 : inMuteOrUnmuteProgress (localTrack w1) = false)
    by (rewrite E1; reflexivity).
  assert (E2 : w2 = _)
    by (exact (local_world window w1 Unmute Hp1 Hg1 Hpol1 eq_refl Hm1)).
  cbn [target negb] in E2. clearbody w2.
  assert (Hr1 : has_room (localTrack w1) = has_room this).
  { rewrite E1. apply has_room_ext. cbn.
    destruct (has_room this); reflexivity. }
  assert (Hsent : forall m, mute_status_sent (localTrack w1) m
                            = mute_status_sent this m).
  { intros m. rewrite E1. apply mute_status_sent_ext; cbn;
      destruct (has_room this); reflexivity. }
  rewrite Hr1, Hsent in E2.
  split; [exact Hm1|].
  split; [rewrite E1; cbn; destruct (has_room this); reflexivity|].
  assert (Hs2 : stream (localTrack w2) = stream this).
  { rewrite E2. cbn. rewrite E1. cbn.
    destruct (has_room this); reflexivity. }
  assert (Ht2 : track (localTrack w2) = track this).
  { rewrite E2. cbn. rewrite E1. cbn.
    assert (Hx : track this = Some tr) by exact Ht.
    destruct (has_room this); cbn;
      rewrite Hx; cbn; f_equal; destruct tr; cbn in *; subst; reflexivity. }
  split.
  { unfold isMuted. rewrite Hs2, Ht2. fold (isVideoTrack this).
    assert (Hv : isVideoTrack (localTrack w2) = isVideoTrack this).
    { rewrite E2. unfold isVideoTrack, getType. cbn. rewrite E1. cbn.
      destruct (has_room this); reflexivity. }
    rewrite Hv. exact Hm. }
  split; [exact Hs2|]. split; [exact Ht2|].
  split.
  - rewrite E2. cbn [outcomes]. rewrite E1. cbn [outcomes calls].
    rewrite <- app_assoc. reflexivity.
  - rewrite E2. cbn [log]. rewrite E1. cbn [log].
    repeat (first [rewrite <- app_assoc | progress cbn [app]]). reflexivity.
Qed.

Lemma local_mute_unmute_round_trip_witness :
  let w1 :=
    run chrome_https
        (local_run Mute (localTrack microphone_world) (calls microphone_world))
        microphone_world in
  let w2 :=
    run chrome_https (local_run Unmute (localTrack w1) (calls w1)) w1 in
  isMuted (localTrack w1) = true
  /\ track (localTrack w2) = track (localTrack microphone_world).
Proof.
  destruct (local_mute_unmute_round_trip chrome_https microphone_world
              eq_refl eq_refl eq_refl eq_refl)
    as (H1 & _ & _ & _ & H2 & _).
  split; [exact H1|exact H2].
Defined.

(** ** Listener registration *)

Lemma listeners_added_app :
  forall l1 l2,
    listeners_added (l1 ++ l2) = listeners_added l1 ++ listeners_added l2.
Proof.
  intros l1 l2. induction l1 as [|e l1 IH]; [reflexivity|].
  destruct e; cbn; rewrite IH; reflexivity.
Qed.

Lemma listeners_removed_app :
  forall l1 l2,
    listeners_removed (l1 ++ l2)
    = listeners_removed l1 ++ listeners_removed l2.
Proof.
  intros l1 l2. induction l1 as [|e l1 IH]; [reflexivity|].
  destruct e; cbn; rewrite IH; reflexivity.
Qed.

Lemma no_listener_effects :
  forall out,
    Forall (fun e => is_listener_effect e = false) out ->
    listeners_added out = [] /\ listeners_removed out = [].
Proof.
  intros out H. induction H as [|e out He _ [IH1 IH2]]; [auto|].
  destruct e; cbn in *; try discriminate; auto.
Qed.

Lemma attach_is_no_listener_effect :
  forall (s : option MediaStream) (cs : list Container),
    Forall (fun e => is_listener_effect e = false)
           (map (fun c => RTCUtils_attachMediaStream c s) cs).
Proof.
  intros s cs. induction cs; cbn; constructor; auto.
Qed.

Lemma onFulfilled_listeners :
  forall h v this c this' out,
    onFulfilled h v this = (c, this', out) ->
    _onAudioOutputDeviceChanged this' = _onAudioOutputDeviceChanged this
    /\ Forall (fun e => is_listener_effect e = false) out.
Proof.
  intros h v this c this' out H. destruct h.
  - cbn in H. injection H as <- <- <-. split; [reflexivity|constructor].
  - cbn in H. injection H as <- <- <-. split; [reflexivity|].
    repeat constructor.
  - rewrite then_useObtainedStream_eq in H. destruct v as [|l].
    + injection H as <- <- <-. split; [reflexivity|constructor].
    + destruct (find _ l) as [info|].
      * cbv zeta in H. injection H as <- <- <-. split.
        -- destruct (negb _); reflexivity.
        -- apply Forall_app. split; [destruct (negb _); repeat constructor|].
           apply Forall_app. split; [apply attach_is_no_listener_effect|].
           destruct (has_room this); repeat constructor.
      * injection H as <- <- <-. split; [reflexivity|constructor].
  - unfold onFulfilled in H. rewrite _sendMuteStatus_eq in H.
    injection H as <- <- <-. split; [reflexivity|].
    unfold mute_status_sent.
    destruct (has_room this); [|constructor].
    destruct (isAudioTrack this); repeat constructor.
  - cbn in H. injection H as <- <- <-. split; [reflexivity|].
    repeat constructor.
  - cbn in H. injection H as <- <- <-. split; [reflexivity|].
    repeat constructor.
Qed.

Lemma job_listeners :
  forall p this p' this' out,
    job p this = (p', this', out) ->
    _onAudioOutputDeviceChanged this' = _onAudioOutputDeviceChanged this
    /\ Forall (fun e => is_listener_effect e = false) out.
Proof.
  intros p this p' this' out H. unfold job in H.
  destruct (state p) as [v|e|r].
  - destruct (reactions p) as [|[h|h] rest].
    + injection H as <- <- <-. auto.
    + destruct (onFulfilled h v this) as [[c t] o] eqn:Hh.
      injection H as <- <- <-.
      exact (onFulfilled_listeners _ _ _ _ _ _ Hh).
    + injection H as <- <- <-. auto.
  - destruct (reactions p) as [|[h|h] rest].
    + injection H as <- <- <-. auto.
    + injection H as <- <- <-. auto.
    + destruct (onRejected h e this) as [[c t] o] eqn:Hh.
      injection H as <- <- <-.
      destruct (onRejected_frame _ _ _ _ _ _ Hh) as (_ & -> & ->).
      split; [reflexivity|constructor].
  - injection H as <- <- <-. auto.
Qed.

Lemma transition_listeners :
  forall window mute this r this' out,
    createMuteUnmutePromise window mute this = (r, this', out) ->
    _onAudioOutputDeviceChanged this' = _onAudioOutputDeviceChanged this
    /\ Forall (fun e => is_listener_effect e = false) out.
Proof.
  intros window mute this r this' out H.
  rewrite createMuteUnmutePromise_eq in H.
  destruct (inMuteOrUnmuteProgress this).
  { injection H as <- <- <-. auto. }
  cbv zeta in H.
  destruct (Bool.eqb (isMuted this) mute).
  { injection H as <- <- <-. auto. }
  destruct (cannot_remove_stream window this).
  { destruct (track this), (has_room this);
      injection H as <- <- <-; cbn; auto. }
  destruct mute, (has_room this);
    injection H as <- <- <-; cbn; split; try reflexivity; repeat constructor.
Qed.

Lemma listener_listeners :
  forall ev a this r this' out,
    listener ev = Some a -> a this = (r, this', out) ->
    _onAudioOutputDeviceChanged this' = _onAudioOutputDeviceChanged this
    /\ Forall (fun e => is_listener_effect e = false) out.
Proof.
  intros ev a this r this' out Hl Ha.
  destruct ev as [c|n|n v|n e|devs|c|sid| ]; try discriminate; cbn in Hl;
    inversion Hl; subst a; clear Hl.
  - destruct (_onDeviceListChanged_eq devs this) as [H1 H2].
    rewrite Ha in H1, H2. cbn [fst snd] in H1, H2. subst this' out.
    split; [|constructor].
    match goal with
    | |- context [if ?b then _ else _] => destruct b
    end; reflexivity.
  - unfold _setConference in Ha. rewrite bind_modify, bind_get in Ha.
    rewrite forEach_perform in Ha. injection Ha as <- <- <-; cbn.
    split; [reflexivity|]. induction (containers this); cbn; auto.
  - rewrite stream_inactive_eq in Ha. cbv zeta in Ha.
    destruct (strict_eq Nat.eqb (inactive_handler_on this) sid),
      (dontFireRemoveEvent this);
      injection Ha as <- <- <-; cbn; split; try reflexivity;
      repeat constructor.
  - unfold track_ended in Ha. rewrite bind_get in Ha. cbn in Ha.
    injection Ha as <- <- <-; cbn. auto.
Qed.

(** What one event does to the listeners: only dispose() touches them. *)
Lemma step_listeners :
  forall window ev w,
    _onAudioOutputDeviceChanged (localTrack (step window ev w))
    = _onAudioOutputDeviceChanged (localTrack w)
    /\ listeners_added (log (step window ev w)) = listeners_added (log w)
    /\ listeners_removed (log (step window ev w))
       = listeners_removed (log w)
         ++ (if is_dispose ev
             then DEVICE_LIST_CHANGED
                  :: (if _onAudioOutputDeviceChanged (localTrack w)
                      then [AUDIO_OUTPUT_DEVICE_CHANGED] else [])
             else []).
Proof.
  intros window ev w.
  destruct (is_dispose ev) eqn:Hd.
  - destruct ev as [[| |]|n|n v|n e|devs|c|sid| ]; try discriminate.
    cbn [step]. unfold enter, invoke. rewrite dispose_eq. cbn [localTrack log].
    split; [destruct (is_undefined (stream _)); reflexivity|].
    rewrite listeners_added_app, listeners_removed_app.
    destruct (conference (localTrack w)), (stream (localTrack w)),
      (_onAudioOutputDeviceChanged (localTrack w)); cbn;
      rewrite ?app_nil_r; auto.
  - set (b := _onAudioOutputDeviceChanged (localTrack w)).
    destruct (step_holds window
                (fun this => _onAudioOutputDeviceChanged this = b)
                (fun e => is_listener_effect e = false)
                (fun _ _ => True)
                (fun ev => is_dispose ev = false)) with (ev := ev) (w := w)
      as [[HP _] (out & Hlog & HE)].
    + intros c this r this' out' Hc HP Hi.
      destruct c; try discriminate; unfold invoke, mute, unmute in Hi;
        destruct (transition_listeners _ _ _ _ _ _ Hi) as [H1 H2];
        (split; [congruence|]); auto.
    + intros c p this p' this' out' _ HP Hj.
      destruct (job_listeners _ _ _ _ _ Hj) as [H1 H2].
      split; [congruence|]. auto.
    + auto.
    + intros ev' a this r this' out' _ Hl HP Ha.
      destruct (listener_listeners _ _ _ _ _ _ Hl Ha) as [H1 H2].
      split; [congruence|]. auto.
    + exact Hd.
    + split; [reflexivity|].
      apply Forall_forall. auto.
    + destruct (no_listener_effects _ HE) as [Ha Hr].
      rewrite Hlog, listeners_added_app, listeners_removed_app, Ha, Hr.
      rewrite !app_nil_r. auto.
Qed.

Lemma run_listeners :
  forall window evs w,
    let removed :=
      DEVICE_LIST_CHANGED
      :: (if _onAudioOutputDeviceChanged (localTrack w)
          then [AUDIO_OUTPUT_DEVICE_CHANGED] else []) in
    listeners_added (log (run window evs w)) = listeners_added (log w)
    /\ listeners_removed (log (run window evs w))
       = listeners_removed (log w)
         ++ concat (repeat removed (disposals evs)).
Proof.
  intros window evs. induction evs as [|ev evs IH]; intros w removed.
  - cbn. rewrite app_nil_r. auto.
  - rewrite run_cons.
    destruct (step_listeners window ev w) as (Hb & Ha & Hr).
    destruct (IH (step window ev w)) as [IHa IHr].
    rewrite Hb in IHr. fold removed in IHr, Hr.
    split; [congruence|].
    rewrite IHr, Hr, <- app_assoc. f_equal.
    unfold disposals. cbn [filter].
    destruct (is_dispose ev); cbn; rewrite ?app_nil_r; reflexivity.
Qed.

(** X15: only the constructor registers listeners with RTCUtils and only
    dispose() unregisters them: after any history, the listeners registered
    are those of the constructor, and the listeners unregistered are, once
    per dispose() call of the history, those of the constructor in the
    reverse order. *)
Theorem listeners_go_with_dispose_only :
  forall (window : Platform) (stream : option MediaStream)
         (track : option MediaStreamTrack) (mediaType : MediaType)
         (videoType : option VideoType) (resolution : nat)
         (deviceId : string) (facingMode : Nullable CameraFacingMode)
         (evs : list Event),
    let w0 := start window stream track mediaType videoType resolution
                    deviceId facingMode in
    let w := run window evs w0 in
    listeners_added (log w) = listeners_added (log w0)
    /\ listeners_removed (log w)
       = concat (repeat (rev (listeners_added (log w0))) (disposals evs)).
Proof.
  intros window stream track mediaType videoType resolution deviceId
         facingMode evs w0 w.
  destruct (run_listeners window evs w0) as [Ha Hr].
  split; [exact Ha|].
  unfold w. rewrite Hr. unfold w0, start, new_JitsiLocalTrack.
  cbn [localTrack log _onAudioOutputDeviceChanged].
  destruct (MediaType_eqb mediaType AUDIO
            && isDeviceChangeAvailable_output window); reflexivity.
Qed.

(** ** Disposal at any time *)



(** ** The start-muted flag *)

Lemma onFulfilled_startMuted :
  forall h v this c this' out,
    onFulfilled h v this = (c, this', out) ->
    startMuted this' = startMuted this.
Proof.
  intros h v this c this' out H. destruct h.
  - cbn in H. injection H as <- <- <-. reflexivity.
  - cbn in H. injection H as <- <- <-. reflexivity.
  - rewrite then_useObtainedStream_eq in H. destruct v as [|l].
    + injection H as <- <- <-. reflexivity.
    + destruct (find _ l) as [info|].
      * cbv zeta in H. injection H as <- <- <-.
        destruct (negb _); reflexivity.
      * injection H as <- <- <-. reflexivity.
  - unfold onFulfilled in H. rewrite _sendMuteStatus_eq in H.
    injection H as <- <- <-. reflexivity.
  - cbn in H. injection H as <- <- <-. reflexivity.
  - cbn in H. injection H as <- <- <-. reflexivity.
Qed.

Lemma job_startMuted :
  forall p this p' this' out,
    job p this = (p', this', out) ->
    startMuted this' = startMuted this.
Proof.
  intros p this p' this' out H. unfold job in H.
  destruct (state p) as [v|e|r].
  - destruct (reactions p) as [|[h|h] rest].
    + injection H as <- <- <-. auto.
    + destruct (onFulfilled h v this) as [[c t] o] eqn:Hh.
      injection H as <- <- <-.
      exact (onFulfilled_startMuted _ _ _ _ _ _ Hh).
    + injection H as <- <- <-. auto.
  - destruct (reactions p) as [|[h|h] rest].
    + injection H as <- <- <-. auto.
    + injection H as <- <- <-. auto.
    + destruct (onRejected h e this) as [[c t] o] eqn:Hh.
      injection H as <- <- <-.
      destruct (onRejected_frame _ _ _ _ _ _ Hh) as (_ & _ & ->).
      reflexivity.
  - injection H as <- <- <-. auto.
Qed.

Lemma listener_startMuted :
  forall ev a this r this' out,
    listener ev = Some a -> a this = (r, this', out) ->
    startMuted this' = startMuted this.
Proof.
  intros ev a this r this' out Hl Ha.
  destruct ev as [c|n|n v|n e|devs|c|sid| ]; try discriminate; cbn in Hl;
    inversion Hl; subst a; clear Hl.
  - destruct (_onDeviceListChanged_eq devs this) as [H1 _].
    rewrite Ha in H1. cbn [fst snd] in H1. subst this'.
    match goal with
    | |- context [if ?b then _ else _] => destruct b
    end; reflexivity.
  - unfold _setConference in Ha. rewrite bind_modify, bind_get in Ha.
    rewrite forEach_perform in Ha. injection Ha as <- <- <-. reflexivity.
  - rewrite stream_inactive_eq in Ha. cbv zeta in Ha.
    destruct (strict_eq Nat.eqb (inactive_handler_on this) sid),
      (dontFireRemoveEvent this);
      injection Ha as <- <- <-; reflexivity.
  - unfold track_ended in Ha. rewrite bind_get in Ha. cbn in Ha.
    injection Ha as <- <- <-. reflexivity.
Qed.

Lemma run_startMuted :
  forall window evs w,
    forallb (fun ev => negb (is_mute_call ev)) evs = true ->
    startMuted (localTrack (run window evs w)) = startMuted (localTrack w).
Proof.
  intros window evs w Hevs.
  set (b := startMuted (localTrack w)).
  destruct (run_holds window
              (fun this => startMuted this = b)
              (fun _ => True)
              (fun _ _ => True)
              (fun ev => is_mute_call ev = false)) with (evs := evs) (w := w)
    as [[HP _] _].
  - intros c this r this' out Hc HP Hi.
    destruct c; try discriminate. unfold invoke in Hi.
    rewrite dispose_eq in Hi. injection Hi as <- <- <-.
    split; [|split; [apply Forall_forall|]; auto].
    destruct (is_undefined (stream this)); exact HP.
  - intros c p this p' this' out _ HP Hj.
    rewrite <- HP. split; [exact (job_startMuted _ _ _ _ _ Hj)|].
    split; [apply Forall_forall|]; auto.
  - auto.
  - intros ev a this r this' out _ Hl HP Ha.
    rewrite <- HP. split; [exact (listener_startMuted _ _ _ _ _ _ Hl Ha)|].
    apply Forall_forall; auto.
  - apply Forall_forall. intros ev Hin.
    rewrite forallb_forall in Hevs. apply Hevs in Hin.
    destruct (is_mute_call ev); [discriminate|reflexivity].
  - split; [reflexivity|]. apply Forall_forall. auto.
  - exact HP.
Qed.

(** X17: the start-muted flag is written by the statements of mute() and
    unmute() and by nothing else.  A call that starts a transition of a
    track outside a conference room records the requested state in the call
    itself; a call that is refused, a call in the requested state, a call in
    a room and dispose() leave the flag alone; and whatever follows short of
    another mute() or unmute() -- promise jobs, answers and rejections of
    the collaborators, notifications, conference changes -- keeps the value:
    a transition that fails does not restore the flag. *)
Theorem startMuted_is_written_by_the_call :
  forall (window : Platform) (w : World) (c : Call) (evs : list Event),
    forallb (fun ev => negb (is_mute_call ev)) evs = true ->
    let this := localTrack w in
    let written :=
      is_transition c && negb (inMuteOrUnmuteProgress this)
      && negb (Bool.eqb (isMuted this) (target c))
      && negb (has_room this) in
    startMuted (localTrack (run window (Invoke c :: evs) w))
    = if written then target c else startMuted this.
Proof.
  intros window w c evs Hevs this written.
  rewrite run_cons, (run_startMuted _ _ _ Hevs).
  unfold written. cbn [step]. unfold enter, invoke.
  destruct c; unfold mute, unmute, target; cbn [is_transition andb].
  - rewrite createMuteUnmutePromise_eq. fold this.
    destruct (inMuteOrUnmuteProgress this); [reflexivity|]. cbv zeta.
    destruct (Bool.eqb (isMuted this) true); [reflexivity|].
    destruct (cannot_remove_stream window this), (has_room this),
      (track this); reflexivity.
  - rewrite createMuteUnmutePromise_eq. fold this.
    destruct (inMuteOrUnmuteProgress this); [reflexivity|]. cbv zeta.
    destruct (Bool.eqb (isMuted this) false); [reflexivity|].
    destruct (cannot_remove_stream window this), (has_room this),
      (track this); reflexivity.
  - rewrite dispose_eq. fold this.
    destruct (is_undefined (stream this)); reflexivity.
Qed.

Lemma startMuted_is_written_by_the_call_witness :
  startMuted (localTrack
                (run chrome_https
                     [Invoke Unmute; Reject 1 (JitsiTrackError TRACK_NO_STREAM_FOUND);
                      Job 1; SetConference (Some a_conference)]
                     muted_camera_world))
  = false
  /\ startMuted (localTrack muted_camera_world) = true.
Proof.
  split; [|reflexivity].
  exact (startMuted_is_written_by_the_call chrome_https muted_camera_world
           Unmute
           [Reject 1 (JitsiTrackError TRACK_NO_STREAM_FOUND); Job 1;
            SetConference (Some a_conference)] eq_refl).
Defined.

(** ** Every call is answered *)

Lemma pass_by_length :
  forall st rs, length (pass_by st rs) <= length rs.
Proof.
  intros st rs. induction rs as [|[h|h] rs IH]; cbn; [lia| |];
    destruct st; cbn; lia.
Qed.

Lemma pass_by_idem :
  forall st rs, pass_by st (pass_by st rs) = pass_by st rs.
Proof.
  intros st rs. induction rs as [|[h|h] rs IH]; cbn; [reflexivity| |];
    destruct st; cbn; auto.
Qed.

Lemma adopt_normal :
  forall q rest, normal (adopt q rest).
Proof.
  intros q rest. unfold normal, adopt. cbn. apply pass_by_idem.
Qed.

Lemma job_cases :
  forall p this p' this' out,
    job p this = (p', this', out) ->
    (p' = p /\ match state p, reactions p with
               | Resolved _, Then _ :: _ | Rejected _, Catch _ :: _ => False
               | _, _ => True
               end)
    \/ (exists r rest st,
           reactions p = r :: rest
           /\ p' = {| state := st; reactions := pass_by st rest |}).
Proof.
  intros p this p' this' out H. unfold job in H.
  destruct (state p) as [v|e|r].
  - destruct (reactions p) as [|[h|h] rest].
    + injection H as <- <- <-. auto.
    + destruct (onFulfilled h v this) as [[c t] o] eqn:Hh.
      injection H as <- <- <-. right.
      destruct (onFulfilled_frame _ _ _ _ _ _ Hh) as (Hr & _).
      exists (Then h), rest, (state (settle c)).
      split; [reflexivity|]. unfold adopt. rewrite Hr. reflexivity.
    + injection H as <- <- <-. auto.
  - destruct (reactions p) as [|[h|h] rest].
    + injection H as <- <- <-. auto.
    + injection H as <- <- <-. auto.
    + destruct (onRejected h e this) as [[c t] o] eqn:Hh.
      injection H as <- <- <-. right.
      destruct (onRejected_frame _ _ _ _ _ _ Hh) as (-> & _ & _).
      exists (Catch h), rest, (Rejected e). split; reflexivity.
  - injection H as <- <- <-. auto.
Qed.

Lemma job_normal :
  forall p this p' this' out,
    normal p -> job p this = (p', this', out) -> normal p'.
Proof.
  intros p this p' this' out Hn H.
  destruct (job_cases _ _ _ _ _ H) as [[-> _]|(r & rest & st & _ & ->)].
  - exact Hn.
  - unfold normal. cbn. apply pass_by_idem.
Qed.

Lemma ready_step :
  forall window ev w, ready w -> ready (step window ev w).
Proof.
  intros window ev w [HI HN]. split; [apply Inv_step; exact HI|].
  destruct (step_holds window (fun _ => True) (fun _ => True)
              (fun _ p => normal p) (fun _ => True)) with (ev := ev) (w := w)
    as [[_ H] _]; auto.
  - intros c this r this' out _ _ _.
    split; [exact I|]. split; [apply Forall_forall; auto|].
    apply adopt_normal.
  - intros c p this p' this' out Hn _ Hj.
    split; [exact I|]. split; [apply Forall_forall; auto|].
    exact (job_normal _ _ _ _ _ Hn Hj).
  - intros c s p _. apply adopt_normal.
  - intros ev' a this r this' out _ _ _ _.
    split; [exact I|]. apply Forall_forall; auto.
  - split; [exact I|exact HN].
Qed.

Lemma ready_run :
  forall window evs w, ready w -> ready (run window evs w).
Proof.
  intros window evs. induction evs as [|ev evs IH]; intros w H.
  - exact H.
  - rewrite run_cons. apply IH, ready_step, H.
Qed.

Lemma lookup_task_none :
  forall n ts, lookup_task n ts = None <-> ~ In n (map task ts).
Proof.
  intros n ts. unfold lookup_task. induction ts as [|t ts IH]; cbn.
  - tauto.
  - destruct (Nat.eqb (task t) n) eqn:E.
    + apply Nat.eqb_eq in E. split; [discriminate|]. intros H.
      contradiction H. left. exact E.
    + apply Nat.eqb_neq in E. rewrite IH. tauto.
Qed.

Lemma advance_lookup :
  forall (n : nat) (f : Reactor) (ts : list Task) (this : JitsiLocalTrack)
         (t : Task) (p' : Promise) (this' : JitsiLocalTrack)
         (out : list Effect),
    NoDup (map task ts) ->
    lookup_task n ts = Some t ->
    f (promise t) this = (p', this', out) ->
    exists ts',
      advance n f ts this
      = (ts', this', out, if is_done p' then [(n, state p')] else [])
      /\ lookup_task n ts'
         = if is_done p' then None
           else Some {| task := n; call_of := call_of t; promise := p' |}.
Proof.
  intros n f ts this t p' this' out. unfold lookup_task.
  induction ts as [|x ts IH]; intros Hnd Hl Hf; [discriminate|].
  cbn in Hl |- *. destruct (Nat.eqb (task x) n) eqn:E.
  - injection Hl as ->. rewrite Hf.
    apply Nat.eqb_eq in E. cbn in Hnd. apply NoDup_cons_iff in Hnd.
    destruct (is_done p').
    + exists ts. split; [reflexivity|].
      apply lookup_task_none. rewrite <- E. exact (proj1 Hnd).
    + eexists. split; [reflexivity|]. cbn. rewrite Nat.eqb_refl.
      reflexivity.
  - cbn in Hnd. apply NoDup_cons_iff in Hnd.
    destruct (IH (proj2 Hnd) Hl Hf) as (ts' & Ha & Hl').
    rewrite Ha. eexists. split; [reflexivity|]. cbn. rewrite E. exact Hl'.
Qed.

(** What a call waits for brings its chain forward. *)
Lemma reactor_progress :
  forall (oracle : Oracle) (p : Promise) (this : JitsiLocalTrack),
    normal p ->
    let f := match state p with
             | Pending r =>
                 answer (match oracle r with
                         | inl v => Resolved v
                         | inr e => Rejected e
                         end)
             | _ => job
             end in
    is_done (fst (fst (f p this))) = true
    \/ remaining (fst (fst (f p this))) < remaining p.
Proof.
  intros oracle p this Hn f.
  destruct (f p this) as [[p' this'] out] eqn:Hf. cbn [fst].
  unfold f in Hf. unfold remaining.
  assert (Hjob : job p this = (p', this', out) ->
                 is_settled (state p) = true ->
                 is_done p' = true
                 \/ 2 * length (reactions p')
                    + (if is_settled (state p') then 0 else 1)
                    < 2 * length (reactions p) + 0).
  { intros Hj Hs.
    destruct (job_cases _ _ _ _ _ Hj) as [[-> Hm]|(r & rest & st & Hr & ->)].
    - left. unfold normal in Hn. unfold is_done.
      revert Hn Hm Hs.
      destruct (reactions p) as [|r rest]; intros Hn Hm Hs.
      + destruct (state p); [reflexivity|reflexivity|discriminate].
      + exfalso. pose proof (pass_by_length (state p) rest) as Hlen.
        revert Hn Hm Hs Hlen.
        destruct (state p) as [v|e|q]; intros Hn Hm Hs Hlen;
          [| |discriminate]; destruct r as [h|h]; try contradiction;
          cbn in Hn; rewrite Hn in Hlen; cbn in Hlen; lia.
    - right. rewrite Hr. cbn.
      pose proof (pass_by_length st rest).
      destruct (is_settled st); lia. }
  destruct (state p) as [v|e|r] eqn:Hst.
  - apply Hjob; auto.
  - apply Hjob; auto.
  - rewrite answer_eq in Hf. rewrite Hst in Hf. injection Hf as <- _ _.
    right. cbn. rewrite app_nil_r.
    pose proof (pass_by_length
                  (match oracle r with
                   | inl v => Resolved v
                   | inr e => Rejected e
                   end) (reactions p)).
    destruct (oracle r); cbn; lia.
Qed.

Lemma awaited_step :
  forall (window : Platform) (oracle : Oracle) (n : nat) (w : World)
         (t : Task),
    ready w ->
    lookup_task n (pending w) = Some t ->
    exists ev w',
      awaited oracle n w = Some ev /\ step window ev w = w'
      /\ ((lookup_task n (pending w') = None
           /\ exists s, outcomes w' = outcomes w ++ [(n, s)]
                        /\ is_settled s = true)
          \/ (lookup_task n (pending w') <> None
              /\ work_left n w' < work_left n w)).
Proof.
  intros window oracle n w t [HI HN] Hl.
  assert (Hin : In t (pending w) /\ task t = n).
  { unfold lookup_task in Hl. apply find_some in Hl.
    destruct Hl as [Hin E]. apply Nat.eqb_eq in E. auto. }
  destruct Hin as [Hin Ht].
  assert (Hnt : normal (promise t)).
  { rewrite Forall_forall in HN. exact (HN _ Hin). }
  pose proof (reactor_progress oracle (promise t) (localTrack w) Hnt) as Hp.
  cbv zeta in Hp.
  set (f := match state (promise t) with
            | Pending r =>
                answer (match oracle r with
                        | inl v => Resolved v
                        | inr e => Rejected e
                        end)
            | _ => job
            end) in Hp.
  destruct (f (promise t) (localTrack w)) as [[p' this'] out] eqn:Hf.
  cbn [fst] in Hp.
  destruct (advance_lookup n f (pending w) (localTrack w) t p' this' out
              (inv_distinct _ HI) Hl Hf) as (ts' & Ha & Hl').
  assert (Hstep : exists ev,
             awaited oracle n w = Some ev
             /\ step window ev w = deliver n f w).
  { unfold awaited. rewrite Hl. unfold f.
    destruct (state (promise t)) as [v|e|r].
    - eexists. split; reflexivity.
    - eexists. split; reflexivity.
    - destruct (oracle r); eexists; (split; [reflexivity|]); reflexivity. }
  destruct Hstep as (ev & Hev & Hs).
  exists ev, (deliver n f w). split; [exact Hev|]. split; [exact Hs|].
  unfold work_left. rewrite Hl. unfold deliver. rewrite Ha.
  cbn [pending outcomes]. rewrite Hl'.
  destruct (is_done p') eqn:Hd.
  - left. split; [reflexivity|]. eexists. split; [reflexivity|].
    unfold is_done in Hd.
    destruct (reactions p'), (state p'); try discriminate; reflexivity.
  - right. destruct Hp as [Hp|Hp]; [discriminate|].
    split; [discriminate|].
    cbn [promise]. apply -> Nat.succ_lt_mono. exact Hp.
Qed.

Lemma drive_answers :
  forall (window : Platform) (oracle : Oracle) (n : nat) (fuel : nat)
         (w : World),
    ready w ->
    work_left n w <= fuel ->
    lookup_task n (pending w) <> None ->
    let w' := drive window fuel oracle n w in
    lookup_task n (pending w') = None
    /\ exists s, In (n, s) (outcomes w') /\ is_settled s = true.
Proof.
  intros window oracle n fuel.
  induction fuel as [|k IH]; intros w HR Hfuel Hl.
  - exfalso. unfold work_left in Hfuel. revert Hfuel Hl.
    destruct (lookup_task n (pending w)); [lia|congruence].
  - destruct (lookup_task n (pending w)) as [t|] eqn:Ht; [|congruence].
    destruct (awaited_step window oracle n w t HR Ht)
      as (ev & w1 & Hev & Hs & Hcase).
    cbn [drive]. rewrite Hev, Hs.
    destruct Hcase as [[Hnone (s & Ho & Hset)]|[Hsome Hless]].
    + assert (Hstop : drive window k oracle n w1 = w1).
      { destruct k; [reflexivity|]. cbn [drive]. unfold awaited.
        rewrite Hnone. reflexivity. }
      cbv zeta. rewrite Hstop. split; [exact Hnone|].
      exists s. split; [|exact Hset]. rewrite Ho.
      apply in_or_app. right. left. reflexivity.
    + apply IH.
      * rewrite <- Hs. apply ready_step. exact HR.
      * lia.
      * exact Hsome.
Qed.

(** X18: no call is left hanging.  After any history, each call still in
    flight -- mute(), unmute() or dispose() -- is answered once it has been
    given what it waits for (the collaborator's answer to its request,
    whatever that answer is, or its next promise job) a number of times
    bounded by the length of its chain: it leaves the calls in flight and
    its caller has a fulfilment or a rejection. *)
Theorem every_call_is_answered :
  forall (window : Platform) (stream0 : option MediaStream)
         (track0 : option MediaStreamTrack) (mediaType : MediaType)
         (videoType0 : option VideoType) (resolution0 : nat)
         (deviceId0 : string) (facingMode : Nullable CameraFacingMode)
         (evs : list Event) (oracle : Oracle) (n : nat),
    let w := run window evs
                 (start window stream0 track0 mediaType videoType0
                        resolution0 deviceId0 facingMode) in
    In n (map task (pending w)) ->
    let w' := drive window (work_left n w) oracle n w in
    ~ In n (map task (pending w'))
    /\ exists s, In (n, s) (outcomes w') /\ is_settled s = true.
Proof.
  intros window stream0 track0 mediaType videoType0 resolution0 deviceId0
         facingMode evs oracle n w Hin w'.
  assert (HR : ready w).
  { apply ready_run. split; [apply Inv_start|constructor]. }
  assert (Hl : lookup_task n (pending w) <> None).
  { intros H. apply lookup_task_none in H. contradiction. }
  destruct (drive_answers window oracle n (work_left n w) w HR (le_n _) Hl)
    as [Hnone Hout].
  split; [|exact Hout].
  apply lookup_task_none. exact Hnone.
Qed.

Lemma every_call_is_answered_witness :
  let w := run chrome_https [SetConference (Some a_conference); Invoke Mute]
               (start chrome_https (Some camera_stream) (Some camera_track)
                      VIDEO (Some CAMERA) 720 "" js_undefined) in
  let w' := drive chrome_https (work_left 0 w) (fun _ => inl undefined) 0 w in
  In 0 (map task (pending w))
  /\ ~ In 0 (map task (pending w'))
  /\ exists s, In (0, s) (outcomes w') /\ is_settled s = true.
Proof.
  split; [left; reflexivity|].
  apply (every_call_is_answered chrome_https (Some camera_stream)
           (Some camera_track) VIDEO (Some CAMERA) 720 "" js_undefined
           [SetConference (Some a_conference); Invoke Mute]
           (fun _ => inl undefined) 0).
  left. reflexivity.
Defined.

(** ** Joining a conference during a transition *)



